(** * Batch upload orchestration of [UploadModal.tsx]

    A shallow embedding of the orchestration logic of the upload dialog
    (name resolver, queue store, task runner, scheduler, auto-run trigger)
    together with the properties stated for it.

    The component is modelled as a transition system.  Every handler of the
    component (an event callback, a timer callback, the continuation of a
    network call) is one atomic transition: JavaScript runs a handler to
    completion, and the model lets React render and run the effects of the
    component before the next handler starts. *)

From Stdlib Require Import Ascii Decimal DecimalNat DecimalString.
From stdpp Require Import base list strings gmap.

Set Default Proof Using "Type".

(** ** Data model *)

(** [status] of a [QueueItem], the union type of line 11. *)
Inductive Status := Idle | Uploading | Queued | Processing | Done | Error.

Global Instance Status_eq_dec : EqDecision Status.
Proof. solve_decision. Defined.

(** A browser [File]: its name, its MIME type and its content. *)
Record File := mkFile { name : string; type_ : string; bits : string }.

(** [file: File | { name: string }]: records rebuilt from the report list
    carry a name only. *)
Inductive FileLike :=
| IsFile (f : File)
| NameOnly (n : string).

Definition file_name (f : FileLike) : string :=
  match f with
  | IsFile f => name f
  | NameOnly n => n
  end.

Record QueueItem := mkItem {
  file : FileLike;
  status : Status;
  jobId : option string;
  resultUrl : option string;
  error : option string
}.

(** ** Strings as JavaScript uses them *)

(** [s.lastIndexOf(c)]; [None] stands for [-1]. *)
Fixpoint lastIndexOf (c : ascii) (s : string) : option nat :=
  match s with
  | EmptyString => None
  | String a s' =>
      match lastIndexOf c s' with
      | Some i => Some (S i)
      | None => if decide (a = c) then Some 0 else None
      end
  end.

(** [s.substring(0, i)] and [s.substring(i)]. *)
Definition substring_to (i : nat) (s : string) : string :=
  String.substring 0 i s.
Definition substring_from (i : nat) (s : string) : string :=
  String.substring i (String.length s - i) s.

(** [String(n)] for a non-negative integer. *)
Definition String_of_nat (n : nat) : string :=
  NilEmpty.string_of_uint (Nat.to_uint n).

(** [s.padStart(targetLength, c)] for a one-character pad. *)
Definition padStart (targetLength : nat) (c : ascii) (s : string) : string :=
  Nat.iter (targetLength - String.length s) (String c) s.

(** ** NameResolver: [getUniqueFileName] (lines 84-110) *)

Section NameResolver.
(** The component state [existingNames], read by the closure. *)
Variable existingNames : gset string.

Definition isDuplicate (currentQueue : list QueueItem)
    (nameToCheck baseNameToCheck : string) : bool :=
  let inQueue :=
    existsb (λ item, bool_decide (file_name (file item) = nameToCheck))
            currentQueue in
  let inHistory := bool_decide (baseNameToCheck ∈ existingNames) in
  inQueue || inHistory.

(** The [while] loop of lines 102-108; [fuel] bounds the number of tests
    of the loop condition. *)
Fixpoint unique_loop (fuel : nat) (currentQueue : list QueueItem)
    (name ext newName newBaseName : string) (counter : nat)
    : option string :=
  match fuel with
  | 0 => None
  | S fuel' =>
      if isDuplicate currentQueue newName newBaseName then
        let suffix := padStart 2 "0" (String_of_nat counter) in
        let newBaseName := name +:+ "_" +:+ suffix in
        let newName := newBaseName +:+ ext in
        unique_loop fuel' currentQueue name ext newName newBaseName
                    (S counter)
      else Some newName
  end.

Definition split_name (fileName : string) : string * string :=
  let dotIndex := lastIndexOf "." fileName in
  let name := match dotIndex with
              | Some i => substring_to i fileName
              | None => fileName
              end in
  let ext := match dotIndex with
             | Some i => substring_from i fileName
             | None => ""
             end in
  (name, ext).

Definition getUniqueFileName_fuel (fuel : nat) (fileName : string)
    (currentQueue : list QueueItem) : option string :=
  let '(name, ext) := split_name fileName in
  unique_loop fuel currentQueue name ext fileName name 1.

(** Enough fuel for every input ([getUniqueFileName_fuel_enough] below):
    the candidates are pairwise distinct, and each colliding one uses up
    a queue entry or a history name. *)
Definition enough_fuel (currentQueue : list QueueItem) : nat :=
  2 + length currentQueue + size existingNames.

Definition getUniqueFileName (fileName : string)
    (currentQueue : list QueueItem) : string :=
  default fileName
    (getUniqueFileName_fuel (enough_fuel currentQueue) fileName currentQueue).

(** The loop of [addFiles] (lines 117-124): [newItems] grows, and each
    name is resolved against [updatedQueue ++ newItems]. *)
Fixpoint addFiles_loop (updatedQueue newItems : list QueueItem)
    (newFiles : list File) : list QueueItem :=
  match newFiles with
  | [] => newItems
  | f :: rest =>
      let uniqueName := getUniqueFileName (name f) (updatedQueue ++ newItems) in
      let renamedFile := mkFile uniqueName (type_ f) (bits f) in
      addFiles_loop updatedQueue
        (newItems ++ [mkItem (IsFile renamedFile) Idle None None None]) rest
  end.

(** The updater passed to [setQueue] by [addFiles]. *)
Definition addFiles_queue (newFiles : list File) (prev : list QueueItem)
    : list QueueItem :=
  prev ++ addFiles_loop prev [] newFiles.
End NameResolver.

(** Names used to state the resolver's properties. *)
Definition queue_names (q : list QueueItem) : list string :=
  (λ item, file_name (file item)) <$> q.

(** The stem of a file name: what [getUniqueFileName] calls [name]. *)
Definition stem (fileName : string) : string := (split_name fileName).1.

(** The [counter]-th candidate of the loop, as [newBaseName] and [newName]. *)
Definition candidate_base (name : string) (k : nat) : string :=
  name +:+ "_" +:+ padStart 2 "0" (String_of_nat k).
Definition candidate_name (name ext : string) (k : nat) : string :=
  candidate_base name k +:+ ext.

(** Reading a padded counter back (used to tell candidates apart). *)
Definition counter_of (s : string) : option nat :=
  Nat.of_uint <$> NilEmpty.uint_of_string s.

(** ** The server, as the component sees it *)

(** [engineMode]. *)
Inductive Mode := Auto | Pro.

Global Instance Mode_eq_dec : EqDecision Mode.
Proof. solve_decision. Defined.

(** The [FormData] posted to [/api/upload]: fields [file], [text], [mode]. *)
Record UploadRequest := mkRequest {
  req_file : File;
  req_text : string;
  req_mode : Mode
}.

(** Outcome of the upload call of [processItem]. *)
Inductive UploadResponse :=
| UploadOk (job_id : string)              (* [response.ok], [data.job_id] *)
| UploadRejected (detail : option string) (* [!response.ok], [errData.detail] *)
| UploadThrows (message : string).        (* [fetch] or [json()] rejects *)

(** Modelled from the spec: the job status endpoint, whose code is not part
    of the sources, "returns one of {queued, processing, completed, failed}". *)
Inductive JobStatus := JobQueued | JobProcessing | JobCompleted | JobFailed.

Record JobData := mkJobData {
  job_status : JobStatus;
  result_url : option string;
  job_error : option string
}.

(** Outcome of one status request of [poll]. *)
Inductive PollResponse :=
| PollOk (jobData : JobData)
| PollNotOk (code : nat) (txt statusText : string) (* [!statusRes.ok] *)
| PollThrows (message : string).                   (* [fetch] or [json()] rejects *)

(** One entry of [/api/reports]. *)
Record Report := mkReport { student_name : string; url : string; id : string }.

(** [a || d] on a possibly missing string: the empty string is falsy. *)
Definition or_default (a : option string) (d : string) : string :=
  match a with
  | Some s => if decide (s = "") then d else s
  | None => d
  end.

(** A possibly missing value inside a template literal. *)
Definition template (a : option string) : string := default "undefined" a.

(** [parseInt(s, 10)]: optional ASCII white space, an optional sign, then the
    longest run of decimal digits; [None] stands for [NaN].  Integers are
    exact here (no rounding above 2^53). *)
Fixpoint skip_space (s : string) : string :=
  match s with
  | String a s' => if Ascii.is_space a then skip_space s' else s
  | EmptyString => EmptyString
  end.

Fixpoint parse_digits (acc : option Z) (s : string) : option Z :=
  match s with
  | String a s' =>
      match Ascii.is_nat a with
      | Some d => parse_digits (Some (10 * default 0 acc + Z.of_nat d))%Z s'
      | None => acc
      end
  | EmptyString => acc
  end.

Definition parseInt (s : string) : option Z :=
  match skip_space s with
  | String "-" s' => Z.opp <$> parse_digits None s'
  | String "+" s' => parse_digits None s'
  | s' => parse_digits None s'
  end.

(** ** Component state *)

(** One invocation of [runBatchLogic] that got past its guards: the local
    variables its closures share, and the state of the promise it returns.
    [launched] is a history variable (the indices handed to [processItem],
    oldest first); no transition reads it. *)
Record BatchRun := mkRun {
  pendingIndices : list nat;
  CONCURRENCY_LIMIT : Z;
  activeCount : Z;
  nextPendingRefIndex : nat;
  completedCount : nat;
  run_mode : Mode;            (* [engineMode] of the closure *)
  resolved : bool;
  launched : list nat
}.

(** An upload call in flight: the run and queue index of its [processItem],
    and the request it sent. *)
Record Upload := mkUpload {
  up_run : nat;
  up_index : nat;
  up_request : UploadRequest
}.

(** A poll loop between two status replies: the [index] and [jobId] its
    closure holds. *)
Record Poll := mkPoll { poll_index : nat; poll_jobId : string }.

Record Stats := mkStats { completed : nat; total : nat }.

Record State := mkState {
  (* React state *)
  queue : list QueueItem;
  text : string;
  engineMode : Mode;
  isGlobalLoading : bool;
  stats : Stats;
  existingNames : gset string;
  shouldAutoRun : bool;
  (* refs *)
  queueRef : list QueueItem;
  textRef : string;
  isGlobalLoadingRef : bool;
  (* [localStorage.getItem("concurrency_limit")] *)
  concurrency_limit : option string;
  (* the auto-run effect: its pending timer, with the [engineMode] its
     callback closed over, and the dependencies of its last run *)
  timer : option Mode;
  effectDeps : bool * bool;
  (* suspended work *)
  runs : list BatchRun;       (* a run is named by its position *)
  uploads : list Upload;
  polls : list Poll;
  reportFetches : list bool;  (* [queue.length === 0] as each fetch saw it *)
  pendingClears : nat         (* "Clear All" handlers awaiting the server *)
}.

Definition set_queue (f : list QueueItem → list QueueItem) (st : State) : State :=
  mkState (f (queue st)) (text st) (engineMode st) (isGlobalLoading st) (stats st)
    (existingNames st) (shouldAutoRun st) (queueRef st) (textRef st)
    (isGlobalLoadingRef st) (concurrency_limit st) (timer st) (effectDeps st)
    (runs st) (uploads st) (polls st) (reportFetches st) (pendingClears st).
Definition set_text (t : string) (st : State) : State :=
  mkState (queue st) t (engineMode st) (isGlobalLoading st) (stats st)
    (existingNames st) (shouldAutoRun st) (queueRef st) (textRef st)
    (isGlobalLoadingRef st) (concurrency_limit st) (timer st) (effectDeps st)
    (runs st) (uploads st) (polls st) (reportFetches st) (pendingClears st).
Definition set_engineMode (m : Mode) (st : State) : State :=
  mkState (queue st) (text st) m (isGlobalLoading st) (stats st)
    (existingNames st) (shouldAutoRun st) (queueRef st) (textRef st)
    (isGlobalLoadingRef st) (concurrency_limit st) (timer st) (effectDeps st)
    (runs st) (uploads st) (polls st) (reportFetches st) (pendingClears st).
Definition set_isGlobalLoading (b : bool) (st : State) : State :=
  mkState (queue st) (text st) (engineMode st) b (stats st)
    (existingNames st) (shouldAutoRun st) (queueRef st) (textRef st)
    (isGlobalLoadingRef st) (concurrency_limit st) (timer st) (effectDeps st)
    (runs st) (uploads st) (polls st) (reportFetches st) (pendingClears st).
Definition set_stats (f : Stats → Stats) (st : State) : State :=
  mkState (queue st) (text st) (engineMode st) (isGlobalLoading st) (f (stats st))
    (existingNames st) (shouldAutoRun st) (queueRef st) (textRef st)
    (isGlobalLoadingRef st) (concurrency_limit st) (timer st) (effectDeps st)
    (runs st) (uploads st) (polls st) (reportFetches st) (pendingClears st).
Definition set_existingNames (n : gset string) (st : State) : State :=
  mkState (queue st) (text st) (engineMode st) (isGlobalLoading st) (stats st)
    n (shouldAutoRun st) (queueRef st) (textRef st)
    (isGlobalLoadingRef st) (concurrency_limit st) (timer st) (effectDeps st)
    (runs st) (uploads st) (polls st) (reportFetches st) (pendingClears st).
Definition set_shouldAutoRun (b : bool) (st : State) : State :=
  mkState (queue st) (text st) (engineMode st) (isGlobalLoading st) (stats st)
    (existingNames st) b (queueRef st) (textRef st)
    (isGlobalLoadingRef st) (concurrency_limit st) (timer st) (effectDeps st)
    (runs st) (uploads st) (polls st) (reportFetches st) (pendingClears st).
Definition set_concurrency_limit (v : option string) (st : State) : State :=
  mkState (queue st) (text st) (engineMode st) (isGlobalLoading st) (stats st)
    (existingNames st) (shouldAutoRun st) (queueRef st) (textRef st)
    (isGlobalLoadingRef st) v (timer st) (effectDeps st)
    (runs st) (uploads st) (polls st) (reportFetches st) (pendingClears st).
Definition set_timer (t : option Mode) (st : State) : State :=
  mkState (queue st) (text st) (engineMode st) (isGlobalLoading st) (stats st)
    (existingNames st) (shouldAutoRun st) (queueRef st) (textRef st)
    (isGlobalLoadingRef st) (concurrency_limit st) t (effectDeps st)
    (runs st) (uploads st) (polls st) (reportFetches st) (pendingClears st).
Definition set_runs (f : list BatchRun → list BatchRun) (st : State) : State :=
  mkState (queue st) (text st) (engineMode st) (isGlobalLoading st) (stats st)
    (existingNames st) (shouldAutoRun st) (queueRef st) (textRef st)
    (isGlobalLoadingRef st) (concurrency_limit st) (timer st) (effectDeps st)
    (f (runs st)) (uploads st) (polls st) (reportFetches st) (pendingClears st).
Definition set_uploads (f : list Upload → list Upload) (st : State) : State :=
  mkState (queue st) (text st) (engineMode st) (isGlobalLoading st) (stats st)
    (existingNames st) (shouldAutoRun st) (queueRef st) (textRef st)
    (isGlobalLoadingRef st) (concurrency_limit st) (timer st) (effectDeps st)
    (runs st) (f (uploads st)) (polls st) (reportFetches st) (pendingClears st).
Definition set_polls (f : list Poll → list Poll) (st : State) : State :=
  mkState (queue st) (text st) (engineMode st) (isGlobalLoading st) (stats st)
    (existingNames st) (shouldAutoRun st) (queueRef st) (textRef st)
    (isGlobalLoadingRef st) (concurrency_limit st) (timer st) (effectDeps st)
    (runs st) (uploads st) (f (polls st)) (reportFetches st) (pendingClears st).
Definition set_reportFetches (f : list bool → list bool) (st : State) : State :=
  mkState (queue st) (text st) (engineMode st) (isGlobalLoading st) (stats st)
    (existingNames st) (shouldAutoRun st) (queueRef st) (textRef st)
    (isGlobalLoadingRef st) (concurrency_limit st) (timer st) (effectDeps st)
    (runs st) (uploads st) (polls st) (f (reportFetches st)) (pendingClears st).
Definition set_pendingClears (n : nat) (st : State) : State :=
  mkState (queue st) (text st) (engineMode st) (isGlobalLoading st) (stats st)
    (existingNames st) (shouldAutoRun st) (queueRef st) (textRef st)
    (isGlobalLoadingRef st) (concurrency_limit st) (timer st) (effectDeps st)
    (runs st) (uploads st) (polls st) (reportFetches st) n.

(** The state of a freshly mounted component, given what [localStorage]
    holds under [reference_text] and [concurrency_limit]. *)
Definition init (reference_text : option string) (limit : option string) : State :=
  mkState [] (or_default reference_text "") Pro false (mkStats 0 0) ∅ false
    [] (or_default reference_text "") false limit None (false, false)
    [] [] [] [] 0.

(** ** QueueStore updates *)

(** [{ ...item, status: s }] and its variants. *)
Definition with_status (s : Status) (item : QueueItem) : QueueItem :=
  mkItem (file item) s (jobId item) (resultUrl item) (error item).
Definition with_queued (j : string) (item : QueueItem) : QueueItem :=
  mkItem (file item) Queued (Some j) (resultUrl item) (error item).
Definition with_done (u : string) (item : QueueItem) : QueueItem :=
  mkItem (file item) Done (jobId item) (Some u) (error item).
Definition with_error (m : string) (item : QueueItem) : QueueItem :=
  mkItem (file item) Error (jobId item) (resultUrl item) (Some m).

(** [setQueue(prev => { const copy = [...prev];
      if (copy[index]) copy[index] = patch(copy[index]); return copy; })]:
    nothing happens when [index] is past the end. *)
Definition patch_at (index : nat) (patch : QueueItem → QueueItem)
    (prev : list QueueItem) : list QueueItem :=
  alter patch index prev.

(** ** TaskRunner: [processItem] (lines 134-244) *)

(** The request built at lines 143-147. *)
Definition uploadRequest (engineMode : Mode) (textRef : string) (file : File)
    : UploadRequest :=
  mkRequest file (match engineMode with Pro => textRef | Auto => "" end)
            engineMode.

(** [processItem(index, file)] up to its first [await]: the record is marked
    [uploading] and the request leaves.  [rid] names the run whose
    [finally] callback waits for the call; [engineMode] is the one the
    closure of that run holds. *)
Definition processItem (rid : nat) (engineMode : Mode) (index : nat)
    (file : File) (st : State) : State :=
  let st := set_queue (patch_at index (with_status Uploading)) st in
  set_uploads
    (λ us, us ++ [mkUpload rid index (uploadRequest engineMode (textRef st) file)])
    st.

(** [processItem] after the upload call returns: lines 155-168 and 224-228
    on success, the [catch] of lines 230-243 otherwise. *)
Definition processItem_resume (index : nat) (resp : UploadResponse)
    (st : State) : State :=
  match resp with
  | UploadOk jobId =>
      let st := set_queue (patch_at index (with_queued jobId)) st in
      set_polls (λ ps, ps ++ [mkPoll index jobId]) st
  | UploadRejected detail =>
      set_queue (patch_at index (with_error (or_default detail "Upload Failed"))) st
  | UploadThrows message =>
      set_queue (patch_at index (with_error message)) st
  end.

(** The message of a poll whose status request did not succeed (line 176). *)
Definition server_error (code : nat) (txt statusText : string) : string :=
  "Server Error " +:+ String_of_nat code +:+ ": " +:+
  (if decide (txt = "") then statusText else txt).

(** One round of [poll] (lines 171-222) for the [k]-th pending poll loop:
    the timer fires, the status request returns [resp].  The loop stays
    pending exactly when it re-arms its timer (line 211). *)
Definition poll (k : nat) (resp : PollResponse) (st : State) : State :=
  match polls st !! k with
  | None => st
  | Some p =>
      let index := poll_index p in
      let caught message :=
        set_polls (delete k)
          (set_queue (patch_at index (with_error message)) st) in
      match resp with
      | PollThrows message => caught message
      | PollNotOk code txt statusText => caught (server_error code txt statusText)
      | PollOk jobData =>
          match job_status jobData with
          | JobCompleted =>
              set_polls (delete k)
                (set_queue
                   (patch_at index
                      (with_done ("http://localhost:8000" +:+
                                  template (result_url jobData)))) st)
          | JobFailed =>
              caught (or_default (job_error jobData) "Job failed on server")
          | JobQueued => set_queue (patch_at index (with_status Queued)) st
          | JobProcessing => set_queue (patch_at index (with_status Processing)) st
          end
      end
  end.

(** ** Scheduler: [runBatchLogic] (lines 249-310) *)

(** [pendingIndices] of lines 255-258. *)
Definition idle_indices (currentQ : list QueueItem) : list nat :=
  snd <$> filter (λ x, x.1 = Idle)
                 (imap (λ index item, (status item, index)) currentQ).

(** [CONCURRENCY_LIMIT] of lines 267-268. *)
Definition read_limit (stored : option string) : Z :=
  match parseInt (or_default stored "2") with
  | Some storedLimit => if decide (0 < storedLimit)%Z then storedLimit else 2%Z
  | None => 2%Z
  end.

(** [nextPendingRefIndex++] alone, and together with [activeCount++]. *)
Definition run_skip (r : BatchRun) : BatchRun :=
  mkRun (pendingIndices r) (CONCURRENCY_LIMIT r) (activeCount r)
        (S (nextPendingRefIndex r)) (completedCount r) (run_mode r)
        (resolved r) (launched r).
Definition run_launch (index : nat) (r : BatchRun) : BatchRun :=
  mkRun (pendingIndices r) (CONCURRENCY_LIMIT r) (activeCount r + 1)
        (S (nextPendingRefIndex r)) (completedCount r) (run_mode r)
        (resolved r) (launched r ++ [index]).
(** [activeCount--; completedCount++] of the [finally] callback. *)
Definition run_finally (r : BatchRun) : BatchRun :=
  mkRun (pendingIndices r) (CONCURRENCY_LIMIT r) (activeCount r - 1)
        (nextPendingRefIndex r) (S (completedCount r)) (run_mode r)
        (resolved r) (launched r).
Definition run_resolve (r : BatchRun) : BatchRun :=
  mkRun (pendingIndices r) (CONCURRENCY_LIMIT r) (activeCount r)
        (nextPendingRefIndex r) (completedCount r) (run_mode r)
        true (launched r).

(** The [while] loop of lines 283-304.  [rest] is what the cursor has not
    passed yet, [drop nextPendingRefIndex pendingIndices]; the loop ends
    when it is empty or no slot is free. *)
Fixpoint launch_loop (rid : nat) (rest : list nat) (r : BatchRun) (st : State)
    : BatchRun * State :=
  match rest with
  | [] => (r, st)
  | realQueueIndex :: rest' =>
      if decide (activeCount r < CONCURRENCY_LIMIT r)%Z then
        match queueRef st !! realQueueIndex with
        | Some (mkItem (IsFile f) _ _ _ _) =>
            launch_loop rid rest' (run_launch realQueueIndex r)
              (processItem rid (run_mode r) realQueueIndex f st)
        | _ => launch_loop rid rest' (run_skip r) st
        end
      else (r, st)
  end.

(** [processNext] of run [rid] (lines 274-305). *)
Definition processNext (rid : nat) (st : State) : State :=
  match runs st !! rid with
  | None => st
  | Some r =>
      if decide (length (pendingIndices r) ≤ nextPendingRefIndex r
                 ∧ activeCount r = 0%Z) then
        set_runs (<[rid := run_resolve r]>) (set_isGlobalLoading false st)
      else
        let '(r', st') :=
          launch_loop rid (drop (nextPendingRefIndex r) (pendingIndices r)) r st in
        set_runs (<[rid := r']>) st'
  end.

(** [runBatchLogic], as closed over [engineMode]. *)
Definition runBatchLogic (engineMode : Mode) (st : State) : State :=
  if isGlobalLoadingRef st then st
  else
    let st := set_isGlobalLoading true st in
    let currentQ := queueRef st in
    let pendingIndices := idle_indices currentQ in
    if decide (length pendingIndices = 0) then set_isGlobalLoading false st
    else
      let st := set_stats (λ _, mkStats 0 (length pendingIndices)) st in
      let CONCURRENCY_LIMIT := read_limit (concurrency_limit st) in
      let rid := length (runs st) in
      let st :=
        set_runs (λ rs, rs ++ [mkRun pendingIndices CONCURRENCY_LIMIT 0 0 0
                                     engineMode false []]) st in
      processNext rid st.

(** The upload call of the [k]-th upload in flight returns [resp]:
    [processItem] runs to its end, then the [finally] callback of lines
    297-303 frees the slot and calls [processNext]. *)
Definition uploadReply (k : nat) (resp : UploadResponse) (st : State) : State :=
  match uploads st !! k with
  | None => st
  | Some u =>
      let st := set_uploads (delete k) st in
      let st := processItem_resume (up_index u) resp st in
      match runs st !! up_run u with
      | None => st
      | Some r =>
          let r := run_finally r in
          let st := set_runs (<[up_run u := r]>) st in
          let st := set_stats (λ prev, mkStats (completedCount r) (total prev)) st in
          processNext (up_run u) st
      end
  end.

(** ** Queue edits *)

(** [addFiles] (lines 112-128). *)
Definition addFiles (newFiles : list File) (st : State) : State :=
  set_shouldAutoRun true
    (set_queue (addFiles_queue (existingNames st) newFiles) st).

(** [removeFile] (lines 343-362), the user confirming.  The deletion
    request it sends for a record with a [jobId] changes nothing here. *)
Definition removeFile (index : nat) (st : State) : State :=
  match queue st !! index with
  | None => st
  | Some _ => set_queue (delete index) st
  end.

(** "Clear All" (lines 387-414), the user confirming: the button is
    rendered only when no run is loading and the queue is not empty; with
    job identifiers to delete, the handler awaits the server before it
    empties the queue. *)
Definition clearClick (st : State) : State :=
  if isGlobalLoading st then st
  else if decide (queue st = []) then st
  else if decide (omap jobId (queue st) = []) then set_queue (λ _, []) st
  else set_pendingClears (S (pendingClears st)) st.

Definition clearDone (st : State) : State :=
  match pendingClears st with
  | 0 => st
  | S n => set_queue (λ _, []) (set_pendingClears n st)
  end.

(** [fetchRecentReports] (lines 34-66): the call leaves when the dialog
    opens, with the [queue] of that render in its closure. *)
Definition openModal (st : State) : State :=
  set_reportFetches (λ fs, fs ++ [bool_decide (queue st = [])]) st.

Definition recent_item (r : Report) : QueueItem :=
  mkItem (NameOnly (student_name r)) Done (Some (id r))
         (Some ("http://localhost:8000" +:+ url r)) None.

(** The [k]-th report request returns; [None] is a failed request. *)
Definition reportsLoaded (k : nat) (resp : option (list Report)) (st : State)
    : State :=
  match reportFetches st !! k with
  | None => st
  | Some wasEmpty =>
      let st := set_reportFetches (delete k) st in
      match resp with
      | None => st
      | Some data =>
          let names : gset string :=
            list_to_set (filter (λ n : string, n ≠ "") (student_name <$> data)) in
          let st := set_existingNames names st in
          if (wasEmpty : bool) then
            let recent := recent_item <$> take 5 data in
            if decide (0 < length recent) then set_queue (λ _, recent) st else st
          else st
      end
  end.

(** ** AutoRunTrigger and rendering *)

(** What React does between two handlers: the effect of lines 77-82 copies
    the state into the refs; the auto-run effect of lines 318-327 runs when
    one of its dependencies changed, first clearing the timer of its last
    run, then arming a new one if [shouldAutoRun && !isGlobalLoading]. *)
Definition commit (st : State) : State :=
  let st :=
    mkState (queue st) (text st) (engineMode st) (isGlobalLoading st) (stats st)
      (existingNames st) (shouldAutoRun st) (queue st) (text st)
      (isGlobalLoading st) (concurrency_limit st) (timer st) (effectDeps st)
      (runs st) (uploads st) (polls st) (reportFetches st) (pendingClears st) in
  let deps := (shouldAutoRun st, isGlobalLoading st) in
  if decide (deps = effectDeps st) then st
  else
    let st := set_timer None st in
    let st :=
      if shouldAutoRun st && negb (isGlobalLoading st)
      then set_timer (Some (engineMode st)) st else st in
    mkState (queue st) (text st) (engineMode st) (isGlobalLoading st) (stats st)
      (existingNames st) (shouldAutoRun st) (queueRef st) (textRef st)
      (isGlobalLoadingRef st) (concurrency_limit st) (timer st) deps
      (runs st) (uploads st) (polls st) (reportFetches st) (pendingClears st).

(** The callback of the debounce timer (lines 321-324), as closed over
    [engineMode]. *)
Definition autoRun_callback (engineMode : Mode) (st : State) : State :=
  set_shouldAutoRun false (runBatchLogic engineMode st).

(** The pending debounce timer fires. *)
Definition timerFire (st : State) : State :=
  match timer st with
  | None => st
  | Some engineMode => autoRun_callback engineMode (set_timer None st)
  end.

(** ** The transition system *)

Inductive Event :=
| AddFiles (newFiles : list File)
| RunBatch                                    (* [runBatch] is called *)
| TimerFire
| UploadReply (k : nat) (resp : UploadResponse)
| PollReply (k : nat) (resp : PollResponse)
| RemoveFile (index : nat)
| ClearClick
| ClearDone
| OpenModal
| ReportsLoaded (k : nat) (resp : option (list Report))
| SetText (t : string)
| SetEngineMode (m : Mode)
| SetConcurrency (v : string).                (* the slider of the settings dialog *)

(** [RunBatch] stands for any call of [runBatch]; that its button is
    disabled while a run is loading is not relied upon. *)
Definition handle (e : Event) (st : State) : State :=
  match e with
  | AddFiles newFiles => addFiles newFiles st
  | RunBatch => runBatchLogic (engineMode st) st
  | TimerFire => timerFire st
  | UploadReply k resp => uploadReply k resp st
  | PollReply k resp => poll k resp st
  | RemoveFile index =>
      (* the button is not rendered for a record that is [processing] *)
      match queue st !! index with
      | Some item =>
          if decide (status item = Processing) then st else removeFile index st
      | None => st
      end
  | ClearClick => clearClick st
  | ClearDone => clearDone st
  | OpenModal => openModal st
  | ReportsLoaded k resp => reportsLoaded k resp st
  | SetText t => set_text t st
  | SetEngineMode m => set_engineMode m st
  | SetConcurrency v => set_concurrency_limit (Some v) st
  end.

Definition step (e : Event) (st : State) : State := commit (handle e st).

Definition run_events (es : list Event) (st : State) : State :=
  foldl (λ st e, step e st) st es.

(** The states the component can be in. *)
Definition reachable (st : State) : Prop :=
  ∃ reference_text limit es, st = run_events es (init reference_text limit).

(** ** Invariants of the scheduler *)

(** A run whose promise is still pending. *)
Definition active_run (st : State) (rid : nat) (r : BatchRun) : Prop :=
  runs st !! rid = Some r ∧ resolved r = false.

(** Between two handlers the refs mirror the state, and the auto-run
    effect has seen the current values of its dependencies. *)
Definition committed (st : State) : Prop :=
  queueRef st = queue st ∧ textRef st = text st ∧
  isGlobalLoadingRef st = isGlobalLoading st ∧
  effectDeps st = (shouldAutoRun st, isGlobalLoading st).

(** Either nothing is loading, no upload is in flight and every run has
    resolved, or exactly one run is pending, it owns every upload in
    flight, and [activeCount] counts them within the limit. *)
Definition scheduler_phase (st : State) : Prop :=
  (isGlobalLoading st = false ∧ uploads st = [] ∧
   Forall (λ r, resolved r = true) (runs st)) ∨
  (isGlobalLoading st = true ∧
   ∃ rid r, active_run st rid r ∧
     (∀ rid' r', runs st !! rid' = Some r' → rid' ≠ rid → resolved r' = true) ∧
     Forall (λ u, up_run u = rid) (uploads st) ∧
     activeCount r = Z.of_nat (length (uploads st)) ∧
     (0 < CONCURRENCY_LIMIT r)%Z ∧
     (activeCount r ≤ CONCURRENCY_LIMIT r)%Z).

(** The debounce timer is pending exactly when a run was requested and
    none is loading. *)
Definition timer_armed (st : State) : Prop :=
  is_Some (timer st) ↔ shouldAutoRun st = true ∧ isGlobalLoading st = false.

Definition SchedInv (st : State) : Prop :=
  committed st ∧ scheduler_phase st ∧ timer_armed st.

(** [st'] differs from [st] in [queue] and [uploads] at most. *)
Definition same_frame (st st' : State) : Prop :=
  st' = set_uploads (λ _, uploads st') (set_queue (λ _, queue st') st).

(** [r'] differs from [r] in its counters and history at most. *)
Definition same_run (r r' : BatchRun) : Prop :=
  pendingIndices r' = pendingIndices r ∧
  CONCURRENCY_LIMIT r' = CONCURRENCY_LIMIT r ∧
  run_mode r' = run_mode r.

(** The second case of [scheduler_phase], for a given run. *)
Definition run_phase (st : State) (rid : nat) : Prop :=
  isGlobalLoading st = true ∧
  ∃ r, active_run st rid r ∧
    (∀ rid' r', runs st !! rid' = Some r' → rid' ≠ rid → resolved r' = true) ∧
    Forall (λ u, up_run u = rid) (uploads st) ∧
    activeCount r = Z.of_nat (length (uploads st)) ∧
    (0 < CONCURRENCY_LIMIT r)%Z ∧
    (activeCount r ≤ CONCURRENCY_LIMIT r)%Z.

(** [st'] keeps what no scheduler or task-runner step writes. *)
Definition sched_frame (st st' : State) : Prop :=
  st' = mkState (queue st') (text st) (engineMode st) (isGlobalLoading st')
          (stats st') (existingNames st) (shouldAutoRun st) (queueRef st)
          (textRef st) (isGlobalLoadingRef st) (concurrency_limit st) (timer st)
          (effectDeps st) (runs st') (uploads st') (polls st')
          (reportFetches st) (pendingClears st).

(** [idle_indices], counting from [k]. *)
Definition idle_from (k : nat) (q : list QueueItem) : list nat :=
  snd <$> filter (λ x, x.1 = Idle) (imap (λ index item, (status item, k + index)) q).

(** Runs are never forgotten, and what they captured when they started
    stays. *)
Definition runs_evolve (rs rs' : list BatchRun) : Prop :=
  ∀ rid r, rs !! rid = Some r → ∃ r', rs' !! rid = Some r' ∧ same_run r r'.

(** The cursor of a run splits its snapshot into what was considered and
    what is still to come; uploads in flight are for considered entries. *)
Definition RunInv (st : State) : Prop :=
  ∀ rid r, runs st !! rid = Some r →
    NoDup (pendingIndices r) ∧
    nextPendingRefIndex r ≤ length (pendingIndices r) ∧
    launched r ⊆ take (nextPendingRefIndex r) (pendingIndices r) ∧
    ∀ u, u ∈ uploads st → up_run u = rid → up_index u ∈ launched r.


(** Test inputs. *)
Definition audio (n : string) : File := mkFile n "audio/mpeg" "".

(** Four files queued with limit 3, before the timer fires. *)
Definition st_queued4 : State :=
  run_events [SetConcurrency "3";
              AddFiles [audio "a"; audio "b"; audio "c"; audio "d"]]
             (init None None).

(** One file, its upload in flight. *)
Definition st_running : State :=
  run_events [AddFiles [audio "a"]; TimerFire] (init None None).

(** A request in [auto] mode carries no text. *)
Definition text_hidden (u : Upload) : Prop :=
  req_mode (up_request u) = Auto → req_text (up_request u) = "".

(** The state with the reference text blanked out. *)
Definition erase_text (st : State) : State :=
  mkState (queue st) "" (engineMode st) (isGlobalLoading st) (stats st)
    (existingNames st) (shouldAutoRun st) (queueRef st) ""
    (isGlobalLoadingRef st) (concurrency_limit st) (timer st) (effectDeps st)
    (runs st) (uploads st) (polls st) (reportFetches st) (pendingClears st).

(** Every closure that can still send a request holds [auto]. *)
Definition auto_only (st : State) : Prop :=
  engineMode st = Auto ∧ (∀ m, timer st = Some m → m = Auto) ∧
  Forall (λ r, run_mode r = Auto) (runs st).

(** The queue after [processItem] marked the records at [indices]. *)
Definition mark_uploading (indices : list nat) (q : list QueueItem)
    : list QueueItem :=
  foldl (λ q index, patch_at index (with_status Uploading) q) q indices.

(** [st] with another [queue] and other [polls]: what the scheduler reads
    stays the same. *)
Definition with_tasks (q : list QueueItem) (ps : list Poll) (st : State) : State :=
  set_polls (λ _, ps) (set_queue (λ _, q) st).

(** The message a failed upload leaves on its record. *)
Definition failure_message (resp : UploadResponse) : option string :=
  match resp with
  | UploadOk _ => None
  | UploadRejected detail => Some (or_default detail "Upload Failed")
  | UploadThrows message => Some message
  end.

(** One file uploaded, its poll loop pending. *)
Definition st_polling : State :=
  run_events [AddFiles [audio "a"]; TimerFire; UploadReply 0 (UploadOk "job-1")]
             (init None None).

(** ** Executions without removals *)

(** [drops e st]: handling [e] in [st] removes or replaces records of the
    queue. *)
Definition drops (e : Event) (st : State) : bool :=
  match e with
  | RemoveFile index =>
      match queue st !! index with
      | Some item => bool_decide (status item ≠ Processing)
      | None => false
      end
  | ClearClick =>
      negb (isGlobalLoading st) && bool_decide (queue st ≠ [])
      && bool_decide (omap jobId (queue st) = [])
  | ClearDone => bool_decide (0 < pendingClears st) && bool_decide (queue st ≠ [])
  | ReportsLoaded k (Some data) =>
      match reportFetches st !! k with
      | Some true => bool_decide (0 < length data) && bool_decide (queue st ≠ [])
      | _ => false
      end
  | _ => false
  end.

(** No event of [es], handled from [st] on, drops a record. *)
Fixpoint keeps_records (es : list Event) (st : State) : Prop :=
  match es with
  | [] => True
  | e :: es' => drops e st = false ∧ keeps_records es' (step e st)
  end.

(** The states reached without dropping a record. *)
Definition reachable_keeping (st : State) : Prop :=
  ∃ reference_text limit es,
    keeps_records es (init reference_text limit) ∧
    st = run_events es (init reference_text limit).

Definition status_at (q : list QueueItem) (i : nat) : option Status :=
  status <$> q !! i.

Definition in_progress (s : Status) : Prop := s = Queued ∨ s = Processing.
Definition terminal (s : Status) : Prop := s = Done ∨ s = Error.

(** What a run knows about the tasks when no record was dropped: it
    launched the entries before its cursor, one slot is taken per upload
    not yet returned, and the entries still to come are idle.  [strict]
    adds that the run is resolved with its cursor at the end and no slot
    taken, or holds a slot. *)
Definition run_tasks (strict : bool) (st : State) (r : BatchRun) : Prop :=
  launched r = take (nextPendingRefIndex r) (pendingIndices r) ∧
  (Z.of_nat (completedCount r) + activeCount r
   = Z.of_nat (nextPendingRefIndex r))%Z ∧
  (∀ i, i ∈ drop (nextPendingRefIndex r) (pendingIndices r) →
        status_at (queue st) i = Some Idle) ∧
  (strict = true →
   if resolved r
   then nextPendingRefIndex r = length (pendingIndices r) ∧ activeCount r = 0%Z
   else (0 < activeCount r)%Z).

(** Who may write to which record: an upload in flight owns a record that
    is uploading, a poll loop one that is queued or processing, and no two
    of them share a record; idle records carry a file. *)
Record Owners (st : State) : Prop := mkOwners {
  ow_uploads_nodup : NoDup (up_index <$> uploads st);
  ow_uploads : ∀ u, u ∈ uploads st →
    status_at (queue st) (up_index u) = Some Uploading;
  ow_polls_nodup : NoDup (poll_index <$> polls st);
  ow_polls : ∀ p, p ∈ polls st →
    ∃ s, status_at (queue st) (poll_index p) = Some s ∧ in_progress s;
  ow_idle_files : ∀ i item, queue st !! i = Some item → status item = Idle →
    ∃ f, file item = IsFile f
}.

(** [busy] names the run whose [finally] callback is under way, if any. *)
Definition TasksInv (busy : option nat) (st : State) : Prop :=
  Owners st ∧
  ∀ rid r, runs st !! rid = Some r →
           run_tasks (bool_decide (busy ≠ Some rid)) st r.

Definition TaskInv (st : State) : Prop := TasksInv None st.

(** Where the record at position [i] is after [e] was handled in [st];
    [None] when it was removed. *)
Definition track (e : Event) (st : State) (i : nat) : option nat :=
  if drops e st then
    match e with
    | RemoveFile index =>
        if decide (i < index) then Some i
        else if decide (i = index) then None
        else Some (i - 1)
    | _ => None
    end
  else Some i.

Fixpoint track_events (es : list Event) (st : State) (i : nat) : option nat :=
  match es with
  | [] => Some i
  | e :: es' =>
      match track e st i with
      | Some j => track_events es' (step e st) j
      | None => None
      end
  end.

(** Two files uploaded, the second one done. *)
Definition st_second_done : State :=
  run_events [AddFiles [audio "a.mp3"; audio "b.mp3"]; TimerFire;
              UploadReply 0 (UploadOk "job-a"); UploadReply 0 (UploadOk "job-b");
              PollReply 1 (PollOk (mkJobData JobCompleted (Some "/r/b") None))]
             (init None None).

(** Two files queued with limit 1, before the timer fires. *)
Definition st_queued2 : State :=
  run_events [SetConcurrency "1"; AddFiles [audio "a.mp3"; audio "b.mp3"]]
             (init None None).

(** ** What the dialog renders *)

(** The footer button "Process n Files" (lines 621-636): its count and its
    [disabled] attribute. *)
Definition idle_count (q : list QueueItem) : nat :=
  length (filter (λ i, status i = Idle) q).

Definition run_disabled (st : State) : bool :=
  isGlobalLoading st || bool_decide (idle_count (queue st) = 0).

(** [handleFileChange] and [handleDrop] (lines 329-341): a missing or empty
    file list is ignored. *)
Definition handleFileChange (files : option (list File)) (st : State) : State :=
  match files with
  | Some (f :: fs) => addFiles (f :: fs) st
  | _ => st
  end.

Definition handleDrop (files : option (list File)) (st : State) : State :=
  handleFileChange files st.

(** The extension of a file name: what [getUniqueFileName] calls [ext]. *)
Definition extension (fileName : string) : string := (split_name fileName).2.

(** The record [addFiles] makes of a file once its name is resolved. *)
Definition new_item (uniqueName : string) (f : File) : QueueItem :=
  mkItem (IsFile (mkFile uniqueName (type_ f) (bits f))) Idle None None None.

(** The handlers that add, remove or replace records; the others write to
    records by position at most. *)
Definition edits_queue (e : Event) : bool :=
  match e with
  | AddFiles _ | RemoveFile _ | ClearClick | ClearDone | ReportsLoaded _ _ => true
  | _ => false
  end.





(** Limit 1, two files, the second removed while the first is uploading,
    then the first upload returns. *)
Definition st_tail_removed : State :=
  run_events [TimerFire; RemoveFile 1; UploadReply 0 (UploadOk "job-a")] st_queued2.

(** [name.replace(/\.[^/.]+$/, "")], the name a record is listed under
    (line 570) and the one the removal dialog shows (line 347).  The pattern
    is a dot followed, up to the end of the name, by one or more characters
    other than a dot and a slash, so it can match at the last dot only. *)
Definition display_name (fileName : string) : string :=
  match lastIndexOf "." fileName with
  | Some i =>
      let rest := substring_from (S i) fileName in
      if bool_decide (rest ≠ "" ∧ lastIndexOf "/" rest = None)
      then substring_to i fileName
      else fileName
  | None => fileName
  end.



(** * Properties *)

(** ** Strings *)

Lemma sapp_cons a s t : String a s +:+ t = String a (s +:+ t).
Proof. reflexivity. Qed.

Lemma sapp_nil_l t : "" +:+ t = t.
Proof. reflexivity. Qed.

Lemma sapp_nil_r s : s +:+ "" = s.
Proof. induction s as [|a s IH]; [done|]. by rewrite sapp_cons, IH. Qed.

Lemma sapp_assoc (s t u : string) : (s +:+ t) +:+ u = s +:+ t +:+ u.
Proof. induction s as [|a s IH]; [done|]. by rewrite !sapp_cons, IH. Qed.

Lemma sapp_length (s t : string) :
  String.length (s +:+ t) = String.length s + String.length t.
Proof. induction s as [|a s IH]; [done|]. rewrite sapp_cons. simpl. by rewrite IH. Qed.

Lemma sapp_inj_r (s1 s2 t : string) : s1 +:+ t = s2 +:+ t → s1 = s2.
Proof.
  revert s2. induction s1 as [|a s1 IH]; intros [|b s2] H; [done| | |].
  - apply (f_equal String.length) in H.
    rewrite sapp_nil_l, sapp_cons in H. simpl in H. rewrite sapp_length in H. lia.
  - apply (f_equal String.length) in H.
    rewrite sapp_nil_l, sapp_cons in H. simpl in H. rewrite sapp_length in H. lia.
  - rewrite !sapp_cons in H. injection H as -> H. f_equal. by apply IH.
Qed.

Lemma lastIndexOf_app c (a b : string) :
  lastIndexOf c (a +:+ b) =
    match lastIndexOf c b with
    | Some i => Some (String.length a + i)
    | None => lastIndexOf c a
    end.
Proof.
  induction a as [|x a IH].
  - rewrite sapp_nil_l. by destruct (lastIndexOf c b).
  - rewrite sapp_cons. simpl. rewrite IH. by destruct (lastIndexOf c b).
Qed.

Lemma substring_to_app (a b : string) : substring_to (String.length a) (a +:+ b) = a.
Proof.
  unfold substring_to. induction a as [|x a IH].
  - rewrite sapp_nil_l. by destruct b.
  - rewrite sapp_cons. simpl. by rewrite IH.
Qed.

Lemma substring_full (s : string) : String.substring 0 (String.length s) s = s.
Proof. induction s as [|x s IH]; [done|]. simpl. by rewrite IH. Qed.

Lemma substring_from_app (a b : string) :
  substring_from (String.length a) (a +:+ b) = b.
Proof.
  unfold substring_from. rewrite sapp_length.
  replace (String.length a + String.length b - String.length a)
    with (String.length b) by lia.
  induction a as [|x a IH].
  - rewrite sapp_nil_l. apply substring_full.
  - rewrite sapp_cons. simpl. apply IH.
Qed.

(** A found dot splits the string around its last dot. *)
Lemma lastIndexOf_Some c s i :
  lastIndexOf c s = Some i →
  ∃ a b, s = a +:+ String c b ∧ String.length a = i ∧ lastIndexOf c b = None.
Proof.
  revert i. induction s as [|x s IH]; intros i; simpl; [done|].
  destruct (lastIndexOf c s) as [j|] eqn:Hj.
  - intros [= <-]. destruct (IH j eq_refl) as (a & b & -> & <- & Hb).
    exists (String x a), b. by rewrite sapp_cons.
  - case_decide as Hx; [|done]. intros [= <-]. subst x.
    exists "", s. by rewrite sapp_nil_l.
Qed.

(** ** Decimal counters *)

Lemma string_of_uint_no_dot (d : uint) :
  lastIndexOf "." (NilEmpty.string_of_uint d) = None.
Proof. induction d; simpl; [done|by rewrite IHd..]. Qed.

Lemma iter_pad_no_dot n (s : string) :
  lastIndexOf "." s = None → lastIndexOf "." (Nat.iter n (String "0") s) = None.
Proof. intros Hs. induction n as [|n IH]; [done|]. simpl. by rewrite IH. Qed.

Lemma suffix_no_dot k : lastIndexOf "." (padStart 2 "0" (String_of_nat k)) = None.
Proof. apply iter_pad_no_dot, string_of_uint_no_dot. Qed.

Lemma counter_of_pad n s k :
  counter_of s = Some k → counter_of (Nat.iter n (String "0") s) = Some k.
Proof.
  intros Hs. induction n as [|n IH]; [done|].
  simpl. unfold counter_of in *. simpl.
  destruct (NilEmpty.uint_of_string (Nat.iter n (String "0") s)) as [d|]; [|done].
  simpl in *. done.
Qed.

Lemma counter_of_suffix k : counter_of (padStart 2 "0" (String_of_nat k)) = Some k.
Proof.
  apply counter_of_pad. unfold counter_of, String_of_nat.
  rewrite NilEmpty.usu. simpl. f_equal. apply DecimalNat.Unsigned.of_to.
Qed.

Lemma suffix_inj j k :
  padStart 2 "0" (String_of_nat j) = padStart 2 "0" (String_of_nat k) → j = k.
Proof.
  intros H. pose proof (counter_of_suffix j) as Hj.
  rewrite H, counter_of_suffix in Hj. congruence.
Qed.

Lemma suffix_length k : 1 ≤ k → k < 100 →
  String.length (padStart 2 "0" (String_of_nat k)) = 2.
Proof.
  intros H1 H2.
  assert (Forall (λ k, String.length (padStart 2 "0" (String_of_nat k)) = 2) (seq 1 99)) as HF.
  { vm_compute. repeat constructor. }
  rewrite Forall_forall in HF. apply HF. apply elem_of_seq. lia.
Qed.

(** ** NameResolver *)

Lemma candidate_base_inj name j k :
  candidate_base name j = candidate_base name k → j = k.
Proof.
  unfold candidate_base. intros H.
  apply (inj (String.app name)) in H. apply (inj (String.app "_")) in H.
  by apply suffix_inj.
Qed.

Lemma candidate_name_inj name ext j k :
  candidate_name name ext j = candidate_name name ext k → j = k.
Proof. intros H. by apply sapp_inj_r, candidate_base_inj in H. Qed.

Section resolver.
Context (existingNames : gset string) (q : list QueueItem).

Lemma isDuplicate_true n b :
  isDuplicate existingNames q n b = true ↔ n ∈ queue_names q ∨ b ∈ existingNames.
Proof.
  unfold isDuplicate, queue_names. rewrite orb_true_iff, bool_decide_eq_true.
  rewrite existsb_exists, list_elem_of_fmap.
  split; (intros [H|H]; [left|by right]).
  - destruct H as (x & Hx & Hn). apply bool_decide_eq_true in Hn.
    exists x. split; [done|]. by apply list_elem_of_In.
  - destruct H as (x & -> & Hx). exists x. split; [by apply list_elem_of_In|].
    by apply bool_decide_eq_true.
Qed.

Lemma isDuplicate_false n b :
  isDuplicate existingNames q n b = false ↔ ¬ n ∈ queue_names q ∧ ¬ b ∈ existingNames.
Proof.
  rewrite <-not_true_iff_false, isDuplicate_true. tauto.
Qed.

Context (name ext : string).
Abbreviation dup k := (isDuplicate existingNames q (candidate_name name ext k) (candidate_base name k)).
Abbreviation loop := (unique_loop existingNames).

(** What the loop returns: the current candidate when it is free, else the
    first free numbered candidate from [counter] on. *)
Lemma unique_loop_Some fuel nn nb c r :
  loop fuel q name ext nn nb c = Some r →
  (isDuplicate existingNames q nn nb = false ∧ r = nn) ∨
  (isDuplicate existingNames q nn nb = true ∧
   ∃ k, c ≤ k ∧ r = candidate_name name ext k ∧ dup k = false ∧
        ∀ j, c ≤ j < k → dup j = true).
Proof.
  revert nn nb c. induction fuel as [|fuel IH]; intros nn nb c; simpl; [done|].
  destruct (isDuplicate existingNames q nn nb) eqn:Hd.
  - intros Hr. right. split; [done|].
    apply IH in Hr as [[Hf ->]|(Ht & k & Hk & -> & Hf & Hall)].
    + exists c. split_and!; [done|done|done|lia].
    + exists k. split_and!; [lia|done|done|].
      intros j Hj. destruct (decide (j = c)) as [->|]; [done|]. apply Hall. lia.
  - intros [= <-]. by left.
Qed.

Lemma unique_loop_S fuel nn nb c :
  loop (S fuel) q name ext nn nb c =
    if isDuplicate existingNames q nn nb
    then loop fuel q name ext (candidate_name name ext c) (candidate_base name c) (S c)
    else Some nn.
Proof. reflexivity. Qed.

(** The loop finds a free candidate that lies within its fuel. *)
Lemma unique_loop_finds fuel c :
  (∃ k, c ≤ k < c + fuel ∧ dup k = false) →
  is_Some (loop fuel q name ext (candidate_name name ext c) (candidate_base name c) (S c)).
Proof.
  revert c. induction fuel as [|fuel IH]; intros c (k & Hk & Hf); [lia|].
  simpl. destruct (dup c) eqn:Hd; [|by eexists].
  apply IH. exists k. split; [|done].
  destruct (decide (k = c)) as [->|]; [congruence|lia].
Qed.

(** Pigeonhole: the numbered candidates are pairwise distinct, so at most
    [length q + size existingNames] of them collide. *)
Lemma free_candidate_exists :
  ∃ k, 1 ≤ k < 2 + length q + size existingNames ∧ dup k = false.
Proof.
  set (n := length q + size existingNames).
  set (L := seq 1 (S n)).
  destruct (decide (Exists (λ k, dup k = false) L)) as [HE|HE].
  { apply Exists_exists in HE as (k & Hk%elem_of_seq & Hf). exists k. split; [lia|done]. }
  exfalso. apply not_Exists_Forall in HE; [|intros k; apply _].
  set (inQ := λ k, candidate_name name ext k ∈ queue_names q).
  assert (length (filter inQ L) ≤ length q) as H1.
  { rewrite <-(length_fmap (λ item, file_name (file item)) q).
    rewrite <-(length_fmap (candidate_name name ext) (filter inQ L)).
    apply submseteq_length, NoDup_submseteq.
    - apply NoDup_fmap_2_strong.
      + intros j k _ _. apply candidate_name_inj.
      + apply NoDup_filter, NoDup_seq.
    - intros x (k & -> & Hk)%list_elem_of_fmap.
      by apply list_elem_of_filter in Hk as [? _]. }
  assert (length (filter (λ k, ¬ inQ k) L) ≤ size existingNames) as H2.
  { unfold size, set_size. simpl.
    rewrite <-(length_fmap (candidate_base name) (filter _ L)).
    apply submseteq_length, NoDup_submseteq.
    - apply NoDup_fmap_2_strong.
      + intros j k _ _. apply candidate_base_inj.
      + apply NoDup_filter, NoDup_seq.
    - intros x (k & -> & Hk)%list_elem_of_fmap.
      apply list_elem_of_filter in Hk as [Hn Hk].
      rewrite Forall_forall in HE. specialize (HE k Hk). simpl in HE.
      apply not_false_is_true, isDuplicate_true in HE as [?|?]; [done|].
      by apply elem_of_elements. }
  pose proof (filter_app_complement inQ L) as HP.
  apply Permutation_length in HP. rewrite length_app in HP.
  unfold L in HP at 3. rewrite length_seq in HP. unfold n in *. lia.
Qed.

Lemma unique_loop_fuel_mono fuel fuel' nn nb c r :
  fuel ≤ fuel' →
  loop fuel q name ext nn nb c = Some r → loop fuel' q name ext nn nb c = Some r.
Proof.
  revert fuel' nn nb c. induction fuel as [|fuel IH]; intros fuel' nn nb c Hle; [done|].
  destruct fuel' as [|fuel']; [lia|]. simpl.
  destruct (isDuplicate existingNames q nn nb); [|done]. apply IH. lia.
Qed.
End resolver.

Lemma split_name_spec (fileName : string) :
  fileName = (split_name fileName).1 +:+ (split_name fileName).2 ∧
  (((split_name fileName).2 = "" ∧ lastIndexOf "." (split_name fileName).1 = None) ∨
   ∃ e, (split_name fileName).2 = String "." e ∧ lastIndexOf "." e = None).
Proof.
  unfold split_name. destruct (lastIndexOf "." fileName) as [i|] eqn:Hi; simpl.
  - apply lastIndexOf_Some in Hi as (a & b & -> & <- & Hb).
    rewrite substring_to_app, substring_from_app. split; [done|]. right. eauto.
  - rewrite sapp_nil_r. split; [done|]. left. done.
Qed.

(** The stem of a numbered candidate is its base name. *)
Lemma stem_candidate (fileName : string) k :
  stem (candidate_name (split_name fileName).1 (split_name fileName).2 k) =
  candidate_base (split_name fileName).1 k.
Proof.
  destruct (split_name_spec fileName) as [_ Hext].
  set (n := (split_name fileName).1) in *. set (e := (split_name fileName).2) in *.
  unfold stem, split_name, candidate_name.
  assert (lastIndexOf "." ("_" +:+ padStart 2 "0" (String_of_nat k)) = None) as Hs.
  { rewrite sapp_cons, sapp_nil_l. simpl. by rewrite suffix_no_dot. }
  destruct Hext as [[-> Hn]|(e' & -> & He')].
  - rewrite sapp_nil_r. unfold candidate_base.
    rewrite lastIndexOf_app, Hs, Hn. done.
  - rewrite lastIndexOf_app. simpl. rewrite He'. simpl.
    by rewrite Nat.add_0_r, substring_to_app.
Qed.

Section resolver_results.
Context (existingNames : gset string).
Abbreviation resolve := (getUniqueFileName existingNames).

(** The resolver always returns: [enough_fuel] suffices, and more fuel
    does not change the result. *)
Lemma getUniqueFileName_fuel_enough fuel fileName q :
  enough_fuel existingNames q ≤ fuel →
  getUniqueFileName_fuel existingNames fuel fileName q = Some (resolve fileName q).
Proof.
  intros Hfuel. unfold getUniqueFileName.
  assert (is_Some (getUniqueFileName_fuel existingNames (enough_fuel existingNames q) fileName q))
    as [r Hr].
  { unfold getUniqueFileName_fuel, enough_fuel. destruct (split_name fileName) as [n e].
    change (2 + length q + size existingNames)
      with (S (S (length q + size existingNames))).
    rewrite unique_loop_S.
    destruct (isDuplicate existingNames q fileName n); [|by eexists].
    apply unique_loop_finds.
    destruct (free_candidate_exists existingNames q n e) as (k & Hk & Hf).
    exists k. split; [lia|done]. }
  rewrite Hr. simpl. revert Hr. unfold getUniqueFileName_fuel.
  destruct (split_name fileName) as [n e]. by apply unique_loop_fuel_mono.
Qed.

Lemma getUniqueFileName_cases fileName q :
  let n := (split_name fileName).1 in
  let e := (split_name fileName).2 in
  (isDuplicate existingNames q fileName n = false ∧ resolve fileName q = fileName) ∨
  (isDuplicate existingNames q fileName n = true ∧
   ∃ k, 1 ≤ k ∧ resolve fileName q = candidate_name n e k ∧
        isDuplicate existingNames q (candidate_name n e k) (candidate_base n k) = false ∧
        ∀ j, 1 ≤ j < k →
          isDuplicate existingNames q (candidate_name n e j) (candidate_base n j) = true).
Proof.
  intros n e.
  pose proof (getUniqueFileName_fuel_enough _ fileName q (Nat.le_refl _)) as H.
  unfold getUniqueFileName_fuel in H. fold n e in H.
  rewrite (surjective_pairing (split_name fileName)) in H. fold n e in H.
  by apply unique_loop_Some in H.
Qed.
End resolver_results.

Lemma split_name_stem fileName : (split_name fileName).1 = stem fileName.
Proof. reflexivity. Qed.

(** C2. For every proposed name, queue and history set, the resolved name is
    not the name of a queue entry and its stem is not a history name; a
    candidate collides exactly when its full name is in the queue or its
    stem is in the history. *)
Theorem resolver_avoids_collisions (existingNames : gset string)
    (fileName : string) (currentQueue : list QueueItem) :
  let r := getUniqueFileName existingNames fileName currentQueue in
  (r ∉ queue_names currentQueue) ∧
  (stem r ∉ existingNames) ∧
  (∀ nameToCheck baseNameToCheck,
     isDuplicate existingNames currentQueue nameToCheck baseNameToCheck = true ↔
     nameToCheck ∈ queue_names currentQueue ∨ baseNameToCheck ∈ existingNames).
Proof.
  intros r. split_and!; [| |apply isDuplicate_true].
  - destruct (getUniqueFileName_cases existingNames fileName currentQueue)
      as [[Hf Hr]|(_ & k & _ & Hr & Hf & _)]; fold r in Hr; rewrite Hr;
      by apply isDuplicate_false in Hf as [? ?].
  - destruct (getUniqueFileName_cases existingNames fileName currentQueue)
      as [[Hf Hr]|(_ & k & _ & Hr & Hf & _)]; fold r in Hr; rewrite Hr.
    + by apply isDuplicate_false in Hf as [? ?].
    + rewrite stem_candidate. by apply isDuplicate_false in Hf as [? ?].
Qed.

Lemma resolve_first_free existingNames fileName q :
  let n := stem fileName in
  let e := (split_name fileName).2 in
  isDuplicate existingNames q fileName n = true →
  isDuplicate existingNames q (candidate_name n e 1) (candidate_base n 1) = false →
  getUniqueFileName existingNames fileName q = candidate_name n e 1.
Proof.
  intros n e Hd Hf.
  destruct (getUniqueFileName_cases existingNames fileName q)
    as [[Hf' _]|(_ & k & Hk & Hr & _ & Hall)]; [unfold n, stem in Hd; congruence|].
  destruct (decide (k = 1)) as [->|]; [done|].
  rewrite split_name_stem in Hall. fold n e in Hall. rewrite Hall in Hf; [done|lia].
Qed.

(** C3. A name that does not collide is returned unchanged; a colliding one
    becomes stem, underscore, counter padded with zeros to two digits, and
    the extension, for the first counter from 1 on that is free.  Two files
    named essay.mp3 become essay.mp3 and essay_01.mp3, and with the stem
    essay in the history essay.mp3 becomes essay_01.mp3. *)
Theorem resolver_naming (existingNames : gset string) (fileName : string)
    (currentQueue : list QueueItem) :
  let n := stem fileName in
  let e := (split_name fileName).2 in
  let r := getUniqueFileName existingNames fileName currentQueue in
  let collides k :=
    candidate_name n e k ∈ queue_names currentQueue ∨
    candidate_base n k ∈ existingNames in
  (fileName ∉ queue_names currentQueue → n ∉ existingNames → r = fileName) ∧
  (fileName ∈ queue_names currentQueue ∨ n ∈ existingNames →
   ∃ k, 1 ≤ k ∧
     r = n +:+ "_" +:+ padStart 2 "0" (String_of_nat k) +:+ e ∧
     ¬ collides k ∧ (∀ j, 1 ≤ j < k → collides j) ∧
     (k < 100 → String.length (padStart 2 "0" (String_of_nat k)) = 2)) ∧
  padStart 2 "0" (String_of_nat 1) = "01" ∧
  (∀ f1 f2, name f1 = "essay.mp3" → name f2 = "essay.mp3" →
     queue_names (addFiles_queue ∅ [f1; f2] []) = ["essay.mp3"; "essay_01.mp3"]) ∧
  (fileName = "essay.mp3" → "essay" ∈ existingNames →
   "essay_01" ∉ existingNames → "essay_01.mp3" ∉ queue_names currentQueue →
   r = "essay_01.mp3").
Proof.
  intros n e r collides. split_and!.
  - intros Hq Hh.
    destruct (getUniqueFileName_cases existingNames fileName currentQueue)
      as [[_ Hr]|[Hd _]]; [done|].
    apply isDuplicate_true in Hd as [?|?]; done.
  - intros Hc.
    destruct (getUniqueFileName_cases existingNames fileName currentQueue)
      as [[Hf _]|(_ & k & Hk & Hr & Hf & Hall)].
    { apply isDuplicate_false in Hf as [? ?]. by destruct Hc. }
    exists k. split_and!; [done| | | |].
    + unfold r. rewrite Hr. unfold candidate_name, candidate_base. by rewrite !sapp_assoc.
    + apply isDuplicate_false in Hf. unfold collides. tauto.
    + intros j Hj. by apply isDuplicate_true, Hall.
    + by apply suffix_length.
  - reflexivity.
  - intros [n1 t1 b1] [n2 t2 b2]; simpl; intros -> ->. vm_compute. reflexivity.
  - intros -> Hh Hh1 Hq. subst r. rewrite resolve_first_free.
    + reflexivity.
    + apply isDuplicate_true. by right.
    + apply isDuplicate_false. done.
Qed.

Lemma resolver_naming_witness :
  getUniqueFileName {["essay"]} "essay.mp3" [] = "essay_01.mp3".
Proof.
  apply (resolver_naming {["essay"]} "essay.mp3" []); [done|set_solver|set_solver|set_solver].
Defined.

(** ** Scheduler invariants *)

Lemma same_frame_refl st : same_frame st st.
Proof. by destruct st. Qed.

Lemma same_frame_trans st1 st2 st3 :
  same_frame st1 st2 → same_frame st2 st3 → same_frame st1 st3.
Proof. unfold same_frame. intros -> ->. reflexivity. Qed.

Lemma processItem_frame rid m i f st : same_frame st (processItem rid m i f st).
Proof. by destruct st. Qed.

(** What one pass of the launch loop does. *)
Lemma launch_loop_spec rid rest r st :
  ∃ added,
    let r' := (launch_loop rid rest r st).1 in
    let st' := (launch_loop rid rest r st).2 in
    same_frame st st' ∧
    uploads st' = uploads st ++ added ∧
    Forall (λ u, up_run u = rid) added ∧
    launched r' = launched r ++ (up_index <$> added) ∧
    activeCount r' = (activeCount r + Z.of_nat (length added))%Z ∧
    ((activeCount r ≤ CONCURRENCY_LIMIT r)%Z →
     (activeCount r' ≤ CONCURRENCY_LIMIT r)%Z) ∧
    same_run r r' ∧
    completedCount r' = completedCount r ∧
    resolved r' = resolved r.
Proof.
  revert r st. induction rest as [|i rest IH]; intros r st; simpl.
  { exists []. simpl. split_and!; rewrite ?app_nil_r; try done; [apply same_frame_refl|lia]. }
  case_decide as Hlt.
  2:{ exists []. simpl. split_and!; rewrite ?app_nil_r; try done; [apply same_frame_refl|lia]. }
  destruct (queueRef st !! i) as [[[f|n] s j u e]|] eqn:Hi.
  - destruct (IH (run_launch i r) (processItem rid (run_mode r) i f st))
      as (added & Hfr & Hup & Hrid & Hl & Hac & Hle & Hsr & Hcc & Hres).
    exists (mkUpload rid i (uploadRequest (run_mode r) (textRef st) f) :: added).
    simpl in *. split_and!.
    + eapply same_frame_trans; [apply processItem_frame|done].
    + rewrite Hup. by rewrite <-app_assoc.
    + by constructor.
    + rewrite Hl. by rewrite <-app_assoc.
    + rewrite Hac. lia.
    + intros _. apply Hle. lia.
    + done.
    + done.
    + done.
  - destruct (IH (run_skip r) st) as (added & H). exists added. exact H.
  - destruct (IH (run_skip r) st) as (added & H). exists added. exact H.
Qed.

Lemma same_frame_proj st st' :
  same_frame st st' →
  text st' = text st ∧ engineMode st' = engineMode st ∧
  isGlobalLoading st' = isGlobalLoading st ∧ stats st' = stats st ∧
  existingNames st' = existingNames st ∧ shouldAutoRun st' = shouldAutoRun st ∧
  queueRef st' = queueRef st ∧ textRef st' = textRef st ∧
  isGlobalLoadingRef st' = isGlobalLoadingRef st ∧
  concurrency_limit st' = concurrency_limit st ∧ timer st' = timer st ∧
  effectDeps st' = effectDeps st ∧ runs st' = runs st ∧ polls st' = polls st ∧
  reportFetches st' = reportFetches st ∧ pendingClears st' = pendingClears st.
Proof. intros ->. simpl. done. Qed.

Lemma same_frame_sched st st' : same_frame st st' → sched_frame st st'.
Proof. unfold same_frame, sched_frame. intros ->. reflexivity. Qed.

Lemma sched_frame_refl st : sched_frame st st.
Proof. by destruct st. Qed.

Lemma sched_frame_trans st1 st2 st3 :
  sched_frame st1 st2 → sched_frame st2 st3 → sched_frame st1 st3.
Proof. unfold sched_frame. intros H ->. rewrite H. reflexivity. Qed.

Lemma sched_frame_proj st st' :
  sched_frame st st' →
  text st' = text st ∧ engineMode st' = engineMode st ∧
  existingNames st' = existingNames st ∧ shouldAutoRun st' = shouldAutoRun st ∧
  queueRef st' = queueRef st ∧ textRef st' = textRef st ∧
  isGlobalLoadingRef st' = isGlobalLoadingRef st ∧
  concurrency_limit st' = concurrency_limit st ∧ timer st' = timer st ∧
  effectDeps st' = effectDeps st ∧
  reportFetches st' = reportFetches st ∧ pendingClears st' = pendingClears st.
Proof. intros ->. simpl. done. Qed.

Lemma processNext_frame rid st : sched_frame st (processNext rid st).
Proof.
  unfold processNext. destruct (runs st !! rid) as [r|]; [|apply sched_frame_refl].
  case_decide.
  - by destruct st.
  - destruct (launch_loop_spec rid (drop (nextPendingRefIndex r) (pendingIndices r)) r st)
      as (added & Hfr & _).
    destruct (launch_loop _ _ _ _) as [r' st']. simpl in Hfr.
    eapply sched_frame_trans; [apply same_frame_sched, Hfr|]. by destruct st'.
Qed.

Lemma runBatchLogic_frame m st : sched_frame st (runBatchLogic m st).
Proof.
  unfold runBatchLogic. destruct (isGlobalLoadingRef st); [apply sched_frame_refl|].
  case_decide; [by destruct st|].
  eapply sched_frame_trans; [|apply processNext_frame]. by destruct st.
Qed.

Lemma processItem_resume_frame i resp st : sched_frame st (processItem_resume i resp st).
Proof. destruct resp; by destruct st. Qed.

Lemma uploadReply_frame k resp st : sched_frame st (uploadReply k resp st).
Proof.
  unfold uploadReply. destruct (uploads st !! k) as [u|]; [|apply sched_frame_refl].
  eapply sched_frame_trans; [|eapply sched_frame_trans; [apply processItem_resume_frame|]].
  { instantiate (1 := set_uploads (delete k) st). by destruct st. }
  destruct (runs _ !! up_run u) as [r|]; [|apply sched_frame_refl].
  eapply sched_frame_trans; [|apply processNext_frame].
  by destruct (processItem_resume _ _ _).
Qed.

Lemma poll_frame k resp st : sched_frame st (poll k resp st).
Proof.
  unfold poll. destruct (polls st !! k) as [p|]; [|apply sched_frame_refl].
  destruct resp as [[[] ? ?]| |]; by destruct st.
Qed.

(** Scheduler state that the other handlers leave alone. *)
Lemma poll_sched k resp st :
  runs (poll k resp st) = runs st ∧ uploads (poll k resp st) = uploads st ∧
  isGlobalLoading (poll k resp st) = isGlobalLoading st.
Proof.
  unfold poll. destruct (polls st !! k) as [p|]; [|done].
  by destruct resp as [[[] ? ?]| |].
Qed.

Lemma read_limit_pos stored : (0 < read_limit stored)%Z.
Proof.
  unfold read_limit. destruct (parseInt _) as [z|]; [|lia]. case_decide; lia.
Qed.

Lemma scheduler_phase_ext st st' :
  runs st' = runs st → uploads st' = uploads st →
  isGlobalLoading st' = isGlobalLoading st →
  scheduler_phase st → scheduler_phase st'.
Proof.
  unfold scheduler_phase, active_run. intros -> -> ->. done.
Qed.

Lemma run_phase_ext st st' rid :
  runs st' = runs st → uploads st' = uploads st →
  isGlobalLoading st' = isGlobalLoading st →
  run_phase st rid → run_phase st' rid.
Proof. unfold run_phase, active_run. intros -> -> ->. done. Qed.

Lemma processNext_phase rid st :
  run_phase st rid → scheduler_phase (processNext rid st).
Proof.
  intros (Hload & r & [Hr Hres] & Hothers & Hups & Hac & Hpos & Hle).
  unfold processNext. rewrite Hr. case_decide as Hend.
  - left. simpl. split_and!; [done| |].
    + destruct Hend as [_ H0]. rewrite H0 in Hac.
      destruct (uploads st); [done|simpl in Hac; lia].
    + apply Forall_lookup. intros i x Hx.
      destruct (decide (i = rid)) as [->|Hne].
      * rewrite list_lookup_insert_eq in Hx by (by eapply lookup_lt_Some).
        by injection Hx as <-.
      * rewrite list_lookup_insert_ne in Hx by done. by eapply Hothers.
  - destruct (launch_loop_spec rid (drop (nextPendingRefIndex r) (pendingIndices r)) r st)
      as (added & Hfr & Hup & Hrid & _ & Hac' & Hle' & (_ & Hlim & _) & _ & Hres').
    destruct (launch_loop _ _ _ _) as [r' st']. simpl in *.
    apply same_frame_proj in Hfr as (_&_&Hl&_&_&_&_&_&_&_&_&_&Hruns&_).
    right. simpl. split; [congruence|]. exists rid, r'. unfold active_run. simpl.
    rewrite Hruns. split_and!.
    + apply list_lookup_insert_eq. by eapply lookup_lt_Some.
    + congruence.
    + intros rid' x Hx Hne. rewrite list_lookup_insert_ne in Hx by done.
      by eapply Hothers.
    + rewrite Hup. by apply Forall_app.
    + rewrite Hac', Hup, length_app. lia.
    + congruence.
    + rewrite Hlim. by apply Hle'.
Qed.

Lemma runBatchLogic_phase m st :
  isGlobalLoadingRef st = isGlobalLoading st →
  scheduler_phase st → scheduler_phase (runBatchLogic m st).
Proof.
  intros Href Hph. unfold runBatchLogic.
  destruct (isGlobalLoadingRef st) eqn:Hg; [done|].
  destruct Hph as [(_ & Hup & Hall)|[Hl _]]; [|congruence].
  case_decide as Hidle.
  { left. done. }
  apply processNext_phase. split; [done|]. simpl.
  eexists. unfold active_run. simpl. split_and!.
  - apply list_lookup_middle. done.
  - done.
  - intros rid' r' Hr' Hne.
    apply lookup_app_Some in Hr' as [Hr'|[Hge Hr']].
    + rewrite Forall_lookup in Hall. by eapply Hall.
    + apply list_lookup_singleton_Some in Hr' as [? _]. lia.
  - rewrite Hup. constructor.
  - by rewrite Hup.
  - apply read_limit_pos.
  - pose proof (read_limit_pos (concurrency_limit st)). simpl. lia.
Qed.

Lemma uploadReply_phase k resp st :
  scheduler_phase st → scheduler_phase (uploadReply k resp st).
Proof.
  intros Hph. unfold uploadReply.
  destruct (uploads st !! k) as [u|] eqn:Hu; [|done].
  destruct Hph as [(_ & Hup & _)|(Hl & rid & r & [Hr Hres] & Hothers & Hups & Hac & Hpos & Hle)].
  { by rewrite Hup in Hu. }
  assert (up_run u = rid) as Hrid.
  { rewrite Forall_lookup in Hups. by eapply Hups. }
  assert (runs (processItem_resume (up_index u) resp (set_uploads (delete k) st)) = runs st
          ∧ uploads (processItem_resume (up_index u) resp (set_uploads (delete k) st))
            = delete k (uploads st)
          ∧ isGlobalLoading (processItem_resume (up_index u) resp (set_uploads (delete k) st))
            = isGlobalLoading st) as (Hruns & Hupl & Hload).
  { by destruct resp. }
  set (st1 := processItem_resume _ _ _) in *.
  rewrite Hruns, Hrid, Hr.
  apply processNext_phase. split; [simpl; congruence|]. simpl.
  exists (run_finally r). unfold active_run. simpl. rewrite Hruns, Hupl. split_and!.
  - apply list_lookup_insert_eq. by eapply lookup_lt_Some.
  - done.
  - intros rid' r' Hr' Hne. rewrite list_lookup_insert_ne in Hr' by done.
    by eapply Hothers.
  - by apply Forall_delete.
  - rewrite length_delete by eauto. apply lookup_lt_Some in Hu. lia.
  - done.
  - lia.
Qed.

Lemma handle_phase e st :
  isGlobalLoadingRef st = isGlobalLoading st →
  scheduler_phase st → scheduler_phase (handle e st).
Proof.
  intros Href Hph. destruct e; simpl.
  - by eapply scheduler_phase_ext.
  - by apply runBatchLogic_phase.
  - unfold timerFire. destruct (timer st) as [m|]; [|done].
    unfold autoRun_callback.
    eapply scheduler_phase_ext; [..|apply (runBatchLogic_phase m (set_timer None st))];
      done.
  - by apply uploadReply_phase.
  - destruct (poll_sched k resp st) as (? & ? & ?). by eapply scheduler_phase_ext.
  - destruct (queue st !! index) as [item|] eqn:Hi; [|done].
    case_decide; [done|]. unfold removeFile. rewrite Hi.
    by eapply scheduler_phase_ext.
  - unfold clearClick. destruct (isGlobalLoading st) eqn:Hl; [done|].
    repeat case_decide; try done; eapply scheduler_phase_ext; try exact Hph; done.
  - unfold clearDone. destruct (pendingClears st); [done|].
    by eapply scheduler_phase_ext.
  - by eapply scheduler_phase_ext.
  - unfold reportsLoaded. destruct (reportFetches st !! k) as [[]|]; [| |done];
      destruct resp as [data|]; repeat case_decide;
      eapply scheduler_phase_ext; try exact Hph; done.
  - by eapply scheduler_phase_ext.
  - by eapply scheduler_phase_ext.
  - by eapply scheduler_phase_ext.
Qed.

(** No handler touches the effect's bookkeeping, and only the timer
    callback touches the timer. *)
Lemma handle_effect e st :
  effectDeps (handle e st) = effectDeps st ∧
  (timer (handle e st) = timer st ∨
   (is_Some (timer st) ∧ timer (handle e st) = None ∧
    shouldAutoRun (handle e st) = false)).
Proof.
  destruct e; simpl; try (split; [done|by left]).
  - destruct (sched_frame_proj _ _ (runBatchLogic_frame (engineMode st) st))
      as (_&_&_&_&_&_&_&_&Ht&Hd&_). split; [done|by left].
  - unfold timerFire. destruct (timer st) as [m|] eqn:Hm; [|split; [done|by left]].
    unfold autoRun_callback. simpl.
    destruct (sched_frame_proj _ _ (runBatchLogic_frame m (set_timer None st)))
      as (_&_&_&_&_&_&_&_&Ht&Hd&_). split; [done|]. right. split; [by eexists|done].
  - destruct (sched_frame_proj _ _ (uploadReply_frame k resp st))
      as (_&_&_&_&_&_&_&_&Ht&Hd&_). split; [done|by left].
  - destruct (sched_frame_proj _ _ (poll_frame k resp st))
      as (_&_&_&_&_&_&_&_&Ht&Hd&_). split; [done|by left].
  - destruct (queue st !! index) as [item|] eqn:Hi; [|split; [done|by left]].
    case_decide; [split; [done|by left]|]. unfold removeFile. rewrite Hi. simpl.
    split; [done|by left].
  - unfold clearClick. destruct (isGlobalLoading st); [split; [done|by left]|].
    repeat case_decide; (split; [done|by left]).
  - unfold clearDone. destruct (pendingClears st); (split; [done|by left]).
  - unfold reportsLoaded. destruct (reportFetches st !! k) as [[]|];
      [| |split; [done|by left]];
      destruct resp as [data|]; repeat case_decide; (split; [done|by left]).
Qed.

Lemma commit_sched st :
  queue (commit st) = queue st ∧ runs (commit st) = runs st ∧
  uploads (commit st) = uploads st ∧ polls (commit st) = polls st ∧
  isGlobalLoading (commit st) = isGlobalLoading st ∧
  shouldAutoRun (commit st) = shouldAutoRun st ∧
  text (commit st) = text st ∧ engineMode (commit st) = engineMode st ∧
  stats (commit st) = stats st ∧ existingNames (commit st) = existingNames st ∧
  concurrency_limit (commit st) = concurrency_limit st ∧
  reportFetches (commit st) = reportFetches st ∧
  pendingClears (commit st) = pendingClears st.
Proof.
  unfold commit. case_decide; simpl; [done|].
  destruct (shouldAutoRun st && negb (isGlobalLoading st)); done.
Qed.

Lemma commit_committed st : committed (commit st).
Proof.
  unfold commit, committed. case_decide as Hd; simpl in *.
  - done.
  - destruct (shouldAutoRun st && negb (isGlobalLoading st)); done.
Qed.

Lemma commit_timer st :
  timer (commit st) =
    if decide ((shouldAutoRun st, isGlobalLoading st) = effectDeps st) then timer st
    else if shouldAutoRun st && negb (isGlobalLoading st)
         then Some (engineMode st) else None.
Proof.
  unfold commit. simpl. case_decide; simpl; [done|].
  destruct (shouldAutoRun st && negb (isGlobalLoading st)); done.
Qed.

(** A committed state is not changed by rendering again. *)
Lemma commit_id st : committed st → commit st = st.
Proof.
  intros (Hq & Ht & Hl & Hd). unfold commit. simpl.
  rewrite decide_True by done. destruct st; simpl in *. congruence.
Qed.

Lemma step_SchedInv e st : SchedInv st → SchedInv (step e st).
Proof.
  intros ((Hq & Ht & Hl & Hd) & Hph & Htm). unfold step.
  destruct (commit_sched (handle e st)) as (_&Hr&Hu&_&Hg&Hs&_).
  split_and!.
  - apply commit_committed.
  - eapply scheduler_phase_ext; [done..|]. by apply handle_phase.
  - unfold timer_armed in *. rewrite commit_timer, Hs, Hg.
    destruct (handle_effect e st) as [Hdeps Htimer]. rewrite Hdeps, Hd.
    case_decide as Hsame.
    + injection Hsame as Hs' Hg'. destruct Htimer as [->|(Hsome & _ & Hf)].
      * by rewrite Hs', Hg'.
      * apply Htm in Hsome as [? _]. congruence.
    + destruct (shouldAutoRun (handle e st)), (isGlobalLoading (handle e st));
        simpl; split; try done; intros [? ?]; done || by eexists.
Qed.


Lemma init_SchedInv reference_text limit : SchedInv (init reference_text limit).
Proof.
  split_and!; [done| |].
  - left. done.
  - split; [by intros [? ?]|by intros [? _]].
Qed.

Lemma run_events_app es1 es2 st :
  run_events (es1 ++ es2) st = run_events es2 (run_events es1 st).
Proof. apply foldl_app. Qed.

Lemma run_events_snoc es e st :
  run_events (es ++ [e]) st = step e (run_events es st).
Proof. by rewrite run_events_app. Qed.

Lemma run_events_SchedInv es st : SchedInv st → SchedInv (run_events es st).
Proof.
  revert st. induction es as [|e es IH]; intros st Hst; [done|].
  simpl. by apply IH, step_SchedInv.
Qed.

Lemma reachable_SchedInv st : reachable st → SchedInv st.
Proof. intros (t & l & es & ->). apply run_events_SchedInv, init_SchedInv. Qed.

Lemma reachable_from_init es reference_text limit :
  reachable (run_events es (init reference_text limit)).
Proof. by exists reference_text, limit, es. Qed.

Lemma reachable_step e st : reachable st → reachable (step e st).
Proof.
  intros (t & l & es & ->). exists t, l, (es ++ [e]). by rewrite run_events_snoc.
Qed.

Lemma reachable_run_events es st : reachable st → reachable (run_events es st).
Proof.
  revert st. induction es as [|e es IH]; intros st Hst; [done|].
  simpl. by apply IH, reachable_step.
Qed.

(** *** The snapshot *)

Lemma idle_from_cons k x q :
  idle_from k (x :: q) =
    (if decide (status x = Idle) then [k + 0] else []) ++ idle_from (S k) q.
Proof.
  unfold idle_from. rewrite imap_cons, filter_cons. simpl.
  assert (imap ((λ index item, (status item, k + index)) ∘ S) q
          = imap (λ index item, (status item, S k + index)) q) as ->.
  { apply imap_ext. intros i y _. simpl. f_equal. lia. }
  by case_decide.
Qed.

Lemma elem_of_idle_from k q j :
  j ∈ idle_from k q ↔
  ∃ item, k ≤ j ∧ q !! (j - k) = Some item ∧ status item = Idle.
Proof.
  revert k. induction q as [|x q IH]; intros k.
  { unfold idle_from. simpl. split; [by intros ?%elem_of_nil|by intros (? & _ & ? & _)]. }
  rewrite idle_from_cons, elem_of_app, IH. split.
  - intros [Hj|(item & Hk & Hj & Hs)].
    + case_decide as Hx; [|by apply elem_of_nil in Hj].
      apply list_elem_of_singleton in Hj as ->. exists x.
      replace (k + 0 - k) with 0 by lia. split_and!; [lia|done|done].
    + exists item. split_and!; [lia| |done].
      replace (j - k) with (S (j - S k)) by lia. done.
  - intros (item & Hk & Hj & Hs). destruct (decide (j = k)) as [->|Hne].
    + left. replace (k - k) with 0 in Hj by lia. injection Hj as ->.
      rewrite decide_True by done. apply list_elem_of_singleton. lia.
    + right. exists item. split_and!; [lia| |done].
      replace (j - k) with (S (j - S k)) in Hj by lia. done.
Qed.

Lemma NoDup_idle_from k q : NoDup (idle_from k q).
Proof.
  revert k. induction q as [|x q IH]; intros k; [constructor|].
  rewrite idle_from_cons. case_decide; simpl; [|apply IH].
  constructor; [|apply IH].
  intros (item & Hk & _)%elem_of_idle_from. lia.
Qed.

Lemma idle_indices_from q : idle_indices q = idle_from 0 q.
Proof. reflexivity. Qed.

Lemma elem_of_idle_indices q j :
  j ∈ idle_indices q ↔ ∃ item, q !! j = Some item ∧ status item = Idle.
Proof.
  rewrite idle_indices_from, elem_of_idle_from. rewrite Nat.sub_0_r.
  split; [intros (item & _ & ? & ?)|intros (item & ? & ?)]; exists item; auto with lia.
Qed.

Lemma NoDup_idle_indices q : NoDup (idle_indices q).
Proof. rewrite idle_indices_from. apply NoDup_idle_from. Qed.

(** *** Runs persist *)

Lemma same_run_refl r : same_run r r.
Proof. done. Qed.

Lemma same_run_trans r1 r2 r3 : same_run r1 r2 → same_run r2 r3 → same_run r1 r3.
Proof. unfold same_run. intros (-> & -> & ->) (-> & -> & ->). done. Qed.

Lemma runs_evolve_refl rs : runs_evolve rs rs.
Proof. intros rid r Hr. eauto using same_run_refl. Qed.

Lemma runs_evolve_trans rs1 rs2 rs3 :
  runs_evolve rs1 rs2 → runs_evolve rs2 rs3 → runs_evolve rs1 rs3.
Proof.
  intros H12 H23 rid r Hr. destruct (H12 _ _ Hr) as (r2 & Hr2 & Hs2).
  destruct (H23 _ _ Hr2) as (r3 & Hr3 & Hs3). eauto using same_run_trans.
Qed.

Lemma runs_evolve_insert rs rid r r' :
  rs !! rid = Some r → same_run r r' → runs_evolve rs (<[rid := r']> rs).
Proof.
  intros Hr Hs rid0 r0 Hr0. destruct (decide (rid0 = rid)) as [->|Hne].
  - exists r'. rewrite list_lookup_insert_eq by (by eapply lookup_lt_Some).
    split; [done|]. congruence.
  - exists r0. rewrite list_lookup_insert_ne by done. done.
Qed.

Lemma runs_evolve_app rs rs' : runs_evolve rs (rs ++ rs').
Proof.
  intros rid r Hr. exists r. split; [|done]. by apply lookup_app_l_Some.
Qed.

Lemma processNext_evolve rid st : runs_evolve (runs st) (runs (processNext rid st)).
Proof.
  unfold processNext. destruct (runs st !! rid) as [r|] eqn:Hr; [|apply runs_evolve_refl].
  case_decide.
  - simpl. by eapply runs_evolve_insert.
  - destruct (launch_loop_spec rid (drop (nextPendingRefIndex r) (pendingIndices r)) r st)
      as (added & Hfr & _ & _ & _ & _ & _ & Hsr & _).
    destruct (launch_loop _ _ _ _) as [r' st']. simpl in *.
    apply same_frame_proj in Hfr as (_&_&_&_&_&_&_&_&_&_&_&_&Hruns&_).
    rewrite Hruns. by eapply runs_evolve_insert.
Qed.

Lemma runBatchLogic_evolve m st : runs_evolve (runs st) (runs (runBatchLogic m st)).
Proof.
  unfold runBatchLogic. destruct (isGlobalLoadingRef st); [apply runs_evolve_refl|].
  case_decide; [apply runs_evolve_refl|].
  eapply runs_evolve_trans; [|apply processNext_evolve]. simpl. apply runs_evolve_app.
Qed.

Lemma uploadReply_evolve k resp st : runs_evolve (runs st) (runs (uploadReply k resp st)).
Proof.
  unfold uploadReply. destruct (uploads st !! k) as [u|]; [|apply runs_evolve_refl].
  assert (runs (processItem_resume (up_index u) resp (set_uploads (delete k) st)) = runs st)
    as Hruns by (by destruct resp).
  rewrite Hruns. destruct (runs st !! up_run u) as [r|] eqn:Hr.
  - eapply runs_evolve_trans; [|apply processNext_evolve]. simpl. rewrite Hruns.
    by eapply runs_evolve_insert.
  - rewrite Hruns. apply runs_evolve_refl.
Qed.

Lemma handle_evolve e st : runs_evolve (runs st) (runs (handle e st)).
Proof.
  destruct e; simpl; try apply runs_evolve_refl.
  - apply runBatchLogic_evolve.
  - unfold timerFire. destruct (timer st) as [m|]; [|apply runs_evolve_refl].
    apply (runBatchLogic_evolve m (set_timer None st)).
  - apply uploadReply_evolve.
  - destruct (poll_sched k resp st) as (-> & _). apply runs_evolve_refl.
  - destruct (queue st !! index) as [item|] eqn:Hi; [|apply runs_evolve_refl].
    case_decide; [apply runs_evolve_refl|]. unfold removeFile. rewrite Hi.
    apply runs_evolve_refl.
  - unfold clearClick. destruct (isGlobalLoading st); [apply runs_evolve_refl|].
    repeat case_decide; apply runs_evolve_refl.
  - unfold clearDone. destruct (pendingClears st); apply runs_evolve_refl.
  - unfold reportsLoaded. destruct (reportFetches st !! k) as [[]|];
      [| |apply runs_evolve_refl];
      destruct resp as [data|]; repeat case_decide; apply runs_evolve_refl.
Qed.

Lemma step_evolve e st : runs_evolve (runs st) (runs (step e st)).
Proof.
  unfold step. destruct (commit_sched (handle e st)) as (_ & -> & _).
  apply handle_evolve.
Qed.



(** *** The cursor *)

Lemma launch_loop_cursor rid rest r st :
  ∃ c,
    let r' := (launch_loop rid rest r st).1 in
    nextPendingRefIndex r' = nextPendingRefIndex r + c ∧ c ≤ length rest ∧
    ∀ i, i ∈ launched r' → i ∈ launched r ∨ i ∈ take c rest.
Proof.
  revert r st. induction rest as [|i rest IH]; intros r st; simpl.
  { exists 0. simpl. split_and!; [lia|lia|by left]. }
  case_decide as Hlt.
  2:{ exists 0. simpl. split_and!; [lia|lia|by left]. }
  destruct (queueRef st !! i) as [[[f|n] s j u e]|] eqn:Hi.
  - destruct (IH (run_launch i r) (processItem rid (run_mode r) i f st))
      as (c & Hn & Hc & Hl).
    exists (S c). simpl in *. split_and!; [lia|lia|].
    intros i' Hi'. apply Hl in Hi' as [Hi'|Hi'].
    + apply elem_of_app in Hi' as [?|Hx]; [by left|].
      apply list_elem_of_singleton in Hx as ->. right. by left.
    + right. by right.
  - destruct (IH (run_skip r) st) as (c & Hn & Hc & Hl).
    exists (S c). simpl in *. split_and!; [lia|lia|].
    intros i' Hi'. apply Hl in Hi' as [?|?]; [by left|right; by right].
  - destruct (IH (run_skip r) st) as (c & Hn & Hc & Hl).
    exists (S c). simpl in *. split_and!; [lia|lia|].
    intros i' Hi'. apply Hl in Hi' as [?|?]; [by left|right; by right].
Qed.

Lemma elem_of_take_drop {A} (l : list A) n c x :
  x ∈ take c (drop n l) → x ∈ take (n + c) l.
Proof.
  intros (k & Hk & Hlt)%elem_of_take. rewrite lookup_drop in Hk.
  apply elem_of_take. exists (n + k). split; [done|lia].
Qed.

Lemma elem_of_take_le {A} (l : list A) n m x : n ≤ m → x ∈ take n l → x ∈ take m l.
Proof.
  intros Hle (k & Hk & Hlt)%elem_of_take. apply elem_of_take. exists k. split; [done|lia].
Qed.

Lemma processNext_RunInv rid st : RunInv st → RunInv (processNext rid st).
Proof.
  intros Hinv. unfold processNext.
  destruct (runs st !! rid) as [r|] eqn:Hr; [|done].
  destruct (Hinv _ _ Hr) as (Hnd & Hnext & Hsub & Hups).
  case_decide as Hend.
  - intros rid' r'. simpl. intros Hr'.
    destruct (decide (rid' = rid)) as [->|Hne].
    + rewrite list_lookup_insert_eq in Hr' by (by eapply lookup_lt_Some).
      injection Hr' as <-. simpl. done.
    + rewrite list_lookup_insert_ne in Hr' by done. by apply Hinv.
  - destruct (launch_loop_spec rid (drop (nextPendingRefIndex r) (pendingIndices r)) r st)
      as (added & Hfr & Hup & Hrid & Hla & _ & _ & (Hp & _ & _) & _ & _).
    destruct (launch_loop_cursor rid (drop (nextPendingRefIndex r) (pendingIndices r)) r st)
      as (c & Hn & Hc & Hl).
    destruct (launch_loop _ _ _ _) as [r' st']. simpl in *.
    apply same_frame_proj in Hfr as (_&_&_&_&_&_&_&_&_&_&_&_&Hruns&_).
    rewrite length_drop in Hc.
    intros rid' r0. simpl. rewrite Hruns. intros Hr0.
    destruct (decide (rid' = rid)) as [->|Hne].
    + rewrite list_lookup_insert_eq in Hr0 by (by eapply lookup_lt_Some).
      injection Hr0 as <-. rewrite Hp, Hn. split_and!; [done|lia| |].
      * intros i Hi. apply Hl in Hi as [Hi|Hi].
        -- eapply elem_of_take_le; [|by apply Hsub]. lia.
        -- by apply elem_of_take_drop.
      * intros u Hu Hur. rewrite Hup in Hu. rewrite Hla.
        apply elem_of_app in Hu as [Hu|Hu]; apply elem_of_app.
        -- left. by apply Hups.
        -- right. by apply list_elem_of_fmap_2.
    + rewrite list_lookup_insert_ne in Hr0 by done.
      destruct (Hinv _ _ Hr0) as (? & ? & ? & Hups0). split_and!; [done..|].
      intros u Hu Hur. rewrite Hup in Hu. apply elem_of_app in Hu as [Hu|Hu].
      * by apply Hups0.
      * rewrite Forall_forall in Hrid. apply Hrid in Hu. congruence.
Qed.

Lemma RunInv_ext st st' :
  runs st' = runs st → uploads st' = uploads st → RunInv st → RunInv st'.
Proof. unfold RunInv. intros -> ->. done. Qed.

Lemma runBatchLogic_RunInv m st :
  isGlobalLoadingRef st = isGlobalLoading st → scheduler_phase st →
  RunInv st → RunInv (runBatchLogic m st).
Proof.
  intros Href Hph Hinv. unfold runBatchLogic.
  destruct (isGlobalLoadingRef st) eqn:Hg; [done|].
  destruct Hph as [(_ & Hup & _)|[Hl _]]; [|congruence].
  case_decide; [by eapply RunInv_ext|].
  apply processNext_RunInv. intros rid r. simpl. rewrite Hup. intros Hr.
  apply lookup_app_Some in Hr as [Hr|[_ Hr]].
  - destruct (Hinv _ _ Hr) as (? & ? & ? & _). split_and!; [done..|].
    by intros u ?%elem_of_nil.
  - apply list_lookup_singleton_Some in Hr as [_ <-]. simpl. split_and!.
    + apply NoDup_idle_indices.
    + lia.
    + done.
    + by intros u ?%elem_of_nil.
Qed.

Lemma uploadReply_RunInv k resp st : RunInv st → RunInv (uploadReply k resp st).
Proof.
  intros Hinv. unfold uploadReply. destruct (uploads st !! k) as [u|] eqn:Hu; [|done].
  assert (runs (processItem_resume (up_index u) resp (set_uploads (delete k) st)) = runs st
          ∧ uploads (processItem_resume (up_index u) resp (set_uploads (delete k) st))
            = delete k (uploads st)) as (Hruns & Hupl).
  { by destruct resp. }
  assert (∀ x, x ∈ delete k (uploads st) → x ∈ uploads st) as Hdel.
  { intros x. apply list_elem_of_delete_inv. }
  rewrite Hruns. destruct (runs st !! up_run u) as [r|] eqn:Hr.
  - apply processNext_RunInv. intros rid r0. simpl. rewrite Hruns, Hupl. intros Hr0.
    destruct (decide (rid = up_run u)) as [->|Hne].
    + rewrite list_lookup_insert_eq in Hr0 by (by eapply lookup_lt_Some).
      injection Hr0 as <-. simpl.
      destruct (Hinv _ _ Hr) as (? & ? & ? & Hups). split_and!; [done..|].
      intros x Hx. apply Hups. by apply Hdel.
    + rewrite list_lookup_insert_ne in Hr0 by done.
      destruct (Hinv _ _ Hr0) as (? & ? & ? & Hups). split_and!; [done..|].
      intros x Hx. apply Hups. by apply Hdel.
  - intros rid r0. rewrite Hruns, Hupl. intros Hr0.
    destruct (Hinv _ _ Hr0) as (? & ? & ? & Hups). split_and!; [done..|].
    intros x Hx. apply Hups. by apply Hdel.
Qed.

Lemma handle_RunInv e st :
  isGlobalLoadingRef st = isGlobalLoading st → scheduler_phase st →
  RunInv st → RunInv (handle e st).
Proof.
  intros Href Hph Hinv. destruct e; simpl; try (by eapply RunInv_ext).
  - by apply runBatchLogic_RunInv.
  - unfold timerFire. destruct (timer st) as [m|]; [|done]. unfold autoRun_callback.
    eapply RunInv_ext; [..|apply (runBatchLogic_RunInv m (set_timer None st))]; done.
  - by apply uploadReply_RunInv.
  - destruct (poll_sched k resp st) as (? & ? & _). by eapply RunInv_ext.
  - destruct (queue st !! index) as [item|] eqn:Hi; [|done].
    case_decide; [done|]. unfold removeFile. rewrite Hi. by eapply RunInv_ext.
  - unfold clearClick. destruct (isGlobalLoading st); [done|].
    repeat case_decide; try done; by eapply RunInv_ext.
  - unfold clearDone. destruct (pendingClears st); [done|]. by eapply RunInv_ext.
  - unfold reportsLoaded. destruct (reportFetches st !! k) as [[]|]; [| |done];
      destruct resp as [data|]; repeat case_decide; by eapply RunInv_ext.
Qed.

Lemma step_RunInv e st : SchedInv st → RunInv st → RunInv (step e st).
Proof.
  intros ((_ & _ & Hl & _) & Hph & _) Hinv. unfold step.
  destruct (commit_sched (handle e st)) as (_ & Hr & Hu & _).
  eapply RunInv_ext; [done..|]. by apply handle_RunInv.
Qed.

Lemma reachable_RunInv st : reachable st → RunInv st.
Proof.
  intros (t & l & es & ->).
  induction es as [|e es IH] using rev_ind.
  - intros rid r Hr. done.
  - rewrite run_events_snoc. apply step_RunInv; [|done].
    apply run_events_SchedInv, init_SchedInv.
Qed.

(** ** Scheduler: concurrency bound and re-entrancy *)

Lemma read_limit_configured v N :
  parseInt v = Some N → (1 ≤ N)%Z → read_limit (Some v) = N.
Proof.
  intros Hv HN. unfold read_limit, or_default.
  case_decide as He; [by subst v|]. rewrite Hv. case_decide; [done|lia].
Qed.








(** ** AutoRunTrigger *)




(** In the model the timer is never pending while a run is loading: the
    effect arms it only then, and clears it when a run starts. *)
Remark timer_pending_while_idle st :
  reachable st → is_Some (timer st) → isGlobalLoadingRef st = false.
Proof.
  intros ((_ & _ & -> & _) & _ & Htm)%reachable_SchedInv Hsome.
  by apply Htm in Hsome as [_ ?].
Qed.



(** ** The reference text and the upload request *)

(** Handlers other than the three that drive the scheduler leave it alone. *)
Lemma handle_quiet e st :
  match e with
  | RunBatch | TimerFire | UploadReply _ _ => True
  | _ => runs (handle e st) = runs st ∧ uploads (handle e st) = uploads st ∧
         isGlobalLoading (handle e st) = isGlobalLoading st
  end.
Proof.
  destruct e; simpl; try done.
  - apply poll_sched.
  - destruct (queue st !! index) as [item|] eqn:Hi; [|done].
    case_decide; [done|]. unfold removeFile. by rewrite Hi.
  - unfold clearClick. destruct (isGlobalLoading st) eqn:Hl; [done|].
    repeat case_decide; done.
  - unfold clearDone. by destruct (pendingClears st).
  - unfold reportsLoaded. destruct (reportFetches st !! k) as [[]|]; [| |done];
      destruct resp as [data|]; repeat case_decide; done.
Qed.

Lemma launch_loop_requests rid rest r st u :
  u ∈ uploads (launch_loop rid rest r st).2 →
  u ∈ uploads st ∨
  ∃ i f, u = mkUpload rid i (uploadRequest (run_mode r) (textRef st) f).
Proof.
  revert r st. induction rest as [|i rest IH]; intros r st; simpl; [by left|].
  case_decide; [|by left].
  destruct (queueRef st !! i) as [[[f|n] s j x e]|] eqn:Hi;
    [|apply (IH (run_skip r) st)..].
  intros [Hu|Hu]%IH; [|by right].
  simpl in Hu. apply elem_of_app in Hu as [?|Hu]; [by left|].
  apply list_elem_of_singleton in Hu. right. eauto.
Qed.

Lemma uploadRequest_hidden m t f i rid : text_hidden (mkUpload rid i (uploadRequest m t f)).
Proof. unfold text_hidden. simpl. by intros ->. Qed.

Lemma processNext_hidden rid st :
  Forall text_hidden (uploads st) → Forall text_hidden (uploads (processNext rid st)).
Proof.
  intros Hall. unfold processNext. destruct (runs st !! rid) as [r|]; [|done].
  case_decide; [done|].
  pose proof (launch_loop_requests rid (drop (nextPendingRefIndex r) (pendingIndices r)) r st)
    as Hreq.
  destruct (launch_loop _ _ _ _) as [r' st']. simpl in *.
  apply Forall_forall. intros u [Hu|(i & f & ->)]%Hreq.
  - rewrite Forall_forall in Hall. by apply Hall.
  - apply uploadRequest_hidden.
Qed.

Lemma handle_hidden e st :
  Forall text_hidden (uploads st) → Forall text_hidden (uploads (handle e st)).
Proof.
  intros Hall. pose proof (handle_quiet e st) as Hq.
  destruct e; try (destruct Hq as (_ & -> & _); done); simpl.
  - unfold runBatchLogic. destruct (isGlobalLoadingRef st); [done|].
    case_decide; [done|]. by apply processNext_hidden.
  - unfold timerFire. destruct (timer st) as [m|]; [|done].
    unfold autoRun_callback, runBatchLogic. simpl.
    destruct (isGlobalLoadingRef st); [done|].
    case_decide; [done|]. by apply processNext_hidden.
  - unfold uploadReply. destruct (uploads st !! k) as [u|]; [|done].
    assert (Forall text_hidden
              (uploads (processItem_resume (up_index u) resp (set_uploads (delete k) st))))
      as Hall'.
    { assert (uploads (processItem_resume (up_index u) resp (set_uploads (delete k) st))
              = delete k (uploads st)) as -> by by destruct resp.
      by apply Forall_delete. }
    destruct (runs _ !! up_run u); [|done]. by apply processNext_hidden.
Qed.

Lemma reachable_hidden st : reachable st → Forall text_hidden (uploads st).
Proof.
  intros (t & l & es & ->). induction es as [|e es IH] using rev_ind; [constructor|].
  rewrite run_events_snoc. unfold step.
  destruct (commit_sched (handle e (run_events es (init t l)))) as (_ & _ & -> & _).
  by apply handle_hidden.
Qed.

(** *** Erasing the text *)

Lemma launch_loop_erase rid rest r st :
  run_mode r = Auto →
  launch_loop rid rest r (erase_text st) =
    ((launch_loop rid rest r st).1, erase_text (launch_loop rid rest r st).2).
Proof.
  revert r st. induction rest as [|i rest IH]; intros r st Hm; simpl; [done|].
  case_decide; [|done].
  destruct (queueRef st !! i) as [[[f|n] s j x e]|] eqn:Hi;
    [|by apply (IH (run_skip r) st)..].
  rewrite <-IH by done. f_equal. rewrite Hm. reflexivity.
Qed.

Lemma processNext_erase rid st :
  Forall (λ r, run_mode r = Auto) (runs st) →
  processNext rid (erase_text st) = erase_text (processNext rid st).
Proof.
  intros Hall. unfold processNext. simpl.
  destruct (runs st !! rid) as [r|] eqn:Hr; [|done].
  case_decide; [done|].
  rewrite launch_loop_erase by (rewrite Forall_lookup in Hall; by eapply Hall).
  by destruct (launch_loop _ _ _ _).
Qed.

Lemma runBatchLogic_erase st :
  Forall (λ r, run_mode r = Auto) (runs st) →
  runBatchLogic Auto (erase_text st) = erase_text (runBatchLogic Auto st).
Proof.
  intros Hall. unfold runBatchLogic. simpl. destruct (isGlobalLoadingRef st); [done|].
  case_decide; [done|].
  rewrite <-processNext_erase; [done|]. simpl. apply Forall_app. split; [done|].
  by constructor.
Qed.

Lemma uploadReply_erase k resp st :
  Forall (λ r, run_mode r = Auto) (runs st) →
  uploadReply k resp (erase_text st) = erase_text (uploadReply k resp st).
Proof.
  intros Hall. unfold uploadReply. simpl. destruct (uploads st !! k) as [u|]; [|done].
  assert (processItem_resume (up_index u) resp (set_uploads (delete k) (erase_text st))
          = erase_text (processItem_resume (up_index u) resp (set_uploads (delete k) st)))
    as -> by by destruct resp.
  set (st1 := processItem_resume _ _ _).
  assert (runs st1 = runs st) as Hruns by (unfold st1; by destruct resp).
  simpl. destruct (runs st1 !! up_run u) as [r|] eqn:Hr; [|done].
  rewrite <-processNext_erase; [done|]. simpl. rewrite Hruns.
  rewrite Hruns in Hr. rewrite Forall_lookup in Hall.
  apply Forall_insert; [by apply Forall_lookup|]. simpl. by eapply Hall.
Qed.

(** Under [auto_only], handling an event and erasing the text commute up to
    the text itself. *)
Lemma handle_erase e st :
  auto_only st →
  erase_text (handle e (erase_text st)) = erase_text (handle e st).
Proof.
  intros (Hm & Ht & Hall). destruct e; simpl; try done.
  - rewrite Hm. by rewrite runBatchLogic_erase.
  - unfold timerFire. simpl. destruct (timer st) as [m|] eqn:Hti; [|done].
    rewrite (Ht m) by done. unfold autoRun_callback.
    change (set_timer None (erase_text st)) with (erase_text (set_timer None st)).
    by rewrite runBatchLogic_erase.
  - by rewrite uploadReply_erase.
  - unfold poll. simpl. destruct (polls st !! k) as [p|]; [|done].
    by destruct resp as [[[] ? ?]| |].
  - destruct (queue st !! index) as [item|] eqn:Hi; [|done].
    case_decide; [done|]. unfold removeFile. simpl. by rewrite Hi.
  - unfold clearClick. simpl. destruct (isGlobalLoading st); [done|].
    repeat case_decide; done.
  - unfold clearDone. simpl. by destruct (pendingClears st).
  - unfold reportsLoaded. simpl. destruct (reportFetches st !! k) as [[]|]; [| |done];
      destruct resp as [data|]; repeat case_decide; done.
Qed.

Lemma commit_erase st : erase_text (commit (erase_text st)) = erase_text (commit st).
Proof.
  unfold commit. simpl. case_decide; [done|].
  by destruct (shouldAutoRun st && negb (isGlobalLoading st)).
Qed.

Lemma commit_erase_eq st1 st2 :
  erase_text st1 = erase_text st2 → erase_text (commit st1) = erase_text (commit st2).
Proof. intros H. by rewrite <-commit_erase, H, commit_erase. Qed.

Lemma step_erase e st1 st2 :
  auto_only st1 → auto_only st2 →
  erase_text st1 = erase_text st2 →
  erase_text (step e st1) = erase_text (step e st2).
Proof.
  intros H1 H2 Heq. unfold step. apply commit_erase_eq.
  by rewrite <-handle_erase, Heq, handle_erase.
Qed.

Lemma processNext_modes rid st :
  Forall (λ r, run_mode r = Auto) (runs st) →
  Forall (λ r, run_mode r = Auto) (runs (processNext rid st)).
Proof.
  intros Hall. unfold processNext. destruct (runs st !! rid) as [r|] eqn:Hr; [|done].
  assert (run_mode r = Auto) as Hm by (rewrite Forall_lookup in Hall; by eapply Hall).
  case_decide.
  - simpl. by apply Forall_insert.
  - destruct (launch_loop_spec rid (drop (nextPendingRefIndex r) (pendingIndices r)) r st)
      as (added & Hfr & _ & _ & _ & _ & _ & (_ & _ & Hmode) & _).
    destruct (launch_loop _ _ _ _) as [r' st']. simpl in *.
    apply same_frame_proj in Hfr as (_&_&_&_&_&_&_&_&_&_&_&_&Hruns&_).
    rewrite Hruns. apply Forall_insert; [done|]. congruence.
Qed.

Lemma runBatchLogic_modes st :
  Forall (λ r, run_mode r = Auto) (runs st) →
  Forall (λ r, run_mode r = Auto) (runs (runBatchLogic Auto st)).
Proof.
  intros Hall. unfold runBatchLogic. destruct (isGlobalLoadingRef st); [done|].
  case_decide; [done|]. apply processNext_modes. simpl.
  apply Forall_app. split; [done|]. by constructor.
Qed.

Lemma handle_auto_only e st :
  e ≠ SetEngineMode Pro → auto_only st →
  engineMode (handle e st) = Auto ∧
  Forall (λ r, run_mode r = Auto) (runs (handle e st)).
Proof.
  intros He (Hm & Ht & Hall). pose proof (handle_quiet e st) as Hq.
  destruct e; cbn [handle] in *; try (destruct Hq as (-> & _); split; done).
  - rewrite Hm. destruct (sched_frame_proj _ _ (runBatchLogic_frame Auto st)) as (_ & -> & _).
    split; [done|]. by apply runBatchLogic_modes.
  - unfold timerFire. destruct (timer st) as [m|] eqn:Hti; [|done].
    rewrite (Ht m) by done. unfold autoRun_callback. simpl.
    destruct (sched_frame_proj _ _ (runBatchLogic_frame Auto (set_timer None st)))
      as (_ & -> & _).
    split; [done|]. by apply (runBatchLogic_modes (set_timer None st)).
  - destruct (sched_frame_proj _ _ (uploadReply_frame k resp st)) as (_ & -> & _).
    split; [done|]. unfold uploadReply. destruct (uploads st !! k) as [u|]; [|done].
    set (st1 := processItem_resume _ _ _).
    assert (runs st1 = runs st) as Hruns by (unfold st1; by destruct resp).
    destruct (runs st1 !! up_run u) as [r|] eqn:Hr; [|by rewrite Hruns].
    apply processNext_modes. simpl. rewrite Hruns.
    rewrite Hruns in Hr. apply Forall_insert; [done|]. simpl.
    rewrite Forall_lookup in Hall. by eapply Hall.
  - destruct (sched_frame_proj _ _ (poll_frame k resp st)) as (_ & -> & _).
    destruct Hq as (-> & _). done.
  - destruct (queue st !! index) as [item|] eqn:Hi; [|done].
    case_decide; [done|]. unfold removeFile. rewrite Hi. done.
  - unfold clearClick. destruct (isGlobalLoading st); [done|].
    repeat case_decide; done.
  - unfold clearDone. by destruct (pendingClears st).
  - unfold reportsLoaded. destruct (reportFetches st !! k) as [[]|]; [| |done];
      destruct resp as [data|]; repeat case_decide; done.
  - destruct m; done.
Qed.

Lemma step_auto_only e st :
  e ≠ SetEngineMode Pro → auto_only st → auto_only (step e st).
Proof.
  intros He Hauto. destruct (handle_auto_only e st He Hauto) as [Hm Hall].
  destruct Hauto as (_ & Ht & _). unfold step.
  destruct (commit_sched (handle e st)) as (_&Hr&_&_&_&_&_&Hem&_).
  split_and!; [congruence| |by rewrite Hr].
  intros m. rewrite commit_timer. case_decide.
  - destruct (handle_effect e st) as [_ [->|(_ & -> & _)]]; [apply Ht|done].
  - destruct (_ && _); [|done]. intros [= <-]. done.
Qed.

Lemma run_events_erase es st1 st2 :
  Forall (λ e, e ≠ SetEngineMode Pro) es →
  auto_only st1 → auto_only st2 →
  erase_text st1 = erase_text st2 →
  erase_text (run_events es st1) = erase_text (run_events es st2).
Proof.
  intros Hes. revert st1 st2.
  induction Hes as [|e es He _ IH]; intros st1 st2 H1 H2 Heq; [done|].
  simpl. apply IH; [by apply step_auto_only..|by apply step_erase].
Qed.

(** C10. In [auto] mode the text field of an upload request is empty: this
    holds for every request in flight in every reachable state, so two
    executions in [auto] mode that differ in the stored reference text only
    send the same requests; in [pro] mode the field is the reference text. *)
Theorem auto_mode_hides_reference_text :
  (∀ textRef file,
     req_text (uploadRequest Auto textRef file) = "" ∧
     req_text (uploadRequest Pro textRef file) = textRef) ∧
  (∀ textRef1 textRef2 file,
     uploadRequest Auto textRef1 file = uploadRequest Auto textRef2 file) ∧
  (∀ st u, reachable st → u ∈ uploads st →
     req_mode (up_request u) = Auto → req_text (up_request u) = "") ∧
  (∀ reference_text1 reference_text2 limit es,
     Forall (λ e, e ≠ SetEngineMode Pro) es →
     uploads (run_events (SetEngineMode Auto :: es) (init reference_text1 limit)) =
     uploads (run_events (SetEngineMode Auto :: es) (init reference_text2 limit))).
Proof.
  split_and!; [done|done| |].
  - intros st u Hst Hu. apply reachable_hidden in Hst.
    rewrite Forall_forall in Hst. by apply Hst.
  - intros t1 t2 limit es Hes. simpl.
    change (uploads (erase_text (run_events es (step (SetEngineMode Auto) (init t1 limit))))
            = uploads (erase_text (run_events es (step (SetEngineMode Auto) (init t2 limit))))).
    f_equal. apply run_events_erase; [done| | |].
    + split_and!; [done|done|constructor].
    + split_and!; [done|done|constructor].
    + reflexivity.
Qed.

(** ** TaskRunner *)

Lemma lookup_patch_at i j f (q : list QueueItem) :
  patch_at i f q !! j = if decide (i = j) then f <$> q !! j else q !! j.
Proof.
  unfold patch_at. rewrite list_lookup_alter. case_decide; by subst.
Qed.

Lemma lookup_mark_uploading_other indices (q : list QueueItem) j :
  j ∉ indices → mark_uploading indices q !! j = q !! j.
Proof.
  revert q. induction indices as [|i indices IH]; intros q Hj; [done|].
  apply not_elem_of_cons in Hj as [Hne Hj]. simpl. rewrite IH by done.
  rewrite lookup_patch_at. by rewrite decide_False.
Qed.



(** The launch loop reads nothing of [queue] and [polls]: started on other
    tasks it launches the same uploads and marks the same records. *)
Lemma launch_loop_with_tasks rid rest r st :
  ∃ new,
    (∀ i, i ∈ new → i ∈ rest) ∧
    queue (launch_loop rid rest r st).2 = mark_uploading new (queue st) ∧
    ∀ q ps,
      launch_loop rid rest r (with_tasks q ps st) =
        ((launch_loop rid rest r st).1,
         with_tasks (mark_uploading new q) ps (launch_loop rid rest r st).2).
Proof.
  revert r st. induction rest as [|i rest IH]; intros r st; simpl.
  { exists []. split_and!; [by intros i ?%elem_of_nil|done|done]. }
  case_decide.
  2:{ exists []. split_and!; [by intros ? ?%elem_of_nil|done|done]. }
  destruct (queueRef st !! i) as [[[f|n] s j x e]|] eqn:Hi.
  - destruct (IH (run_launch i r) (processItem rid (run_mode r) i f st))
      as (new & Hnew & Hq & Heq).
    exists (i :: new). split_and!.
    + intros i' [->|?]%elem_of_cons; [by left|right; by apply Hnew].
    + done.
    + intros q ps. exact (Heq (patch_at i (with_status Uploading) q) ps).
  - destruct (IH (run_skip r) st) as (new & Hnew & Hq & Heq).
    exists new. split_and!; [|done|done]. intros i' ?. right. by apply Hnew.
  - destruct (IH (run_skip r) st) as (new & Hnew & Hq & Heq).
    exists new. split_and!; [|done|done]. intros i' ?. right. by apply Hnew.
Qed.

Lemma processNext_with_tasks rid st :
  ∃ new,
    (∀ r i, runs st !! rid = Some r → i ∈ new →
            i ∈ drop (nextPendingRefIndex r) (pendingIndices r)) ∧
    queue (processNext rid st) = mark_uploading new (queue st) ∧
    polls (processNext rid st) = polls st ∧
    (∃ added, uploads (processNext rid st) = uploads st ++ added) ∧
    ∀ q ps,
      processNext rid (with_tasks q ps st) =
        with_tasks (mark_uploading new q) ps (processNext rid st).
Proof.
  unfold processNext. simpl. destruct (runs st !! rid) as [r|] eqn:Hr.
  2:{ exists []. split_and!; [by intros|done|done| |by destruct st].
      exists []. by rewrite app_nil_r. }
  case_decide.
  { exists []. split_and!; [by intros ? ? _ ?%elem_of_nil|done|done| |done].
    exists []. by rewrite app_nil_r. }
  destruct (launch_loop_with_tasks rid (drop (nextPendingRefIndex r) (pendingIndices r))
              r st) as (new & Hnew & Hq & Heq).
  destruct (launch_loop_spec rid (drop (nextPendingRefIndex r) (pendingIndices r)) r st)
    as (added & Hfr & Hup & _).
  exists new. split_and!.
  - intros r0 i [= <-]. apply Hnew.
  - by destruct (launch_loop _ _ _ st).
  - apply same_frame_proj in Hfr as (_&_&_&_&_&_&_&_&_&_&_&_&_&Hpolls&_).
    by destruct (launch_loop _ _ _ st).
  - exists added. by destruct (launch_loop _ _ _ st).
  - intros q ps. rewrite Heq. by destruct (launch_loop _ _ _ st).
Qed.

Lemma NoDup_take_drop {A} (l : list A) n x :
  NoDup l → x ∈ take n l → x ∉ drop n l.
Proof.
  intros Hnd Ht Hd. rewrite <-(take_drop n l) in Hnd.
  apply NoDup_app in Hnd as (_ & Hdisj & _). by eapply Hdisj.
Qed.

(** The state in which [processNext] runs after the [k]-th upload
    returned, but for what [processItem] wrote to the queue and the polls. *)
Lemma uploadReply_unfold k resp st u r :
  uploads st !! k = Some u → runs st !! up_run u = Some r →
  ∃ base q ps,
    uploadReply k resp st = processNext (up_run u) (with_tasks q ps base) ∧
    runs base !! up_run u = Some (run_finally r) ∧
    uploads base = delete k (uploads st) ∧
    q = queue (processItem_resume (up_index u) resp st) ∧
    ps = polls (processItem_resume (up_index u) resp st) ∧
    (∀ resp', ∃ q' ps',
       uploadReply k resp' st = processNext (up_run u) (with_tasks q' ps' base) ∧
       q' = queue (processItem_resume (up_index u) resp' st) ∧
       ps' = polls (processItem_resume (up_index u) resp' st)).
Proof.
  intros Hu Hr.
  exists (set_stats (λ prev, mkStats (S (completedCount r)) (total prev))
            (set_runs (<[up_run u := run_finally r]>) (set_uploads (delete k) st))).
  assert (∀ resp', runs (processItem_resume (up_index u) resp' (set_uploads (delete k) st))
                   = runs st) as Hruns by (by intros []).
  eexists _, _. split_and!; [| |done|reflexivity|reflexivity|].
  - unfold uploadReply. rewrite Hu, Hruns, Hr. f_equal. by destruct resp.
  - simpl. apply list_lookup_insert_eq. by eapply lookup_lt_Some.
  - intros resp'. eexists _, _. split; [|split; reflexivity].
    unfold uploadReply. rewrite Hu, Hruns, Hr. f_equal. by destruct resp'.
Qed.

Lemma reachable_upload_run st k u :
  reachable st → uploads st !! k = Some u →
  ∃ r, runs st !! up_run u = Some r ∧ up_index u ∈ launched r ∧
       up_index u ∉ drop (nextPendingRefIndex r) (pendingIndices r).
Proof.
  intros Hst Hu. destruct (reachable_SchedInv st Hst) as (_ & Hph & _).
  destruct Hph as [(_ & Hup & _)|(_ & rid & r & [Hr _] & _ & Hups & _)].
  { by rewrite Hup in Hu. }
  rewrite Forall_lookup in Hups. specialize (Hups _ _ Hu). subst rid.
  destruct (reachable_RunInv st Hst _ _ Hr) as (Hnd & _ & Hsub & Hl).
  assert (up_index u ∈ launched r) as Hin.
  { apply Hl; [|done]. by eapply list_elem_of_lookup_2. }
  exists r. split_and!; [done..|]. apply NoDup_take_drop; [done|]. by apply Hsub.
Qed.

Lemma queue_processItem_resume i resp st :
  queue (processItem_resume i resp st) =
    match resp with
    | UploadOk jobId => patch_at i (with_queued jobId) (queue st)
    | _ => patch_at i (with_error (default "" (failure_message resp))) (queue st)
    end.
Proof. by destruct resp. Qed.





(** ** Tasks when no record is dropped *)

Lemma status_at_patch_ne idx f (q : list QueueItem) i :
  idx ≠ i → status_at (patch_at idx f q) i = status_at q i.
Proof. intros Hne. unfold status_at. by rewrite lookup_patch_at, decide_False. Qed.

Lemma status_at_patch_eq idx f (q : list QueueItem) s s' :
  (∀ x, status (f x) = s') → status_at q idx = Some s →
  status_at (patch_at idx f q) idx = Some s'.
Proof.
  intros Hf. unfold status_at. rewrite lookup_patch_at, decide_True by done.
  destruct (q !! idx) as [x|]; [|done]. simpl. by rewrite Hf.
Qed.

(** Writing to the record at [idx], whose status is [s], leaves every
    record with another status alone. *)
Lemma status_at_patch_other idx f (q : list QueueItem) i s si :
  status_at q idx = Some s → status_at q i = Some si → si ≠ s →
  status_at (patch_at idx f q) i = Some si.
Proof.
  intros Hidx Hi Hne. rewrite status_at_patch_ne; [done|]. congruence.
Qed.

Lemma status_at_app (q l : list QueueItem) i s :
  status_at q i = Some s → status_at (q ++ l) i = Some s.
Proof.
  unfold status_at. destruct (q !! i) as [x|] eqn:Hx; [|done].
  by rewrite (lookup_app_l_Some _ _ _ _ Hx).
Qed.

Lemma idle_files_patch idx f (q : list QueueItem) :
  (∀ x, file (f x) = file x) → (∀ x, status (f x) ≠ Idle) →
  (∀ i item, q !! i = Some item → status item = Idle → ∃ g, file item = IsFile g) →
  ∀ i item, patch_at idx f q !! i = Some item → status item = Idle →
            ∃ g, file item = IsFile g.
Proof.
  intros Hfile Hst Hq i item. rewrite lookup_patch_at. case_decide.
  - destruct (q !! i) as [x|]; [|done]. simpl. intros [= <-] Hs. by apply Hst in Hs.
  - apply Hq.
Qed.

Lemma status_at_mark_other indices (q : list QueueItem) i :
  i ∉ indices → status_at (mark_uploading indices q) i = status_at q i.
Proof. intros Hi. unfold status_at. by rewrite lookup_mark_uploading_other. Qed.

Lemma status_at_mark_in indices (q : list QueueItem) i :
  i ∈ indices → is_Some (q !! i) →
  status_at (mark_uploading indices q) i = Some Uploading.
Proof.
  revert q. induction indices as [|j indices IH]; intros q Hi Hq.
  { by apply elem_of_nil in Hi. }
  simpl. destruct (decide (i ∈ indices)) as [Hin|Hnotin].
  - apply IH; [done|]. rewrite lookup_patch_at. case_decide; [|done].
    by apply fmap_is_Some.
  - apply elem_of_cons in Hi as [->|?]; [|done].
    rewrite status_at_mark_other by done.
    destruct Hq as [x Hx]. apply (status_at_patch_eq _ _ _ (status x)); [done|].
    unfold status_at. by rewrite Hx.
Qed.

Lemma idle_files_mark indices (q : list QueueItem) :
  (∀ i item, q !! i = Some item → status item = Idle → ∃ g, file item = IsFile g) →
  ∀ i item, mark_uploading indices q !! i = Some item → status item = Idle →
            ∃ g, file item = IsFile g.
Proof.
  revert q. induction indices as [|j indices IH]; intros q Hq; [done|].
  simpl. apply IH. by apply idle_files_patch.
Qed.

Lemma addFiles_loop_items h q acc fs :
  Forall (λ item, status item = Idle ∧ ∃ g, file item = IsFile g) acc →
  Forall (λ item, status item = Idle ∧ ∃ g, file item = IsFile g)
         (addFiles_loop h q acc fs).
Proof.
  revert acc. induction fs as [|x fs IH]; intros acc Hacc; [done|].
  simpl. apply IH. apply Forall_app. split; [done|].
  constructor; [|done]. split; [done|]. by eexists.
Qed.

Lemma run_tasks_queue strict st st' r :
  (∀ i, status_at (queue st) i = Some Idle → status_at (queue st') i = Some Idle) →
  run_tasks strict st r → run_tasks strict st' r.
Proof.
  intros Hq (Hl & Hc & Hidle & Hs). split_and!; [done..| |done].
  intros i Hi. by apply Hq, Hidle.
Qed.

Lemma Owners_ext st st' :
  queue st' = queue st → uploads st' = uploads st → polls st' = polls st →
  Owners st → Owners st'.
Proof. intros Hq Hu Hp [H1 H2 H3 H4 H5]. split; by rewrite ?Hq, ?Hu, ?Hp. Qed.

Lemma runs_tasks_ext busy st st' :
  queue st' = queue st → runs st' = runs st →
  (∀ rid r, runs st !! rid = Some r → run_tasks (bool_decide (busy ≠ Some rid)) st r) →
  ∀ rid r, runs st' !! rid = Some r → run_tasks (bool_decide (busy ≠ Some rid)) st' r.
Proof.
  intros Hq Hr H rid r. rewrite Hr. intros Hrid. specialize (H rid r Hrid).
  unfold run_tasks in *. by rewrite Hq.
Qed.

(** The invariant depends on the queue, the uploads, the polls and the
    runs only. *)
Lemma TasksInv_ext busy st st' :
  queue st' = queue st → uploads st' = uploads st → polls st' = polls st →
  runs st' = runs st → TasksInv busy st → TasksInv busy st'.
Proof.
  intros Hq Hu Hp Hr [Ho Hruns]. split; [by eapply Owners_ext|].
  by eapply runs_tasks_ext.
Qed.

(** The runs do not mind a write that leaves idle records idle. *)
Lemma runs_tasks_queue busy st st' :
  runs st' = runs st →
  (∀ i, status_at (queue st) i = Some Idle → status_at (queue st') i = Some Idle) →
  (∀ rid r, runs st !! rid = Some r → run_tasks (bool_decide (busy ≠ Some rid)) st r) →
  ∀ rid r, runs st' !! rid = Some r → run_tasks (bool_decide (busy ≠ Some rid)) st' r.
Proof.
  intros Hr Hq H rid r. rewrite Hr. intros Hrid.
  eapply run_tasks_queue; [exact Hq|by apply H].
Qed.

Lemma addFiles_TaskInv newFiles st : TaskInv st → TaskInv (addFiles newFiles st).
Proof.
  intros [[H1 H2 H3 H4 H5] H6]. unfold addFiles, addFiles_queue. split.
  - split; simpl; try done.
    + intros u Hu. by apply status_at_app, H2.
    + intros p Hp. destruct (H4 p Hp) as (s & Hs & Hin). exists s.
      split; [|done]. by apply status_at_app.
    + intros i item Hi Hidle.
      apply lookup_app_Some in Hi as [Hi|[_ Hi]]; [by eapply H5|].
      pose proof (addFiles_loop_items (existingNames st) (queue st) [] newFiles
                    (Forall_nil_2 _)) as Hall.
      rewrite Forall_lookup in Hall. by eapply Hall.
  - apply (runs_tasks_queue None st); [done| |done]. simpl.
    intros i. apply status_at_app.
Qed.

Lemma NoDup_delete {A} (l : list A) k : NoDup l → NoDup (delete k l).
Proof. intros Hnd. exact (sublist_NoDup _ _ Hnd (sublist_delete l k)). Qed.

(** With distinct keys, what is left after deleting an entry has other keys. *)
Lemma delete_key_ne {A B} (f : A → B) (l : list A) k x y :
  NoDup (f <$> l) → l !! k = Some x → y ∈ delete k l → f y ≠ f x.
Proof.
  intros Hnd Hx Hy Heq. apply list_elem_of_lookup in Hy as [k' Hk'].
  assert ((f <$> delete k l) !! k' = Some (f x)) as Hk''.
  { rewrite list_lookup_fmap, Hk'. simpl. by rewrite Heq. }
  rewrite list_fmap_delete in Hk''.
  assert ((f <$> l) !! k = Some (f x)) as Hkx.
  { by rewrite list_lookup_fmap, Hx. }
  destruct (decide (k' < k)).
  - rewrite list_lookup_delete_lt in Hk'' by done.
    pose proof (NoDup_lookup _ _ _ _ Hnd Hk'' Hkx). lia.
  - rewrite list_lookup_delete_ge in Hk'' by lia.
    pose proof (NoDup_lookup _ _ _ _ Hnd Hk'' Hkx). lia.
Qed.

(** A poll loop writes to its own record, which no one else owns. *)
Lemma poll_write_TaskInv busy st k p f s' :
  polls st !! k = Some p →
  (∀ x, file (f x) = file x) → (∀ x, status (f x) = s') → s' ≠ Idle →
  TasksInv busy st →
  let st' := set_queue (patch_at (poll_index p) f) st in
  (in_progress s' → TasksInv busy st') ∧
  (terminal s' → TasksInv busy (set_polls (delete k) st')).
Proof.
  intros Hp Hfile Hst Hne [[H1 H2 H3 H4 H5] H6] st'.
  destruct (H4 p) as (s & Hs & Hprog); [by eapply list_elem_of_lookup_2|].
  assert (∀ u, u ∈ uploads st →
            status_at (patch_at (poll_index p) f (queue st)) (up_index u) = Some Uploading)
    as H2'.
  { intros u Hu. eapply status_at_patch_other; [done|by apply H2|].
    destruct Hprog; congruence. }
  assert (∀ i item, patch_at (poll_index p) f (queue st) !! i = Some item →
            status item = Idle → ∃ g, file item = IsFile g) as H5'.
  { apply idle_files_patch; [done| |done]. intros x. by rewrite Hst. }
  assert (∀ rid r, runs st' !! rid = Some r →
            run_tasks (bool_decide (busy ≠ Some rid)) st' r) as H6'.
  { apply (runs_tasks_queue busy st); [done| |done]. simpl.
    intros i Hi. eapply status_at_patch_other; [done..|]. destruct Hprog; congruence. }
  assert (∀ p', p' ∈ polls st → poll_index p' ≠ poll_index p →
            ∃ s0, status_at (patch_at (poll_index p) f (queue st)) (poll_index p')
                  = Some s0 ∧ in_progress s0) as H4'.
  { intros p' Hp' Hne'. destruct (H4 p' Hp') as (s0 & Hs0 & Hin0).
    exists s0. split; [|done]. by rewrite status_at_patch_ne. }
  split.
  - intros Hin. split; [|done]. split; simpl; try done.
    intros p' Hp'. destruct (decide (poll_index p' = poll_index p)) as [Heq|Hne'].
    + exists s'. split; [|done]. rewrite Heq. by eapply status_at_patch_eq.
    + by apply H4'.
  - intros Hterm. split; [|done]. split; simpl; try done.
    + rewrite list_fmap_delete. by apply NoDup_delete.
    + intros p' Hp'. apply H4'; [by eapply list_elem_of_delete_inv|].
      by eapply delete_key_ne.
Qed.

Lemma poll_TaskInv k resp st : TaskInv st → TaskInv (poll k resp st).
Proof.
  intros Hinv. unfold poll. destruct (polls st !! k) as [p|] eqn:Hp; [|done].
  destruct resp as [[[] ? ?]| |]; simpl.
  - by apply (poll_write_TaskInv None st k p (with_status Queued) Queued); [..|left].
  - by apply (poll_write_TaskInv None st k p (with_status Processing) Processing);
      [..|right].
  - by apply (poll_write_TaskInv None st k p (with_done _) Done); [..|left].
  - by apply (poll_write_TaskInv None st k p (with_error _) Error); [..|right].
  - by apply (poll_write_TaskInv None st k p (with_error _) Error); [..|right].
  - by apply (poll_write_TaskInv None st k p (with_error _) Error); [..|right].
Qed.

(** What the launch loop does when every entry still to come is an idle
    record with a file: it launches them in order until the slots are
    taken or the snapshot is used up. *)
Lemma launch_loop_tasks rid rest r st :
  NoDup rest →
  (∀ i, i ∈ rest → ∃ item f, queueRef st !! i = Some item ∧ file item = IsFile f) →
  ∃ c, c ≤ length rest ∧
    let r' := (launch_loop rid rest r st).1 in
    let st' := (launch_loop rid rest r st).2 in
    nextPendingRefIndex r' = nextPendingRefIndex r + c ∧
    launched r' = launched r ++ take c rest ∧
    activeCount r' = (activeCount r + Z.of_nat c)%Z ∧
    queue st' = mark_uploading (take c rest) (queue st) ∧
    up_index <$> uploads st' = (up_index <$> uploads st) ++ take c rest ∧
    (rest ≠ [] → (activeCount r < CONCURRENCY_LIMIT r)%Z → 0 < c).
Proof.
  revert r st. induction rest as [|i rest IH]; intros r st Hnd Hfiles; simpl.
  { exists 0. simpl. rewrite !app_nil_r. split_and!; try done; lia. }
  case_decide as Hlt.
  2:{ exists 0. simpl. rewrite !app_nil_r. split_and!; try done; lia. }
  destruct (Hfiles i) as (item & f & Hi & Hf); [by left|].
  rewrite Hi. destruct item as [fl s j x e]. simpl in Hf. subst fl.
  apply NoDup_cons in Hnd as [Hni Hnd].
  destruct (IH (run_launch i r) (processItem rid (run_mode r) i f st) Hnd)
    as (c & Hc & Hn & Hl & Ha & Hq & Hu & _).
  { intros i' Hi'. apply Hfiles. by right. }
  exists (S c). simpl in *. split_and!.
  - lia.
  - lia.
  - rewrite Hl. by rewrite <-app_assoc.
  - lia.
  - done.
  - rewrite Hu, fmap_app. simpl. by rewrite <-app_assoc.
  - intros _ _. lia.
Qed.

(** Launching uploads for idle records keeps the ownership of records. *)
Lemma launch_Owners st st' new :
  NoDup new →
  (∀ i, i ∈ new → status_at (queue st) i = Some Idle) →
  queue st' = mark_uploading new (queue st) →
  up_index <$> uploads st' = (up_index <$> uploads st) ++ new →
  polls st' = polls st →
  Owners st → Owners st'.
Proof.
  intros Hnd Hidle Hq Hu Hp [H1 H2 H3 H4 H5].
  assert (∀ i, i ∈ up_index <$> uploads st → i ∉ new) as Hdisj.
  { intros i (u & -> & Hin)%list_elem_of_fmap Hnew.
    apply H2 in Hin. apply Hidle in Hnew. congruence. }
  split.
  - rewrite Hu. apply NoDup_app. split_and!; [done| |done].
    intros i Hi. by apply Hdisj.
  - intros u Hin. rewrite Hq.
    assert (up_index u ∈ up_index <$> uploads st') as Hin' by by apply list_elem_of_fmap_2.
    rewrite Hu in Hin'. apply elem_of_app in Hin' as [Hin'|Hin'].
    + rewrite status_at_mark_other by by apply Hdisj.
      apply list_elem_of_fmap in Hin' as (u' & -> & Hu'). by apply H2.
    + apply status_at_mark_in; [done|]. apply Hidle in Hin'. unfold status_at in Hin'.
      by destruct (queue st !! up_index u).
  - by rewrite Hp.
  - intros p Hin. rewrite Hp in Hin. destruct (H4 p Hin) as (s & Hs & Hprog).
    exists s. split; [|done]. rewrite Hq, status_at_mark_other; [done|].
    intros Hnew. apply Hidle in Hnew. destruct Hprog; congruence.
  - rewrite Hq. by apply idle_files_mark.
Qed.

Lemma take_take_drop {A} (l : list A) n c :
  take n l ++ take c (drop n l) = take (n + c) l.
Proof.
  revert n. induction l as [|x l IH]; intros [|n]; simpl; try done.
  - by rewrite take_nil.
  - by rewrite IH.
Qed.

Lemma drop_drop_add {A} (l : list A) n c : drop c (drop n l) = drop (n + c) l.
Proof. rewrite drop_drop. f_equal. Qed.

Lemma NoDup_drop {A} (l : list A) n : NoDup l → NoDup (drop n l).
Proof. intros Hnd. exact (sublist_NoDup _ _ Hnd (sublist_drop l n)). Qed.

Lemma NoDup_take {A} (l : list A) n : NoDup l → NoDup (take n l).
Proof. intros Hnd. exact (sublist_NoDup _ _ Hnd (sublist_take l n)). Qed.

Lemma run_tasks_strict_others (busy : option nat) (rid' : nat) st r :
  busy ≠ Some rid' →
  run_tasks (bool_decide (busy ≠ Some rid')) st r → run_tasks true st r.
Proof. intros Hne. by rewrite bool_decide_eq_true_2. Qed.

(** [processNext] for the only pending run, its remaining entries being
    idle records with files. *)
Lemma processNext_TaskInv rid r st :
  runs st !! rid = Some r → resolved r = false →
  (∀ rid' r', runs st !! rid' = Some r' → rid' ≠ rid → resolved r' = true) →
  NoDup (pendingIndices r) →
  nextPendingRefIndex r ≤ length (pendingIndices r) →
  (0 < CONCURRENCY_LIMIT r)%Z → (0 ≤ activeCount r)%Z →
  (∀ i, i ∈ drop (nextPendingRefIndex r) (pendingIndices r) →
        ∃ item f, queueRef st !! i = Some item ∧ file item = IsFile f) →
  TasksInv (Some rid) st → TaskInv (processNext rid st).
Proof.
  intros Hr Hres Hothers Hnd Hnext Hlim Hact Hfiles [Hown Hruns].
  destruct (Hruns rid r Hr) as (Hl & Hc & Hidle & _).
  unfold processNext. rewrite Hr. case_decide as Hend.
  - split; [by apply (Owners_ext st)|]. simpl. intros rid' r' Hr'.
    destruct (decide (rid' = rid)) as [->|Hne].
    + rewrite list_lookup_insert_eq in Hr' by (by eapply lookup_lt_Some).
      injection Hr' as <-. split_and!; [done..|]. simpl. intros _. split; [lia|tauto].
    + rewrite list_lookup_insert_ne in Hr' by done.
      rewrite ?bool_decide_eq_true_2 by done.
      eapply run_tasks_strict_others; [|by apply Hruns]. congruence.
  - set (rest := drop (nextPendingRefIndex r) (pendingIndices r)) in *.
    destruct (launch_loop_tasks rid rest r st) as (c & Hcle & Hlt); [by apply NoDup_drop|done|].
    destruct (launch_loop_spec rid rest r st)
      as (added & Hfr & _ & _ & _ & _ & _ & (Hp & Hlim' & _) & Hcc & Hres').
    destruct (launch_loop rid rest r st) as [r' st'] eqn:Hloop. simpl in *.
    destruct Hlt as (Hn' & Hl' & Ha' & Hq' & Hu' & Hpos).
    apply same_frame_proj in Hfr as (_&_&_&_&_&_&_&_&_&_&_&_&Hrs&Hpolls&_).
    assert (NoDup (take c rest)) as Hndc by by apply NoDup_take, NoDup_drop.
    assert (∀ i, i ∈ take c rest → status_at (queue st) i = Some Idle) as Hidc.
    { intros i Hi. apply Hidle. apply elem_of_take in Hi as (j & Hj & _).
      by eapply list_elem_of_lookup_2. }
    split.
    + apply (Owners_ext st'); [done..|].
      by apply (launch_Owners st st' (take c rest)).
    + simpl. rewrite Hrs. intros rid' r0 Hr0.
      rewrite ?bool_decide_eq_true_2 by done.
      destruct (decide (rid' = rid)) as [->|Hne].
      * rewrite list_lookup_insert_eq in Hr0 by (by eapply lookup_lt_Some).
        injection Hr0 as <-. unfold run_tasks. simpl. rewrite Hp, Hn'. split_and!.
        -- rewrite Hl', Hl. apply take_take_drop.
        -- lia.
        -- intros i Hi. simpl. rewrite Hq'. rewrite <-drop_drop_add in Hi.
           rewrite status_at_mark_other.
           ++ apply Hidle. apply list_elem_of_lookup in Hi as [j Hj].
              rewrite lookup_drop in Hj. by eapply list_elem_of_lookup_2.
           ++ intros Hin. revert Hi. apply NoDup_take_drop; [by apply NoDup_drop|done].
        -- intros _. rewrite Hres', Hres.
           destruct (decide (0 < activeCount r)%Z); [lia|].
           assert (rest ≠ []) as Hne.
           { intros Hnil. apply Hend. split; [|lia].
             apply (f_equal length) in Hnil. unfold rest in Hnil.
             rewrite length_drop in Hnil. simpl in Hnil. lia. }
           specialize (Hpos Hne). lia.
      * rewrite list_lookup_insert_ne in Hr0 by done.
        pose proof (Hothers _ _ Hr0 Hne) as Hres0.
        destruct (Hruns rid' r0 Hr0) as (Hl0 & Hc0 & Hidle0 & Hs0).
        rewrite bool_decide_eq_true_2 in Hs0 by congruence.
        specialize (Hs0 eq_refl). rewrite Hres0 in Hs0. destruct Hs0 as [Hs0 Ha0].
        split_and!; [done..| |by rewrite Hres0].
        intros i Hi. rewrite Hs0, drop_all in Hi. by apply elem_of_nil in Hi.
Qed.

(** The upload of [u] returned and [processItem] wrote [f] to its record;
    with [poll] the poll loop it started. *)
Lemma upload_write_Owners st k u f s' (new_polls : list Poll) :
  uploads st !! k = Some u →
  (∀ x, file (f x) = file x) → (∀ x, status (f x) = s') → s' ≠ Idle →
  (new_polls = [] ∨ ∃ j, new_polls = [mkPoll (up_index u) j] ∧ s' = Queued) →
  Owners st →
  Owners (set_polls (λ ps, ps ++ new_polls)
            (set_queue (patch_at (up_index u) f) (set_uploads (delete k) st))) ∧
  ∀ i, status_at (queue st) i = Some Idle →
       status_at (patch_at (up_index u) f (queue st)) i = Some Idle.
Proof.
  intros Hu Hfile Hst Hne Hpoll [H1 H2 H3 H4 H5].
  assert (status_at (queue st) (up_index u) = Some Uploading) as Hs.
  { apply H2. by eapply list_elem_of_lookup_2. }
  split; [split; simpl|].
  - rewrite list_fmap_delete. by apply NoDup_delete.
  - intros u' Hu'. rewrite status_at_patch_ne.
    + apply H2. by eapply list_elem_of_delete_inv.
    + intros Heq. by eapply (delete_key_ne up_index).
  - destruct Hpoll as [->|(j & -> & _)]; [by rewrite app_nil_r|].
    rewrite fmap_app. simpl. apply NoDup_app. split_and!; [done| |apply NoDup_singleton].
    intros i (p & -> & Hp)%list_elem_of_fmap Heq%list_elem_of_singleton.
    destruct (H4 p Hp) as (s & Hsp & Hprog). rewrite Heq, Hs in Hsp.
    injection Hsp as <-. by destruct Hprog.
  - intros p Hp. apply elem_of_app in Hp as [Hp|Hp].
    + destruct (H4 p Hp) as (s & Hsp & Hprog). exists s. split; [|done].
      eapply status_at_patch_other; [done..|]. destruct Hprog; congruence.
    + destruct Hpoll as [->|(j & -> & ->)]; [by apply elem_of_nil in Hp|].
      apply list_elem_of_singleton in Hp as ->. simpl.
      exists Queued. split; [|by left]. by eapply status_at_patch_eq.
  - apply idle_files_patch; [done| |done]. intros x. by rewrite Hst.
  - intros i Hi. by eapply status_at_patch_other.
Qed.

Lemma idle_has_file st i :
  Owners st → status_at (queue st) i = Some Idle →
  ∃ item f, queue st !! i = Some item ∧ file item = IsFile f.
Proof.
  intros Hown Hi. unfold status_at in Hi.
  destruct (queue st !! i) as [item|] eqn:Hitem; [|done].
  injection Hi as Hi. destruct (ow_idle_files st Hown i item Hitem Hi) as [f Hf]. eauto.
Qed.

Lemma uploadReply_TaskInv k resp st :
  committed st → scheduler_phase st → RunInv st → TaskInv st →
  TaskInv (uploadReply k resp st).
Proof.
  intros (Hqr & _) Hph Hrinv [Hown Hruns]. unfold uploadReply.
  destruct (uploads st !! k) as [u|] eqn:Hu; [|done].
  destruct Hph as [(_ & Hup & _)|(_ & rid & r & [Hr Hres] & Hothers & Hups & Hac & Hpos & Hle)].
  { by rewrite Hup in Hu. }
  assert (up_run u = rid) as Hrid by (rewrite Forall_lookup in Hups; by eapply Hups).
  destruct (Hrinv _ _ Hr) as (Hnd & Hnext & _ & _).
  set (st1 := processItem_resume (up_index u) resp (set_uploads (delete k) st)).
  assert (runs st1 = runs st ∧ queueRef st1 = queueRef st) as [Hruns1 Hqr1].
  { unfold st1. by destruct resp. }
  assert (Owners st1 ∧
          ∀ i, status_at (queue st) i = Some Idle → status_at (queue st1) i = Some Idle)
    as [Hown1 Hidle1].
  { unfold st1. destruct resp as [j|d|m]; simpl.
    - by apply (upload_write_Owners st k u (with_queued j) Queued [mkPoll (up_index u) j]);
        [..|right; eauto|].
    - destruct (upload_write_Owners st k u (with_error (or_default d "Upload Failed"))
                  Error [] Hu) as [Ho Hi]; [done..|by left|done|].
      split; [|done]. eapply Owners_ext; [..|exact Ho]; simpl; [done..|].
      by rewrite app_nil_r.
    - destruct (upload_write_Owners st k u (with_error m) Error [] Hu) as [Ho Hi];
        [done..|by left|done|].
      split; [|done]. eapply Owners_ext; [..|exact Ho]; simpl; [done..|].
      by rewrite app_nil_r. }
  rewrite Hruns1, Hrid, Hr.
  apply (processNext_TaskInv rid (run_finally r)); simpl.
  - rewrite Hruns1. apply list_lookup_insert_eq. by eapply lookup_lt_Some.
  - done.
  - rewrite Hruns1. intros rid' r' Hr' Hne.
    rewrite list_lookup_insert_ne in Hr' by done. by eapply Hothers.
  - done.
  - done.
  - done.
  - apply lookup_lt_Some in Hu. lia.
  - intros i Hi. rewrite Hqr1, Hqr. apply idle_has_file; [done|].
    destruct (Hruns rid r Hr) as (_ & _ & Hidle & _). by apply Hidle.
  - split; [by apply (Owners_ext st1)|]. simpl. rewrite Hruns1. intros rid' r' Hr'.
    destruct (decide (rid' = rid)) as [->|Hne].
    + rewrite list_lookup_insert_eq in Hr' by (by eapply lookup_lt_Some).
      injection Hr' as <-. rewrite bool_decide_eq_false_2 by (by intros []).
      destruct (Hruns rid r Hr) as (Hl & Hc & Hidle & _).
      unfold run_tasks. simpl. split_and!; [done|lia| |done].
      intros i Hi. by apply Hidle1, Hidle.
    + rewrite list_lookup_insert_ne in Hr' by done.
      rewrite bool_decide_eq_true_2 by congruence.
      destruct (Hruns rid' r' Hr') as (Hl & Hc & Hidle & Hs).
      split_and!; [done..| |done]. simpl. intros i Hi. by apply Hidle1, Hidle.
Qed.

Lemma runBatchLogic_TaskInv m st :
  committed st → scheduler_phase st → TaskInv st → TaskInv (runBatchLogic m st).
Proof.
  intros (Hqr & _ & Hl & _) Hph [Hown Hruns]. unfold runBatchLogic.
  destruct (isGlobalLoadingRef st) eqn:Hg; [done|].
  destruct Hph as [(_ & Hup & Hall)|[Hl' _]]; [|congruence].
  case_decide as Hidle; [by apply (TasksInv_ext None st)|].
  set (new := mkRun _ _ _ _ _ _ _ _).
  apply (processNext_TaskInv _ new); simpl.
  - by apply list_lookup_middle.
  - done.
  - intros rid' r' Hr' Hne. apply lookup_app_Some in Hr' as [Hr'|[Hge Hr']].
    + rewrite Forall_lookup in Hall. by eapply Hall.
    + apply list_lookup_singleton_Some in Hr' as [? _]. lia.
  - apply NoDup_idle_indices.
  - lia.
  - apply read_limit_pos.
  - done.
  - intros i Hi. rewrite drop_0 in Hi. apply elem_of_idle_indices in Hi as (item & Hi & Hs).
    rewrite Hqr in Hi. destruct (ow_idle_files st Hown i item Hi Hs) as [f Hf].
    rewrite Hqr. eauto.
  - split; [by apply (Owners_ext st)|]. simpl. intros rid' r' Hr'.
    apply lookup_app_Some in Hr' as [Hr'|[Hge Hr']].
    + rewrite bool_decide_eq_true_2.
      * destruct (Hruns rid' r' Hr') as (? & ? & ? & ?). split_and!; done.
      * apply lookup_lt_Some in Hr'. intros [= Heq]. lia.
    + apply list_lookup_singleton_Some in Hr' as [Heq <-].
      assert (rid' = length (runs st)) as -> by lia.
      rewrite bool_decide_eq_false_2 by (by intros []).
      unfold run_tasks. simpl. split_and!; [done|done| |done].
      intros i Hi. rewrite drop_0 in Hi.
      apply elem_of_idle_indices in Hi as (item & Hi & Hs). rewrite Hqr in Hi.
      unfold status_at. by rewrite Hi, <-Hs.
Qed.

Lemma handle_TaskInv e st :
  drops e st = false → SchedInv st → RunInv st → TaskInv st → TaskInv (handle e st).
Proof.
  intros Hkeep (Hc & Hph & _) Hrinv Hinv. destruct e; cbn [handle].
  - by apply addFiles_TaskInv.
  - by apply runBatchLogic_TaskInv.
  - unfold timerFire. destruct (timer st) as [m|]; [|done]. unfold autoRun_callback.
    apply (TasksInv_ext None (runBatchLogic m (set_timer None st))); [done..|].
    apply runBatchLogic_TaskInv; [by destruct Hc as (?&?&?&?)|done|].
    by apply (TasksInv_ext None st).
  - by apply uploadReply_TaskInv.
  - by apply poll_TaskInv.
  - simpl in Hkeep. destruct (queue st !! index) as [item|] eqn:Hi; [|done].
    case_decide as Hp; [done|]. by apply bool_decide_eq_false in Hkeep.
  - simpl in Hkeep. unfold clearClick. destruct (isGlobalLoading st); [done|].
    case_decide as Hq; [done|]. case_decide as Hj.
    + simpl in Hkeep. rewrite !bool_decide_eq_true_2 in Hkeep by done. done.
    + by apply (TasksInv_ext None st).
  - simpl in Hkeep. unfold clearDone. destruct (pendingClears st) as [|n] eqn:Hn; [done|].
    rewrite bool_decide_eq_true_2 in Hkeep by lia. simpl in Hkeep.
    apply bool_decide_eq_false in Hkeep.
    apply (TasksInv_ext None st); simpl; try done.
    destruct (queue st); [done|]. by destruct Hkeep.
  - by apply (TasksInv_ext None st).
  - simpl in Hkeep. unfold reportsLoaded.
    destruct (reportFetches st !! k) as [wasEmpty|]; [|done].
    destruct resp as [data|]; [|by apply (TasksInv_ext None st)].
    destruct wasEmpty; [|by apply (TasksInv_ext None st)].
    match goal with
    | |- context [decide (0 < ?n)] => destruct (decide (0 < n)) as [Hlen|Hlen]
    end; [|by apply (TasksInv_ext None st)].
    rewrite length_fmap, length_take in Hlen.
    rewrite bool_decide_eq_true_2 in Hkeep by lia. simpl in Hkeep.
    apply bool_decide_eq_false in Hkeep.
    assert (queue st = []) as Hq by (destruct (queue st); [done|by destruct Hkeep]).
    destruct Hinv as [[H1 H2 H3 H4 H5] H6].
    assert (uploads st = []) as Hu.
    { destruct (uploads st) as [|u us]; [done|].
      specialize (H2 u (list_elem_of_here _ _)). by rewrite Hq in H2. }
    assert (polls st = []) as Hp.
    { destruct (polls st) as [|p ps]; [done|].
      destruct (H4 p (list_elem_of_here _ _)) as (s & Hs & _). by rewrite Hq in Hs. }
    split.
    + split; simpl; rewrite ?Hu, ?Hp.
      * constructor.
      * by intros u ?%elem_of_nil.
      * constructor.
      * by intros p ?%elem_of_nil.
      * intros i item Hi Hs. apply list_lookup_fmap_Some in Hi as (rp & -> & _). done.
    + simpl. intros rid r Hr. destruct (H6 rid r Hr) as (Hl & Hcc & Hidle & Hs).
      split_and!; [done..| |done]. intros i Hi. apply Hidle in Hi.
      by rewrite Hq in Hi.
  - by apply (TasksInv_ext None st).
  - by apply (TasksInv_ext None st).
  - by apply (TasksInv_ext None st).
Qed.

Lemma step_TaskInv e st :
  drops e st = false → SchedInv st → RunInv st → TaskInv st → TaskInv (step e st).
Proof.
  intros Hkeep Hs Hr Hinv. unfold step.
  destruct (commit_sched (handle e st)) as (Hq & Hrs & Hu & Hp & _).
  apply (TasksInv_ext None (handle e st)); [done..|]. by apply handle_TaskInv.
Qed.

Lemma keeps_records_snoc es e st :
  keeps_records (es ++ [e]) st ↔
  keeps_records es st ∧ drops e (run_events es st) = false.
Proof.
  revert st. induction es as [|e' es IH]; intros st; simpl; [tauto|].
  rewrite IH. tauto.
Qed.

Lemma keeps_records_app es1 es2 st :
  keeps_records (es1 ++ es2) st ↔
  keeps_records es1 st ∧ keeps_records es2 (run_events es1 st).
Proof.
  revert st. induction es1 as [|e es1 IH]; intros st; simpl; [tauto|].
  rewrite IH. tauto.
Qed.

Lemma reachable_keeping_reachable st : reachable_keeping st → reachable st.
Proof. intros (t & l & es & _ & ->). apply reachable_from_init. Qed.

Lemma init_TaskInv t l : TaskInv (init t l).
Proof.
  split; [split; simpl; try done; try constructor|].
  - by intros u ?%elem_of_nil.
  - by intros p ?%elem_of_nil.
  - intros rid r Hr. done.
Qed.

Lemma reachable_keeping_TaskInv st : reachable_keeping st → TaskInv st.
Proof.
  intros (t & l & es & Hkeep & ->). induction es as [|e es IH] using rev_ind.
  - apply init_TaskInv.
  - apply keeps_records_snoc in Hkeep as [Hkeep He]. rewrite run_events_snoc.
    apply step_TaskInv; [done| | |by apply IH].
    + apply run_events_SchedInv, init_SchedInv.
    + apply reachable_RunInv, reachable_from_init.
Qed.

Lemma reachable_keeping_run_events es st :
  reachable_keeping st → keeps_records es st → reachable_keeping (run_events es st).
Proof.
  intros (t & l & es0 & Hkeep0 & ->) Hkeep. exists t, l, (es0 ++ es). split.
  - by apply keeps_records_app.
  - by rewrite run_events_app.
Qed.

(** ** Which records are written *)

Lemma lookup_mark_uploading_cases new (q : list QueueItem) i item :
  q !! i = Some item →
  mark_uploading new q !! i = Some item ∨
  mark_uploading new q !! i = Some (with_status Uploading item).
Proof.
  revert q item. induction new as [|j new IH]; intros q item Hi; [by left|].
  simpl. destruct (decide (j = i)) as [->|Hne].
  - destruct (IH (patch_at i (with_status Uploading) q) (with_status Uploading item))
      as [H|H]; [|by right..].
    rewrite lookup_patch_at, decide_True by done. by rewrite Hi.
  - apply IH. rewrite lookup_patch_at, decide_False by done. done.
Qed.

Lemma runBatchLogic_queue m st :
  ∃ new, queue (runBatchLogic m st) = mark_uploading new (queue st) ∧
         ∀ i, i ∈ new → i ∈ idle_indices (queueRef st).
Proof.
  unfold runBatchLogic. destruct (isGlobalLoadingRef st).
  { exists []. split; [done|]. by intros i ?%elem_of_nil. }
  case_decide.
  { exists []. split; [done|]. by intros i ?%elem_of_nil. }
  set (new_run := mkRun _ _ _ _ _ _ _ _). set (st2 := set_runs _ _).
  destruct (processNext_with_tasks (length (runs st)) st2) as (new & Hnew & Hq & _).
  exists new. split; [done|]. intros i Hi.
  specialize (Hnew new_run i). simpl in Hnew. rewrite drop_0 in Hnew.
  apply Hnew; [|done]. by apply list_lookup_middle.
Qed.

Lemma uploadReply_queue k resp st u :
  uploads st !! k = Some u →
  ∃ new,
    queue (uploadReply k resp st)
    = mark_uploading new (queue (processItem_resume (up_index u) resp st)) ∧
    ∀ r i, runs st !! up_run u = Some r → i ∈ new →
           i ∈ drop (nextPendingRefIndex r) (pendingIndices r).
Proof.
  intros Hu. destruct (runs st !! up_run u) as [r|] eqn:Hr.
  - destruct (uploadReply_unfold k resp st u r Hu Hr)
      as (base & q & ps & Hf & Hrb & _ & -> & -> & _).
    destruct (processNext_with_tasks (up_run u) base) as (new & Hnew & _ & _ & _ & Heq).
    exists new. rewrite Hf, Heq. split; [done|].
    intros r0 i [= <-] Hi. by apply (Hnew _ _ Hrb) in Hi.
  - exists []. split; [|done]. unfold uploadReply. rewrite Hu.
    assert (runs (processItem_resume (up_index u) resp (set_uploads (delete k) st))
            = runs st) as -> by by destruct resp.
    rewrite Hr. by destruct resp.
Qed.

Lemma queue_poll k resp st p :
  polls st !! k = Some p →
  ∃ f, queue (poll k resp st) = patch_at (poll_index p) f (queue st) ∧
       (∀ x, file (f x) = file x) ∧ (∀ x, status (f x) ≠ Idle).
Proof.
  intros Hp. unfold poll. rewrite Hp.
  destruct resp as [[[] ? ?]| |]; simpl; eexists; (split; [reflexivity|done]).
Qed.

(** *** A finished task is left alone when no record is dropped *)

Lemma handle_terminal e st i item :
  drops e st = false → SchedInv st → RunInv st → TaskInv st →
  queue st !! i = Some item → terminal (status item) →
  queue (handle e st) !! i = Some item.
Proof.
  intros Hkeep ((Hqr & _) & Hph & _) Hrinv [Hown Hruns] Hi Hterm.
  assert (status_at (queue st) i ≠ Some Idle) as Hnotidle.
  { unfold status_at. rewrite Hi. simpl. destruct Hterm; congruence. }
  destruct e; cbn [handle].
  - simpl. unfold addFiles_queue. by apply lookup_app_l_Some.
  - destruct (runBatchLogic_queue (engineMode st) st) as (new & -> & Hnew).
    rewrite lookup_mark_uploading_other; [done|]. intros Hin%Hnew.
    apply elem_of_idle_indices in Hin as (x & Hx & Hs). rewrite Hqr in Hx.
    apply Hnotidle. unfold status_at. by rewrite Hx, <-Hs.
  - unfold timerFire. destruct (timer st) as [m|]; [|done]. unfold autoRun_callback.
    simpl. destruct (runBatchLogic_queue m (set_timer None st)) as (new & -> & Hnew).
    simpl. rewrite lookup_mark_uploading_other; [done|]. intros Hin%Hnew.
    apply elem_of_idle_indices in Hin as (x & Hx & Hs). simpl in Hx. rewrite Hqr in Hx.
    apply Hnotidle. unfold status_at. by rewrite Hx, <-Hs.
  - destruct (uploads st !! k) as [u|] eqn:Hu; [|by unfold uploadReply; rewrite Hu].
    destruct (uploadReply_queue k resp st u Hu) as (new & -> & Hnew).
    assert (up_index u ≠ i) as Hne.
    { intros <-. pose proof (ow_uploads st Hown u (list_elem_of_lookup_2 _ _ _ Hu)) as Hs.
      unfold status_at in Hs. rewrite Hi in Hs. destruct Hterm; simpl in *; congruence. }
    rewrite lookup_mark_uploading_other.
    + rewrite queue_processItem_resume. destruct resp; by rewrite lookup_patch_at, decide_False.
    + intros Hin.
      destruct Hph as [(_ & Hup & _)|(_ & rid & r & [Hr _] & _ & Hups & _)].
      { by rewrite Hup in Hu. }
      rewrite Forall_lookup in Hups. rewrite <-(Hups _ _ Hu) in Hr.
      apply (Hnew _ _ Hr) in Hin. destruct (Hruns _ _ Hr) as (_ & _ & Hidle & _).
      by apply Hidle in Hin.
  - destruct (polls st !! k) as [p|] eqn:Hp; [|by unfold poll; rewrite Hp].
    destruct (queue_poll k resp st p Hp) as (f & -> & _).
    rewrite lookup_patch_at, decide_False; [done|]. intros <-.
    destruct (ow_polls st Hown p (list_elem_of_lookup_2 _ _ _ Hp)) as (s & Hs & Hprog).
    unfold status_at in Hs. rewrite Hi in Hs. injection Hs as <-.
    destruct Hterm, Hprog; congruence.
  - simpl in Hkeep. destruct (queue st !! index) as [x|] eqn:Hx; [|done].
    case_decide; [done|]. by apply bool_decide_eq_false in Hkeep.
  - simpl in Hkeep. unfold clearClick. destruct (isGlobalLoading st); [done|].
    case_decide as Hq; [done|]. case_decide as Hj; [|done].
    simpl in Hkeep. by rewrite !bool_decide_eq_true_2 in Hkeep.
  - simpl in Hkeep. unfold clearDone. destruct (pendingClears st) as [|n]; [done|].
    rewrite bool_decide_eq_true_2 in Hkeep by lia. simpl in Hkeep.
    apply bool_decide_eq_false in Hkeep. destruct (queue st); [done|]. by destruct Hkeep.
  - done.
  - simpl in Hkeep. unfold reportsLoaded.
    destruct (reportFetches st !! k) as [wasEmpty|]; [|done].
    destruct resp as [data|]; [|done]. destruct wasEmpty; [|done].
    match goal with
    | |- context [decide (0 < ?n)] => destruct (decide (0 < n)) as [Hlen|Hlen]
    end; [|done].
    rewrite length_fmap, length_take in Hlen.
    rewrite bool_decide_eq_true_2 in Hkeep by lia. simpl in Hkeep.
    apply bool_decide_eq_false in Hkeep. destruct (queue st); [done|]. by destruct Hkeep.
  - done.
  - done.
  - done.
Qed.

Lemma run_events_terminal es st i item :
  reachable_keeping st → keeps_records es st →
  queue st !! i = Some item → terminal (status item) →
  queue (run_events es st) !! i = Some item.
Proof.
  revert st. induction es as [|e es IH]; intros st Hst Hkeep Hi Hterm; [done|].
  destruct Hkeep as [He Hkeep]. simpl. apply IH; [| done | | done].
  - apply (reachable_keeping_run_events [e]); [done|]. by split.
  - unfold step. destruct (commit_sched (handle e st)) as (-> & _).
    apply handle_terminal; try done.
    + by apply reachable_SchedInv, reachable_keeping_reachable.
    + by apply reachable_RunInv, reachable_keeping_reachable.
    + by apply reachable_keeping_TaskInv.
Qed.

(** *** Records keep their file and do not go back to idle *)

Lemma mark_uploading_keeps new (q : list QueueItem) i item :
  q !! i = Some item →
  ∃ item', mark_uploading new q !! i = Some item' ∧ file item' = file item ∧
           (status item ≠ Idle → status item' ≠ Idle).
Proof.
  intros Hi. destruct (lookup_mark_uploading_cases new q i item Hi) as [H|H];
    eexists; (split; [exact H|done]).
Qed.

Lemma patch_keeps idx f (q : list QueueItem) i item :
  (∀ x, file (f x) = file x) → (∀ x, status (f x) ≠ Idle) →
  q !! i = Some item →
  ∃ item', patch_at idx f q !! i = Some item' ∧ file item' = file item ∧
           (status item ≠ Idle → status item' ≠ Idle).
Proof.
  intros Hf Hst Hi. rewrite lookup_patch_at, Hi. case_decide; simpl; eauto.
Qed.

Lemma keeps_refl (q : list QueueItem) i item :
  q !! i = Some item →
  ∃ item', q !! i = Some item' ∧ file item' = file item ∧
           (status item ≠ Idle → status item' ≠ Idle).
Proof. eauto. Qed.

Lemma handle_keeps e st i j item :
  queue st !! i = Some item → track e st i = Some j →
  ∃ item', queue (handle e st) !! j = Some item' ∧ file item' = file item ∧
           (status item ≠ Idle → status item' ≠ Idle).
Proof.
  intros Hi Htrack. unfold track in Htrack.
  destruct (drops e st) eqn:Hd.
  { destruct e; try done. simpl in *.
    destruct (queue st !! index) as [x|] eqn:Hx; [|done].
    apply bool_decide_eq_true in Hd. rewrite decide_False by done.
    unfold removeFile. rewrite Hx. simpl. exists item. split; [|done].
    repeat case_decide; simplify_eq.
    - by rewrite list_lookup_delete_lt.
    - rewrite list_lookup_delete_ge by lia. by replace (S (i - 1)) with i by lia. }
  injection Htrack as <-.
  destruct e; cbn [handle].
  - exists item. split; [|done]. simpl. unfold addFiles_queue. by apply lookup_app_l_Some.
  - destruct (runBatchLogic_queue (engineMode st) st) as (new & -> & _).
    by apply mark_uploading_keeps.
  - unfold timerFire. destruct (timer st) as [m|]; [|by apply keeps_refl].
    unfold autoRun_callback.
    simpl. destruct (runBatchLogic_queue m (set_timer None st)) as (new & -> & _).
    by apply mark_uploading_keeps.
  - destruct (uploads st !! k) as [u|] eqn:Hu;
      [|unfold uploadReply; rewrite Hu; by apply keeps_refl].
    destruct (uploadReply_queue k resp st u Hu) as (new & -> & _).
    rewrite queue_processItem_resume.
    assert (∃ item', match resp with
                     | UploadOk jobId => patch_at (up_index u) (with_queued jobId) (queue st)
                     | _ => patch_at (up_index u)
                              (with_error (default "" (failure_message resp))) (queue st)
                     end !! i = Some item' ∧ file item' = file item ∧
                     (status item ≠ Idle → status item' ≠ Idle))
      as (item' & Hi' & Hf' & Hs').
    { destruct resp; by apply patch_keeps. }
    destruct (mark_uploading_keeps new _ i item' Hi') as (item'' & ? & ? & ?).
    exists item''. split_and!; [done|congruence|auto].
  - destruct (polls st !! k) as [p|] eqn:Hp;
      [|unfold poll; rewrite Hp; by apply keeps_refl].
    destruct (queue_poll k resp st p Hp) as (f & -> & Hf & Hst).
    by apply patch_keeps.
  - simpl in Hd. destruct (queue st !! index) as [x|] eqn:Hx; [|by apply keeps_refl].
    case_decide; [by apply keeps_refl|]. by apply bool_decide_eq_false in Hd.
  - simpl in Hd. unfold clearClick. destruct (isGlobalLoading st); [by apply keeps_refl|].
    case_decide as Hq; [by apply keeps_refl|]. case_decide as Hj; [|by apply keeps_refl].
    simpl in Hd. by rewrite !bool_decide_eq_true_2 in Hd.
  - simpl in Hd. unfold clearDone.
    destruct (pendingClears st) as [|n]; [by apply keeps_refl|].
    rewrite bool_decide_eq_true_2 in Hd by lia. simpl in Hd.
    apply bool_decide_eq_false in Hd. destruct (queue st); [done|]. by destruct Hd.
  - by apply keeps_refl.
  - simpl in Hd. unfold reportsLoaded.
    destruct (reportFetches st !! k) as [wasEmpty|]; [|by apply keeps_refl].
    destruct resp as [data|]; [|by apply keeps_refl].
    destruct wasEmpty; [|by apply keeps_refl].
    match goal with
    | |- context [decide (0 < ?n)] => destruct (decide (0 < n)) as [Hlen|Hlen]
    end; [|by apply keeps_refl].
    rewrite length_fmap, length_take in Hlen.
    rewrite bool_decide_eq_true_2 in Hd by lia. simpl in Hd.
    apply bool_decide_eq_false in Hd. destruct (queue st); [done|]. by destruct Hd.
  - by apply keeps_refl.
  - by apply keeps_refl.
  - by apply keeps_refl.
Qed.

Lemma run_events_keeps es st i j item :
  queue st !! i = Some item → track_events es st i = Some j →
  ∃ item', queue (run_events es st) !! j = Some item' ∧ file item' = file item ∧
           (status item ≠ Idle → status item' ≠ Idle).
Proof.
  revert st i item. induction es as [|e es IH]; intros st i item Hi Htrack.
  { injection Htrack as <-. eauto. }
  simpl in *. destruct (track e st i) as [i'|] eqn:Hi'; [|done].
  destruct (handle_keeps e st i i' item Hi Hi') as (item' & Hq & Hf & Hs').
  destruct (IH (step e st) i' item') as (item'' & ? & ? & ?); [|done|].
  - unfold step. by destruct (commit_sched (handle e st)) as (-> & _).
  - exists item''. split_and!; [done|congruence|auto].
Qed.


(** ** How a run proceeds *)






(** ** Claims on snapshots and on status transitions *)




(** C7, as stated, fails: with a.mp3 queued at position 0 and b.mp3 done
    at position 1, removing a.mp3 moves b.mp3 to position 0, where the
    poll loop of a.mp3 then writes: the finished b.mp3 is processing
    again. *)
Lemma done_record_overwritten :
  let es := [RemoveFile 0;
             PollReply 0 (PollOk (mkJobData JobProcessing None None))] in
  reachable st_second_done ∧
  file <$> queue st_second_done !! 1 = Some (IsFile (audio "b.mp3")) ∧
  status <$> queue st_second_done !! 1 = Some Done ∧
  track_events es st_second_done 1 = Some 0 ∧
  file <$> queue (run_events es st_second_done) !! 0 = Some (IsFile (audio "b.mp3")) ∧
  status <$> queue (run_events es st_second_done) !! 0 = Some Processing.
Proof.
  split; [apply reachable_from_init|].
  repeat split; vm_compute; reflexivity.
Qed.

(** C7 (amended). While no record is removed from or replaced in the
    queue, a task that is Done or Error is never written again; and in
    every execution a task that has left Idle is not Idle again for as
    long as it is in the queue, wherever removals move it. *)
Theorem status_never_regresses (st : State) (es : list Event) (i : nat)
    (item : QueueItem) :
  queue st !! i = Some item →
  (reachable_keeping st → keeps_records es st → terminal (status item) →
   queue (run_events es st) !! i = Some item) ∧
  (status item ≠ Idle → ∀ j, track_events es st i = Some j →
   ∃ item', queue (run_events es st) !! j = Some item' ∧
            file item' = file item ∧ status item' ≠ Idle).
Proof.
  intros Hi. split.
  - intros Hst Hkeep Hterm. by apply run_events_terminal.
  - intros Hs j Hj.
    destruct (run_events_keeps es st i j item Hi Hj) as (item' & ? & ? & ?).
    exists item'. split_and!; auto.
Qed.

Lemma status_never_regresses_witness :
  queue (run_events [PollReply 0 (PollOk (mkJobData JobProcessing None None))]
                    st_second_done) !! 1
  = Some (mkItem (IsFile (audio "b.mp3")) Done (Some "job-b")
                 (Some "http://localhost:8000/r/b") None) ∧
  ∃ item',
    queue (run_events [PollReply 0 (PollOk (mkJobData JobProcessing None None))]
                      st_second_done) !! 1 = Some item' ∧
    file item' = IsFile (audio "b.mp3") ∧ status item' ≠ Idle.
Proof.
  destruct (status_never_regresses st_second_done
    [PollReply 0 (PollOk (mkJobData JobProcessing None None))] 1
    (mkItem (IsFile (audio "b.mp3")) Done (Some "job-b")
            (Some "http://localhost:8000/r/b") None)) as [Hfinal Hnotidle].
  { vm_compute. reflexivity. }
  split.
  - apply Hfinal.
    + exists None, None,
        [AddFiles [audio "a.mp3"; audio "b.mp3"]; TimerFire;
         UploadReply 0 (UploadOk "job-a"); UploadReply 0 (UploadOk "job-b");
         PollReply 1 (PollOk (mkJobData JobCompleted (Some "/r/b") None))].
      split; [|reflexivity]. vm_compute. tauto.
    + vm_compute. tauto.
    + by left.
  - apply Hnotidle.
    + discriminate.
    + vm_compute. reflexivity.
Defined.

(** * Further properties *)

(** ** The concurrency limit *)

Lemma parse_digits_uint d a :
  parse_digits (Some (Z.of_nat a)) (NilEmpty.string_of_uint d)
  = Some (Z.of_nat (Nat.of_uint_acc d a)).
Proof.
  revert a. induction d; intros a; simpl; [done|..];
    rewrite <-IHd; do 2 f_equal; rewrite Nat.tail_mul_spec; lia.
Qed.

Lemma parseInt_String_of_nat n : parseInt (String_of_nat n) = Some (Z.of_nat n).
Proof.
  unfold String_of_nat.
  rewrite <-(DecimalNat.Unsigned.of_to n) at 2. unfold Nat.of_uint.
  destruct (Nat.to_uint n) as [|d|d|d|d|d|d|d|d|d|d] eqn:Hd.
  { pose proof (DecimalNat.Unsigned.of_to n) as Hn. rewrite Hd in Hn.
    simpl in Hn. subst n. done. }
  all: unfold parseInt; simpl; rewrite <-parse_digits_uint; do 2 f_equal;
    rewrite Nat.tail_mul_spec; lia.
Qed.


(** ** A run from its start *)

Lemma processNext_runs rid r st :
  runs st !! rid = Some r →
  ∃ r', runs (processNext rid st) = <[rid := r']> (runs st) ∧
        same_run r r' ∧ completedCount r' = completedCount r ∧
        stats (processNext rid st) = stats st ∧
        ((resolved r' = resolved r ∧
          isGlobalLoading (processNext rid st) = isGlobalLoading st) ∨
         (length (pendingIndices r) ≤ nextPendingRefIndex r ∧
          resolved r' = true ∧ isGlobalLoading (processNext rid st) = false)).
Proof.
  intros Hr. unfold processNext. rewrite Hr. case_decide as Hend.
  - exists (run_resolve r). simpl. split_and!; [done..|]. right. by destruct Hend.
  - destruct (launch_loop_spec rid (drop (nextPendingRefIndex r) (pendingIndices r)) r st)
      as (added & Hframe & _ & _ & _ & _ & _ & Hsame & Hc & Hres).
    destruct (launch_loop _ _ _ _) as [r' st'] eqn:Hloop. simpl in *.
    destruct (same_frame_proj _ _ Hframe)
      as (_ & _ & Hl & Hs & _ & _ & _ & _ & _ & _ & _ & _ & Hruns & _).
    exists r'. rewrite Hruns. split_and!; [done..|]. by left.
Qed.

Lemma runBatchLogic_started m st :
  isGlobalLoadingRef st = false → idle_indices (queueRef st) ≠ [] →
  ∃ r, runs (runBatchLogic m st) = runs st ++ [r] ∧
       pendingIndices r = idle_indices (queueRef st) ∧
       CONCURRENCY_LIMIT r = read_limit (concurrency_limit st) ∧
       run_mode r = m ∧ resolved r = false ∧ completedCount r = 0 ∧
       isGlobalLoading (runBatchLogic m st) = true ∧
       stats (runBatchLogic m st)
       = mkStats 0 (length (idle_indices (queueRef st))).
Proof.
  intros Href Hidle. unfold runBatchLogic. rewrite Href. case_decide as Hlen.
  { simpl in Hlen. by destruct (idle_indices (queueRef st)). }
  set (new_run := mkRun _ _ _ _ _ _ _ _). set (st2 := set_runs _ _).
  repeat match goal with
  | |- context [processNext ?a st2] =>
      progress change a with (length (runs st))
  end.
  destruct (processNext_runs (length (runs st)) new_run st2)
    as (r & Hruns & (Hp & Hl & Hm) & Hc & Hs & Hend).
  { by apply list_lookup_middle. }
  exists r. rewrite Hruns, Hs, Hp, Hl, Hm, Hc. simpl.
  split_and!; try done.
  - rewrite insert_app_r_alt by done. by rewrite Nat.sub_diag.
  - destruct Hend as [[-> _]|(Hle & _)]; [done|]. simpl in Hle, Hlen. lia.
  - destruct Hend as [[_ ->]|(Hle & _)]; [done|]. simpl in Hle, Hlen. lia.
Qed.

(** What starting a run does in a reachable state that is not loading and
    has idle records; [m] is the mode the starting closure holds. *)
Lemma step_started e m st :
  reachable st → isGlobalLoading st = false → idle_indices (queue st) ≠ [] →
  (e = RunBatch ∧ m = engineMode st) ∨ (e = TimerFire ∧ timer st = Some m) →
  ∃ r, runs (step e st) = runs st ++ [r] ∧
       active_run (step e st) (length (runs st)) r ∧
       pendingIndices r = idle_indices (queue st) ∧
       CONCURRENCY_LIMIT r = read_limit (concurrency_limit st) ∧
       run_mode r = m ∧ completedCount r = 0 ∧
       isGlobalLoading (step e st) = true ∧
       stats (step e st) = mkStats 0 (length (idle_indices (queue st))) ∧
       activeCount r = Z.of_nat (length (uploads (step e st))) ∧
       (activeCount r ≤ CONCURRENCY_LIMIT r)%Z.
Proof.
  intros Hst Hload Hidle He.
  pose proof (reachable_SchedInv st Hst) as ((Hqr & _ & Hlr & _) & _).
  assert (∃ r, runs (handle e st) = runs st ++ [r] ∧
       pendingIndices r = idle_indices (queue st) ∧
       CONCURRENCY_LIMIT r = read_limit (concurrency_limit st) ∧
       run_mode r = m ∧ resolved r = false ∧ completedCount r = 0 ∧
       isGlobalLoading (handle e st) = true ∧
       stats (handle e st) = mkStats 0 (length (idle_indices (queue st))))
    as (r & Hruns & Hp & Hl & Hm & Hres & Hc & Hg & Hs).
  { destruct He as [[-> ->]|[-> Htm]]; cbn [handle].
    - destruct (runBatchLogic_started (engineMode st) st) as (r & H);
        [congruence|by rewrite Hqr|].
      exists r. by rewrite <-Hqr.
    - unfold timerFire. rewrite Htm. unfold autoRun_callback.
      destruct (runBatchLogic_started m (set_timer None st)) as (r & H);
        [simpl; congruence|simpl; by rewrite Hqr|].
      exists r. simpl in *. by rewrite <-Hqr. }
  assert (runs (step e st) = runs st ++ [r] ∧
          isGlobalLoading (step e st) = true ∧
          stats (step e st) = mkStats 0 (length (idle_indices (queue st))))
    as (Hruns' & Hg' & Hs').
  { unfold step. destruct (commit_sched (handle e st))
      as (_ & -> & _ & _ & -> & _ & _ & _ & -> & _). done. }
  assert (runs (step e st) !! length (runs st) = Some r) as Hr.
  { rewrite Hruns'. by apply list_lookup_middle. }
  pose proof (reachable_SchedInv _ (reachable_step e st Hst)) as (_ & Hph & _).
  assert (activeCount r = Z.of_nat (length (uploads (step e st))) ∧
          (activeCount r ≤ CONCURRENCY_LIMIT r)%Z) as [Hac Hle].
  { destruct Hph as [(_ & _ & Hall)|(_ & rid & r1 & [Hr1 Hres1] & Hothers & _ & Hac & _ & Hle)].
    { rewrite Forall_lookup in Hall. specialize (Hall _ _ Hr). congruence. }
    destruct (decide (rid = length (runs st))) as [->|Hne].
    - assert (r1 = r) as -> by congruence. done.
    - specialize (Hothers _ _ Hr (not_eq_sym Hne)). congruence. }
  exists r. by split_and!.
Qed.

(** X1. The settings slider stores the decimal text of its value, and the
    next run reads it back: after the slider was set to [n >= 1], a run
    started from the footer button has limit [n], and at most [n] uploads
    are in flight once it has started. *)
Theorem slider_sets_next_limit (st : State) (n : nat) :
  reachable st → isGlobalLoading st = false → idle_indices (queue st) ≠ [] →
  1 ≤ n →
  let st' := run_events [SetConcurrency (String_of_nat n); RunBatch] st in
  ∃ r, active_run st' (length (runs st)) r ∧
       CONCURRENCY_LIMIT r = Z.of_nat n ∧
       length (uploads st') ≤ n.
Proof.
  intros Hst Hload Hidle Hn st'.
  set (st1 := step (SetConcurrency (String_of_nat n)) st).
  assert (reachable st1) as Hst1 by by apply reachable_step.
  assert (queue st1 = queue st ∧ runs st1 = runs st ∧
          isGlobalLoading st1 = isGlobalLoading st ∧
          concurrency_limit st1 = Some (String_of_nat n)) as (Hq & Hr & Hl & Hc).
  { unfold st1, step.
    destruct (commit_sched (handle (SetConcurrency (String_of_nat n)) st))
      as (-> & -> & _ & _ & -> & _ & _ & _ & _ & _ & -> & _). done. }
  destruct (step_started RunBatch (engineMode st1) st1)
    as (r & _ & Hact & _ & Hlim & _ & _ & _ & _ & Hac & Hle);
    [done|congruence|by rewrite Hq|by left|].
  rewrite Hr in Hact.
  assert (st' = step RunBatch st1) as -> by reflexivity.
  assert (CONCURRENCY_LIMIT r = Z.of_nat n) as HrN.
  { rewrite Hlim, Hc. apply read_limit_configured; [apply parseInt_String_of_nat|lia]. }
  exists r. split_and!; [done|done|lia].
Qed.

Lemma slider_sets_next_limit_witness :
  ∃ r, active_run (run_events [SetConcurrency (String_of_nat 3); RunBatch] st_queued4)
                  (length (runs st_queued4)) r ∧
       CONCURRENCY_LIMIT r = Z.of_nat 3 ∧
       length (uploads (run_events [SetConcurrency (String_of_nat 3); RunBatch]
                                   st_queued4)) ≤ 3.
Proof.
  apply (slider_sets_next_limit st_queued4 3).
  - apply reachable_from_init.
  - vm_compute. reflexivity.
  - vm_compute. discriminate.
  - lia.
Defined.


(** ** The footer button and the loading flag *)

Lemma length_idle_from k q : length (idle_from k q) = idle_count q.
Proof.
  revert k. induction q as [|x q IH]; intros k; [done|].
  rewrite idle_from_cons, length_app, IH. unfold idle_count.
  rewrite filter_cons. by case_decide.
Qed.

Lemma length_idle_indices q : length (idle_indices q) = idle_count q.
Proof. rewrite idle_indices_from. apply length_idle_from. Qed.

Lemma idle_indices_nil q : idle_indices q = [] ↔ idle_count q = 0.
Proof. rewrite <-length_idle_indices. by destruct (idle_indices q). Qed.

Lemma runBatchLogic_nothing_idle m st :
  committed st → isGlobalLoading st = false → idle_indices (queue st) = [] →
  runBatchLogic m st = st.
Proof.
  intros (Hqr & _ & Hlr & _) Hload Hidle. unfold runBatchLogic.
  rewrite Hlr, Hload. simpl. rewrite Hqr, Hidle. simpl.
  destruct st. simpl in *. by subst.
Qed.

(** X3. The footer button is disabled exactly when pressing it would do
    nothing: while a run is loading or when no record is idle, [runBatch]
    leaves the state as it is; otherwise it starts one run over the idle
    records, the dialog is loading afterwards, and the progress indicator
    starts at 0 of the count the button showed. *)
Theorem run_button_disabled_iff_noop (st : State) :
  reachable st →
  (run_disabled st = true → step RunBatch st = st) ∧
  (run_disabled st = false →
   ∃ r, runs (step RunBatch st) = runs st ++ [r] ∧
        pendingIndices r = idle_indices (queue st) ∧
        resolved r = false ∧
        isGlobalLoading (step RunBatch st) = true ∧
        run_disabled (step RunBatch st) = true ∧
        stats (step RunBatch st) = mkStats 0 (idle_count (queue st))).
Proof.
  intros Hst. pose proof (reachable_SchedInv st Hst) as (Hc & _ & _).
  unfold run_disabled. split.
  - intros Hd. unfold step. cbn [handle].
    destruct (isGlobalLoading st) eqn:Hload.
    + pose proof Hc as (_ & _ & Hlr & _).
      unfold runBatchLogic. rewrite Hlr, Hload. by apply commit_id.
    + simpl in Hd. apply bool_decide_eq_true, idle_indices_nil in Hd.
      rewrite runBatchLogic_nothing_idle by done. by apply commit_id.
  - intros Hd. apply orb_false_iff in Hd as [Hload Hd].
    apply bool_decide_eq_false in Hd. rewrite <-idle_indices_nil in Hd.
    destruct (step_started RunBatch (engineMode st) st Hst Hload Hd)
      as (r & Hruns & [_ Hres] & Hp & _ & _ & _ & Hg & Hs & _); [by left|].
    exists r. rewrite Hg. rewrite length_idle_indices in Hs. by split_and!.
Qed.

Lemma run_button_disabled_iff_noop_witness :
  step RunBatch st_running = st_running.
Proof.
  refine (proj1 (run_button_disabled_iff_noop st_running _) _).
  - apply reachable_from_init.
  - vm_compute. reflexivity.
Defined.



(** ** The auto-run trigger *)

Lemma handle_keeps_request e st :
  e ≠ TimerFire → shouldAutoRun st = true → shouldAutoRun (handle e st) = true.
Proof.
  intros He Hs. destruct e; simpl; try done.
  - destruct (sched_frame_proj _ _ (runBatchLogic_frame (engineMode st) st))
      as (_&_&_&->&_). done.
  - destruct (sched_frame_proj _ _ (uploadReply_frame k resp st)) as (_&_&_&->&_).
    done.
  - destruct (sched_frame_proj _ _ (poll_frame k resp st)) as (_&_&_&->&_). done.
  - destruct (queue st !! index) as [item|] eqn:Hi; [|done].
    case_decide; [done|]. unfold removeFile. by rewrite Hi.
  - unfold clearClick. destruct (isGlobalLoading st); [done|].
    by repeat case_decide.
  - unfold clearDone. by destruct (pendingClears st).
  - unfold reportsLoaded. destruct (reportFetches st !! k) as [[]|]; [| |done];
      destruct resp as [data|]; by repeat case_decide.
Qed.

Lemma run_events_keeps_request es st :
  Forall (λ e, e ≠ TimerFire) es → shouldAutoRun st = true →
  shouldAutoRun (run_events es st) = true.
Proof.
  intros Hes. revert st. induction Hes as [|e es He _ IH]; intros st Hs; [done|].
  simpl. apply IH. unfold step.
  destruct (commit_sched (handle e st)) as (_&_&_&_&_&->&_).
  by apply handle_keeps_request.
Qed.

(** X5. The debounce timer is pending exactly when a run was requested and
    none is loading.  A request made by appending files is never lost: it
    stays until the timer callback runs, so if the append came while a run
    was loading, the timer is armed as soon as that run has ended. *)
Theorem run_request_is_deferred (st : State) (es : list Event) :
  reachable st →
  (is_Some (timer st) ↔ shouldAutoRun st = true ∧ isGlobalLoading st = false) ∧
  (shouldAutoRun st = true → Forall (λ e, e ≠ TimerFire) es →
   shouldAutoRun (run_events es st) = true ∧
   (isGlobalLoading (run_events es st) = false →
    is_Some (timer (run_events es st)))).
Proof.
  intros Hst. pose proof (reachable_SchedInv st Hst) as (_ & _ & Htm).
  split; [done|]. intros Hs Hes.
  pose proof (run_events_keeps_request es st Hes Hs) as Hs'.
  split; [done|]. intros Hl.
  pose proof (reachable_SchedInv _ (reachable_run_events es st Hst)) as (_ & _ & Htm').
  by apply Htm'.
Qed.

Lemma run_request_is_deferred_witness :
  shouldAutoRun (run_events [UploadReply 0 (UploadOk "job-1")]
                            (step (AddFiles [audio "b"]) st_running)) = true ∧
  is_Some (timer (run_events [UploadReply 0 (UploadOk "job-1")]
                             (step (AddFiles [audio "b"]) st_running))).
Proof.
  destruct (run_request_is_deferred (step (AddFiles [audio "b"]) st_running)
              [UploadReply 0 (UploadOk "job-1")]) as [_ Hdef].
  { apply reachable_step, reachable_from_init. }
  destruct Hdef as [Hflag Htimer].
  - vm_compute. reflexivity.
  - repeat constructor. discriminate.
  - split; [exact Hflag|]. apply Htimer. vm_compute. reflexivity.
Defined.

(** ** Appending files *)

Lemma extension_candidate (fileName : string) k :
  extension (candidate_name (split_name fileName).1 (split_name fileName).2 k) =
  (split_name fileName).2.
Proof.
  destruct (split_name_spec fileName) as [_ Hext].
  set (n := (split_name fileName).1) in *. set (e := (split_name fileName).2) in *.
  unfold extension, split_name, candidate_name.
  assert (lastIndexOf "." ("_" +:+ padStart 2 "0" (String_of_nat k)) = None) as Hs.
  { rewrite sapp_cons, sapp_nil_l. simpl. by rewrite suffix_no_dot. }
  destruct Hext as [[-> Hn]|(e' & -> & He')].
  - rewrite sapp_nil_r. unfold candidate_base.
    rewrite lastIndexOf_app, Hs, Hn. done.
  - rewrite lastIndexOf_app. simpl. rewrite He'. simpl.
    by rewrite Nat.add_0_r, substring_from_app.
Qed.

Lemma addFiles_loop_acc E q acc fs :
  addFiles_loop E q acc fs = acc ++ addFiles_loop E (q ++ acc) [] fs.
Proof.
  revert q acc. induction fs as [|f fs IH]; intros q acc; simpl.
  { by rewrite app_nil_r. }
  rewrite (IH q). rewrite (IH (q ++ acc)).
  rewrite !app_nil_r, <-!app_assoc. done.
Qed.

Lemma addFiles_queue_nil E q : addFiles_queue E [] q = q.
Proof. unfold addFiles_queue. simpl. apply app_nil_r. Qed.

Lemma addFiles_queue_cons E f fs q :
  addFiles_queue E (f :: fs) q =
  addFiles_queue E fs (q ++ [new_item (getUniqueFileName E (name f) q) f]).
Proof.
  unfold addFiles_queue. simpl. rewrite addFiles_loop_acc.
  rewrite !app_nil_r, <-app_assoc. done.
Qed.

Lemma addFiles_queue_app E fs1 fs2 q :
  addFiles_queue E (fs1 ++ fs2) q = addFiles_queue E fs2 (addFiles_queue E fs1 q).
Proof.
  revert q. induction fs1 as [|f fs1 IH]; intros q; simpl.
  { by rewrite addFiles_queue_nil. }
  by rewrite !addFiles_queue_cons, IH.
Qed.

Lemma addFiles_queue_length E fs q :
  length (addFiles_queue E fs q) = length q + length fs.
Proof.
  revert q. induction fs as [|f fs IH]; intros q.
  { rewrite addFiles_queue_nil. simpl. lia. }
  rewrite addFiles_queue_cons, IH, length_app. simpl. lia.
Qed.

Lemma addFiles_queue_prefix E fs q i item :
  q !! i = Some item → addFiles_queue E fs q !! i = Some item.
Proof.
  revert q. induction fs as [|f fs IH]; intros q Hi.
  { by rewrite addFiles_queue_nil. }
  rewrite addFiles_queue_cons. apply IH. by apply lookup_app_l_Some.
Qed.

Lemma resolved_name_free E fileName q :
  (getUniqueFileName E fileName q ∉ queue_names q) ∧
  (stem (getUniqueFileName E fileName q) ∉ E) ∧
  extension (getUniqueFileName E fileName q) = extension fileName.
Proof.
  destruct (getUniqueFileName_cases E fileName q)
    as [[Hf ->]|(_ & k & _ & -> & Hf & _)].
  - apply isDuplicate_false in Hf as [? ?]. done.
  - apply isDuplicate_false in Hf as [? ?]. rewrite stem_candidate.
    by rewrite extension_candidate.
Qed.

Lemma addFiles_queue_new E fs q k f :
  fs !! k = Some f →
  ∃ n, addFiles_queue E fs q !! (length q + k) = Some (new_item n f) ∧
       n = getUniqueFileName E (name f) (take (length q + k) (addFiles_queue E fs q)).
Proof.
  revert q k. induction fs as [|g fs IH]; intros q k Hk; [done|].
  rewrite addFiles_queue_cons. destruct k as [|k]; simpl in Hk.
  - injection Hk as ->. eexists. split.
    + apply addFiles_queue_prefix. rewrite Nat.add_0_r. apply list_lookup_middle. done.
    + f_equal. rewrite Nat.add_0_r. symmetry. apply list_eq. intros i.
      destruct (decide (i < length q)) as [Hi|Hi].
      * rewrite lookup_take_lt by done.
        destruct (lookup_lt_is_Some_2 q i Hi) as [x Hx]. rewrite Hx.
        apply addFiles_queue_prefix. by apply lookup_app_l_Some.
      * rewrite lookup_take_ge by lia. symmetry. apply lookup_ge_None. lia.
  - destruct (IH (q ++ [new_item (getUniqueFileName E (name g) q) g]) k Hk)
      as (n & Hn & Heq).
    rewrite length_app in Hn, Heq. simpl in Hn, Heq.
    replace (length q + 1 + k) with (length q + S k) in Hn, Heq by lia.
    eauto.
Qed.

Lemma queue_names_app q1 q2 : queue_names (q1 ++ q2) = queue_names q1 ++ queue_names q2.
Proof. unfold queue_names. apply fmap_app. Qed.

Lemma addFiles_queue_NoDup E fs q :
  NoDup (queue_names q) → NoDup (queue_names (addFiles_queue E fs q)).
Proof.
  revert q. induction fs as [|f fs IH]; intros q Hq.
  { by rewrite addFiles_queue_nil. }
  rewrite addFiles_queue_cons. apply IH. rewrite queue_names_app.
  apply NoDup_app. split; [done|]. split.
  - intros x Hx Hin. apply list_elem_of_singleton in Hin. simpl in Hin. subst x.
    by destruct (resolved_name_free E (name f) q) as [? _].
  - apply NoDup_singleton.
Qed.

(** X6. The resolver never changes the extension: the resolved name has
    the extension of the proposed one, and its stem is the proposed stem,
    alone or followed by an underscore and a padded counter. *)
Theorem resolver_keeps_extension (existingNames : gset string)
    (fileName : string) (currentQueue : list QueueItem) :
  let r := getUniqueFileName existingNames fileName currentQueue in
  extension r = extension fileName ∧
  r = stem r +:+ extension fileName ∧
  (stem r = stem fileName ∨
   ∃ k, 1 ≤ k ∧ stem r = stem fileName +:+ "_" +:+ padStart 2 "0" (String_of_nat k)).
Proof.
  intros r.
  destruct (resolved_name_free existingNames fileName currentQueue) as (_ & _ & He).
  fold r in He. split; [done|]. split.
  - rewrite <-He. apply split_name_spec.
  - unfold r.
    destruct (getUniqueFileName_cases existingNames fileName currentQueue)
      as [[_ ->]|(_ & k & Hk & -> & _)]; [by left|].
    right. exists k. split; [done|]. apply stem_candidate.
Qed.

(** X7. [addFiles] appends one idle record per file, in the order given,
    with the file's type and content and the name the resolver gives it
    against the records before it; the records already there stay as they
    are, no appended name has its stem in the history, and queue names that
    were pairwise distinct stay so. *)
Theorem addFiles_appends_idle_records (existingNames : gset string)
    (newFiles : list File) (prev : list QueueItem) :
  let q := addFiles_queue existingNames newFiles prev in
  length q = length prev + length newFiles ∧
  take (length prev) q = prev ∧
  (∀ k f, newFiles !! k = Some f →
     ∃ n, q !! (length prev + k) = Some (new_item n f) ∧
          n = getUniqueFileName existingNames (name f) (take (length prev + k) q) ∧
          (stem n ∉ existingNames) ∧ extension n = extension (name f)) ∧
  (NoDup (queue_names prev) → NoDup (queue_names q)).
Proof.
  intros q. split_and!.
  - apply addFiles_queue_length.
  - unfold q, addFiles_queue. by rewrite take_app_length.
  - intros k f Hk.
    destruct (addFiles_queue_new existingNames newFiles prev k f Hk) as (n & Hn & Heq).
    exists n. split; [done|]. split; [done|]. rewrite Heq.
    by destruct (resolved_name_free existingNames (name f)
                   (take (length prev + k) q)) as (_ & ? & ?).
  - apply addFiles_queue_NoDup.
Qed.

Lemma step_AddFiles fs st :
  committed st →
  step (AddFiles fs) st =
  mkState (addFiles_queue (existingNames st) fs (queue st)) (text st)
    (engineMode st) (isGlobalLoading st) (stats st) (existingNames st) true
    (addFiles_queue (existingNames st) fs (queue st)) (text st)
    (isGlobalLoading st) (concurrency_limit st)
    (if shouldAutoRun st then timer st
     else if isGlobalLoading st then None else Some (engineMode st))
    (true, isGlobalLoading st) (runs st) (uploads st) (polls st)
    (reportFetches st) (pendingClears st).
Proof.
  intros (Hqr & Ht & Hlr & He). unfold step. cbn [handle]. unfold addFiles, commit.
  destruct st as [q t m l s E a qr tr lr c tm d rs us ps fs' pc].
  simpl in *. subst qr tr lr d.
  destruct a, l; simpl; repeat case_decide; simplify_eq; done.
Qed.

(** X8. Appending files in one batch or in consecutive batches gives the
    same queue, and between two renders the same component state. *)
Theorem addFiles_in_batches (fs1 fs2 : list File) (st : State) :
  addFiles_queue (existingNames st) (fs1 ++ fs2) (queue st)
  = addFiles_queue (existingNames st) fs2
      (addFiles_queue (existingNames st) fs1 (queue st)) ∧
  (committed st →
   run_events [AddFiles fs1; AddFiles fs2] st = step (AddFiles (fs1 ++ fs2)) st).
Proof.
  split; [apply addFiles_queue_app|].
  intros Hc. change (run_events [AddFiles fs1; AddFiles fs2] st)
    with (step (AddFiles fs2) (step (AddFiles fs1) st)).
  rewrite (step_AddFiles fs2) by apply commit_committed.
  rewrite !step_AddFiles by done. simpl. by rewrite addFiles_queue_app.
Qed.

Lemma addFiles_in_batches_witness :
  run_events [AddFiles [audio "a"]; AddFiles [audio "a"]] (init None None)
  = step (AddFiles ([audio "a"] ++ [audio "a"])) (init None None).
Proof.
  refine (proj2 (addFiles_in_batches [audio "a"] [audio "a"] (init None None)) _).
  vm_compute. by split_and!.
Defined.

Lemma new_records_idle E fs q i :
  length q ≤ i < length q + length fs → i ∈ idle_indices (addFiles_queue E fs q).
Proof.
  intros Hi. apply elem_of_idle_indices.
  destruct (lookup_lt_is_Some_2 fs (i - length q)) as [f Hf]; [lia|].
  destruct (addFiles_queue_new E fs q (i - length q) f Hf) as (n & Hn & _).
  replace (length q + (i - length q)) with i in Hn by lia. eauto.
Qed.

(** X9. Choosing or dropping files starts a run by itself: an empty or
    missing file list is ignored; a non-empty one, in a reachable state
    that is not loading, arms the debounce timer (with the engine mode of
    that render unless a timer was pending already), and when the timer
    fires a run starts whose snapshot holds every idle record, all the
    appended ones among them, in the mode the timer held; the request flag
    and the timer are cleared. *)
Theorem dropped_files_start_a_run (st : State) (files : list File) :
  reachable st → isGlobalLoading st = false → files ≠ [] →
  let st1 := commit (handleDrop (Some files) st) in
  let st2 := step TimerFire st1 in
  commit (handleDrop (Some []) st) = st ∧ commit (handleFileChange None st) = st ∧
  st1 = step (AddFiles files) st ∧
  (shouldAutoRun st = false → timer st1 = Some (engineMode st)) ∧
  ∃ r, active_run st2 (length (runs st)) r ∧
       timer st1 = Some (run_mode r) ∧
       pendingIndices r = idle_indices (queue st1) ∧
       (∀ i, length (queue st) ≤ i < length (queue st) + length files →
             i ∈ pendingIndices r) ∧
       shouldAutoRun st2 = false ∧ timer st2 = None.
Proof.
  intros Hst Hload Hfiles st1 st2.
  pose proof (reachable_SchedInv st Hst) as (Hc & _ & Htm).
  assert (st1 = step (AddFiles files) st) as Hst1.
  { unfold st1, handleDrop, handleFileChange. by destruct files. }
  split_and!; [by apply commit_id|by apply commit_id|done| |].
  { intros Hs. rewrite Hst1, step_AddFiles by done. simpl. by rewrite Hs, Hload. }
  assert (reachable st1) as Hr1 by (rewrite Hst1; by apply reachable_step).
  assert (queue st1 = addFiles_queue (existingNames st) files (queue st) ∧
          runs st1 = runs st ∧ isGlobalLoading st1 = false ∧
          is_Some (timer st1)) as (Hq1 & Hruns1 & Hl1 & [m Hm]).
  { rewrite Hst1, step_AddFiles by done. simpl. split_and!; [done..|].
    rewrite Hload. destruct (shouldAutoRun st) eqn:Hs; [|by eauto].
    apply Htm. by split. }
  destruct (step_started TimerFire m st1) as (r & _ & Hact & Hp & _ & Hmode & _);
    [done|done| |by right|].
  { rewrite Hq1. intros Hnil.
    destruct files as [|f fs]; [done|].
    pose proof (new_records_idle (existingNames st) (f :: fs) (queue st)
                  (length (queue st))) as Hin.
    rewrite Hnil in Hin. apply elem_of_nil in Hin; [done|]. simpl. lia. }
  fold st2 in Hact. rewrite Hruns1 in Hact.
  assert (shouldAutoRun st2 = false) as Hs2.
  { unfold st2, step. destruct (commit_sched (handle TimerFire st1))
      as (_&_&_&_&_&->&_). cbn [handle]. unfold timerFire. by rewrite Hm. }
  exists r. split_and!; [done|by rewrite Hmode|done| |done|].
  - intros i Hi. rewrite Hp, Hq1. by apply new_records_idle.
  - pose proof (reachable_SchedInv st2 (reachable_step TimerFire st1 Hr1))
      as (_ & _ & Htm2).
    destruct (timer st2) eqn:Ht2; [|done].
    destruct (proj1 Htm2) as [? _]; [by eauto|congruence].
Qed.

Lemma dropped_files_start_a_run_witness :
  commit (handleDrop (Some [audio "a"]) (init None None))
  = step (AddFiles [audio "a"]) (init None None).
Proof.
  refine (proj1 (proj2 (proj2
    (dropped_files_start_a_run (init None None) [audio "a"] _ _ _)))).
  - apply (reachable_from_init []).
  - reflexivity.
  - discriminate.
Defined.

(** ** Writes by position *)

Lemma fmap_file_patch i f (q : list QueueItem) :
  (∀ x, file (f x) = file x) → file <$> patch_at i f q = file <$> q.
Proof.
  intros Hf. apply list_eq. intros j.
  rewrite !list_lookup_fmap, lookup_patch_at.
  case_decide; [|done]. destruct (q !! j); simpl; by rewrite ?Hf.
Qed.

Lemma fmap_file_mark new (q : list QueueItem) :
  file <$> mark_uploading new q = file <$> q.
Proof.
  revert q. induction new as [|i new IH]; intros q; [done|].
  simpl. by rewrite IH, fmap_file_patch.
Qed.

Lemma handle_keeps_files e st :
  edits_queue e = false → file <$> queue (handle e st) = file <$> queue st.
Proof.
  intros He. destruct e; try done; cbn [handle].
  - destruct (runBatchLogic_queue (engineMode st) st) as (new & -> & _).
    apply fmap_file_mark.
  - unfold timerFire. destruct (timer st) as [m|]; [|done]. unfold autoRun_callback.
    simpl. destruct (runBatchLogic_queue m (set_timer None st)) as (new & -> & _).
    apply fmap_file_mark.
  - destruct (uploads st !! k) as [u|] eqn:Hu; [|by unfold uploadReply; rewrite Hu].
    destruct (uploadReply_queue k resp st u Hu) as (new & -> & _).
    rewrite fmap_file_mark, queue_processItem_resume.
    destruct resp; by apply fmap_file_patch.
  - destruct (polls st !! k) as [p|] eqn:Hp; [|by unfold poll; rewrite Hp].
    destruct (queue_poll k resp st p Hp) as (f & -> & Hf & _).
    by apply fmap_file_patch.
Qed.

(** X10. The scheduler and the task runner write to records by position
    and never add, remove, reorder or rename one: whatever a run, a timer,
    an upload reply or a poll reply does, the queue holds the same files in
    the same order afterwards; a write aimed at a position that is gone
    (the queue was cleared meanwhile) is ignored. *)
Theorem writes_keep_the_files (e : Event) (st : State) :
  edits_queue e = false →
  file <$> queue (step e st) = file <$> queue st ∧
  length (queue (step e st)) = length (queue st) ∧
  (queue st = [] → queue (step e st) = []).
Proof.
  intros He.
  assert (file <$> queue (step e st) = file <$> queue st) as Hf.
  { unfold step. destruct (commit_sched (handle e st)) as (-> & _).
    by apply handle_keeps_files. }
  assert (length (queue (step e st)) = length (queue st)) as Hl.
  { by rewrite <-(length_fmap file), Hf, length_fmap. }
  split_and!; [done..|].
  intros Hq. rewrite Hq in Hl. by destruct (queue (step e st)).
Qed.

Lemma writes_keep_the_files_witness :
  length (queue (step (PollReply 0 (PollThrows "offline")) st_polling))
  = length (queue st_polling).
Proof.
  refine (proj1 (proj2 (writes_keep_the_files
    (PollReply 0 (PollThrows "offline")) st_polling _))).
  reflexivity.
Defined.

(** ** The report history *)

Lemma elem_of_history (data : list Report) (n : string) :
  n ∈ (list_to_set (filter (λ n : string, n ≠ "") (student_name <$> data)) : gset string)
  ↔ n ≠ "" ∧ ∃ r, r ∈ data ∧ student_name r = n.
Proof.
  rewrite elem_of_list_to_set, list_elem_of_filter, list_elem_of_fmap.
  split; intros [Hn (r & ? & ?)]; (split; [done|]); exists r; by split.
Qed.

Lemma reportsLoaded_opened b resp st :
  reportsLoaded (length (reportFetches st)) resp
    (set_reportFetches (λ fs, fs ++ [b]) st)
  = match resp with
    | None => st
    | Some data =>
        let names : gset string :=
          list_to_set (filter (λ n : string, n ≠ "") (student_name <$> data)) in
        let st := set_existingNames names st in
        if b then
          if decide (0 < length (recent_item <$> take 5 data))
          then set_queue (λ _, recent_item <$> take 5 data) st else st
        else st
    end.
Proof.
  unfold reportsLoaded. simpl. rewrite list_lookup_middle by done.
  destruct st as [q t m l s E a qr tr lr c tm d rs us ps fs pc]. simpl.
  destruct resp as [data|]; simpl.
  - destruct b; [case_decide|]; unfold set_queue, set_existingNames; simpl;
      by rewrite delete_middle, app_nil_r.
  - unfold set_reportFetches. simpl. by rewrite delete_middle, app_nil_r.
Qed.

(** X11. Loading the report history when the dialog opens: the history
    names become exactly the non-empty student names of the reply, whatever
    they were.  If the queue was empty when the request left and the reply
    is not empty, the queue becomes the first five reports as finished
    name-only records carrying the report's id and location; otherwise the
    queue is left alone.  A file appended afterwards never gets a name
    whose stem is one of these student names.  A failed request changes
    nothing. *)
Theorem history_is_loaded (st : State) (data : list Report) :
  let k := length (reportFetches st) in
  let st' := run_events [OpenModal; ReportsLoaded k (Some data)] st in
  (∀ n, n ∈ existingNames st' ↔ n ≠ "" ∧ ∃ r, r ∈ data ∧ student_name r = n) ∧
  (queue st = [] → data ≠ [] →
   queue st' = recent_item <$> take 5 data ∧ 0 < length (queue st') ≤ 5 ∧
   Forall (λ item, status item = Done ∧ is_Some (jobId item) ∧
                   ∃ n, file item = NameOnly n) (queue st')) ∧
  (queue st ≠ [] ∨ data = [] → queue st' = queue st) ∧
  (∀ fs i item r, queue (step (AddFiles fs) st') !! i = Some item →
     length (queue st') ≤ i → r ∈ data → student_name r ≠ "" →
     stem (file_name (file item)) ≠ student_name r) ∧
  (committed st → run_events [OpenModal; ReportsLoaded k None] st = st).
Proof.
  intros k st'.
  assert (∀ resp, run_events [OpenModal; ReportsLoaded k resp] st =
            commit (reportsLoaded k resp
                      (commit (set_reportFetches
                                 (λ fs, fs ++ [bool_decide (queue st = [])]) st))))
    as Hrun by done.
  assert (∀ s, reportFetches (commit s) = reportFetches s) as Hcf.
  { intros s. by destruct (commit_sched s) as (_&_&_&_&_&_&_&_&_&_&_&->&_). }
  assert (∀ s, queue (commit s) = queue s) as Hcq.
  { intros s. by destruct (commit_sched s) as (->&_). }
  assert (∀ s, existingNames (commit s) = existingNames s) as Hce.
  { intros s. by destruct (commit_sched s) as (_&_&_&_&_&_&_&_&_&->&_). }
  set (opened := commit (set_reportFetches
                           (λ fs, fs ++ [bool_decide (queue st = [])]) st)).
  assert (reportFetches opened = reportFetches st ++ [bool_decide (queue st = [])]
          ∧ queue opened = queue st) as [Hfo Hqo].
  { unfold opened. by rewrite Hcf, Hcq. }
  assert (existingNames st' =
            list_to_set (filter (λ n : string, n ≠ "") (student_name <$> data))
          ∧ queue st' =
            if bool_decide (queue st = []) then
              if decide (0 < length (recent_item <$> take 5 data))
              then recent_item <$> take 5 data else queue st
            else queue st) as [HE Hq].
  { unfold st'. rewrite Hrun. fold opened. rewrite Hce, Hcq.
    unfold reportsLoaded. unfold k. rewrite Hfo, list_lookup_middle by done.
    destruct (bool_decide (queue st = [])); [case_decide|]; simpl; by rewrite ?Hqo. }
  split_and!.
  - intros n. rewrite HE. apply elem_of_history.
  - intros Hempty Hdata. rewrite Hq, bool_decide_eq_true_2 by done.
    assert (0 < length (recent_item <$> take 5 data) ≤ 5) as Hlen.
    { rewrite length_fmap, length_take. destruct data; [done|]. cbn [length]. lia. }
    rewrite decide_True by lia. split_and!; [done|lia..|].
    apply Forall_fmap, Forall_forall. intros r _. simpl. eauto.
  - intros Hor. rewrite Hq. case_bool_decide as Hempty; [|done].
    destruct Hor as [?|Hd]; [done|]. subst data. by rewrite decide_False by (simpl; lia).
  - intros fs i item r Hi Hge Hr Hname Hstem.
    assert (queue (step (AddFiles fs) st')
            = addFiles_queue (existingNames st') fs (queue st')) as Hadd.
    { unfold step. by rewrite Hcq. }
    rewrite Hadd in Hi.
    assert (i < length (queue st') + length fs) as Hlt.
    { apply lookup_lt_Some in Hi. by rewrite addFiles_queue_length in Hi. }
    destruct (lookup_lt_is_Some_2 fs (i - length (queue st'))) as [f Hf]; [lia|].
    destruct (addFiles_queue_new (existingNames st') fs (queue st')
                (i - length (queue st')) f Hf) as (n & Hn & Heq).
    replace (length (queue st') + (i - length (queue st'))) with i in Hn, Heq by lia.
    rewrite Hi in Hn. injection Hn as ->. simpl in Hstem.
    destruct (resolved_name_free (existingNames st') (name f)
                (take i (addFiles_queue (existingNames st') fs (queue st'))))
      as (_ & Hfree & _).
    rewrite <-Heq in Hfree. apply Hfree. rewrite HE.
    apply elem_of_history. rewrite Hstem. eauto.
  - intros Hc. rewrite Hrun. fold opened.
    assert (opened = set_reportFetches
                       (λ fs, fs ++ [bool_decide (queue st = [])]) st) as ->.
    { unfold opened. apply commit_id. by destruct Hc as (? & ? & ? & ?). }
    unfold k. rewrite reportsLoaded_opened. by apply commit_id.
Qed.

Lemma history_is_loaded_witness :
  queue (run_events [OpenModal;
                     ReportsLoaded (length (reportFetches (init None None)))
                                   (Some [mkReport "ann" "/r/1" "id-1"])]
                    (init None None))
  = recent_item <$> take 5 [mkReport "ann" "/r/1" "id-1"].
Proof.
  refine (proj1 (proj1 (proj2 (history_is_loaded (init None None)
                                 [mkReport "ann" "/r/1" "id-1"])) _ _)).
  - reflexivity.
  - discriminate.
Defined.

(** X12. The history request keeps the queue of the render it left from:
    files appended between opening the dialog and the reply are replaced,
    together with everything else in the queue, by the first five reports,
    if the queue was empty at opening and the reply is not empty. *)
Theorem history_reply_replaces_queue (st : State) (es : list Event)
    (data : list Report) :
  queue st = [] → data ≠ [] →
  Forall (λ e, match e with
               | OpenModal | ReportsLoaded _ _ => False
               | _ => True
               end) es →
  queue (run_events (OpenModal :: es ++
                     [ReportsLoaded (length (reportFetches st)) (Some data)]) st)
  = recent_item <$> take 5 data.
Proof.
  intros Hempty Hdata Hes.
  assert (∀ s, reportFetches (commit s) = reportFetches s) as Hcf.
  { intros s. by destruct (commit_sched s) as (_&_&_&_&_&_&_&_&_&_&_&->&_). }
  assert (∀ s, queue (commit s) = queue s) as Hcq.
  { intros s. by destruct (commit_sched s) as (->&_). }
  assert (∀ es s, Forall (λ e, match e with
                               | OpenModal | ReportsLoaded _ _ => False
                               | _ => True
                               end) es →
            reportFetches (run_events es s) = reportFetches s) as Hkeep.
  { clear. intros es. induction es as [|e es IH]; intros s Hes; [done|].
    inversion Hes as [|? ? He Hes']; subst. simpl. rewrite IH by done.
    unfold step. destruct (commit_sched (handle e s)) as (_&_&_&_&_&_&_&_&_&_&_&->&_).
    destruct e; try done; cbn [handle].
    - by destruct (sched_frame_proj _ _ (runBatchLogic_frame (engineMode s) s))
        as (_&_&_&_&_&_&_&_&_&_&->&_).
    - unfold timerFire. destruct (timer s) as [m|]; [|done]. unfold autoRun_callback.
      simpl. by destruct (sched_frame_proj _ _ (runBatchLogic_frame m (set_timer None s)))
        as (_&_&_&_&_&_&_&_&_&_&->&_).
    - by destruct (sched_frame_proj _ _ (uploadReply_frame k resp s))
        as (_&_&_&_&_&_&_&_&_&_&->&_).
    - by destruct (sched_frame_proj _ _ (poll_frame k resp s))
        as (_&_&_&_&_&_&_&_&_&_&->&_).
    - destruct (queue s !! index) as [item|] eqn:Hi; [|done].
      case_decide; [done|]. unfold removeFile. by rewrite Hi.
    - unfold clearClick. destruct (isGlobalLoading s); [done|]. by repeat case_decide.
    - unfold clearDone. by destruct (pendingClears s). }
  change (run_events (OpenModal :: es ++ [ReportsLoaded (length (reportFetches st))
                                            (Some data)]) st)
    with (run_events (es ++ [ReportsLoaded (length (reportFetches st)) (Some data)])
            (step OpenModal st)).
  rewrite run_events_snoc. unfold step at 1. rewrite Hcq. cbn [handle].
  unfold reportsLoaded. rewrite Hkeep by done. unfold step. rewrite Hcf.
  cbn [handle]. unfold openModal. simpl.
  rewrite list_lookup_middle by done. rewrite bool_decide_eq_true_2 by done.
  rewrite decide_True; [done|].
  rewrite length_fmap, length_take. destruct data; [done|]. cbn [length]. lia.
Qed.

Lemma history_reply_replaces_queue_witness :
  queue (run_events (OpenModal :: [AddFiles [audio "a.mp3"]] ++
                     [ReportsLoaded (length (reportFetches (init None None)))
                                    (Some [mkReport "ann" "/r/1" "id-1"])])
                    (init None None))
  = recent_item <$> take 5 [mkReport "ann" "/r/1" "id-1"].
Proof.
  apply (history_reply_replaces_queue (init None None) [AddFiles [audio "a.mp3"]]
           [mkReport "ann" "/r/1" "id-1"]).
  - reflexivity.
  - discriminate.
  - repeat constructor.
Defined.

(** ** What a request carries *)

Lemma processNext_requests rid st u :
  u ∈ uploads (processNext rid st) →
  u ∈ uploads st ∨
  ∃ r i f, runs st !! rid = Some r ∧
           u = mkUpload rid i (uploadRequest (run_mode r) (textRef st) f).
Proof.
  unfold processNext. destruct (runs st !! rid) as [r|] eqn:Hr; [|by left].
  case_decide; [by left|].
  pose proof (launch_loop_requests rid
    (drop (nextPendingRefIndex r) (pendingIndices r)) r st u) as Hreq.
  destruct (launch_loop _ _ _ _) as [r' st'] eqn:Hloop. simpl in *.
  intros [?|(i & f & ->)]%Hreq; [by left|]. right. eauto.
Qed.

Lemma processNext_requests_mode rid st u :
  u ∈ uploads (processNext rid st) →
  u ∈ uploads st ∨
  ∃ r i f, runs (processNext rid st) !! up_run u = Some r ∧
           u = mkUpload (up_run u) i (uploadRequest (run_mode r) (textRef st) f).
Proof.
  intros [?|(r & i & f & Hr & ->)]%processNext_requests; [by left|]. right.
  destruct (processNext_runs rid r st Hr) as (r' & Hruns & (_ & _ & Hm) & _).
  exists r', i, f. simpl. rewrite Hruns, Hm. split; [|done].
  apply list_lookup_insert_eq. by eapply lookup_lt_Some.
Qed.

Lemma handle_requests e st u :
  u ∈ uploads (handle e st) →
  u ∈ uploads st ∨
  ∃ r i f, runs (handle e st) !! up_run u = Some r ∧
           u = mkUpload (up_run u) i (uploadRequest (run_mode r) (textRef st) f).
Proof.
  pose proof (handle_quiet e st) as Hquiet.
  destruct e; try (destruct Hquiet as (_ & -> & _); by left); cbn [handle].
  - unfold runBatchLogic. destruct (isGlobalLoadingRef st); [by left|].
    case_decide; [by left|]. by intros [?|?]%processNext_requests_mode; [left|right].
  - unfold timerFire. destruct (timer st) as [m|]; [|by left].
    unfold autoRun_callback, runBatchLogic. simpl.
    destruct (isGlobalLoadingRef st); [by left|].
    case_decide; [by left|]. by intros [?|?]%processNext_requests_mode; [left|right].
  - unfold uploadReply. destruct (uploads st !! k) as [u0|] eqn:Hu0; [|by left].
    assert (∀ s, uploads (processItem_resume (up_index u0) resp s) = uploads s
               ∧ textRef (processItem_resume (up_index u0) resp s) = textRef s)
      as Hres by (by intros s; destruct resp).
    destruct (runs _ !! up_run u0) as [r|] eqn:Hr.
    + intros [Hu|Hu]%processNext_requests_mode.
      * left. simpl in Hu. rewrite (proj1 (Hres _)) in Hu. simpl in Hu.
        by apply list_elem_of_delete_inv in Hu.
      * right. simpl in Hu. by rewrite (proj2 (Hres _)) in Hu.
    + rewrite (proj1 (Hres _)). simpl. intros Hu. left.
      by apply list_elem_of_delete_inv in Hu.
Qed.

Lemma reachable_request_mode st u :
  reachable st → u ∈ uploads st →
  ∃ r, runs st !! up_run u = Some r ∧ req_mode (up_request u) = run_mode r.
Proof.
  intros (t & l & es & ->). revert u.
  induction es as [|e es IH] using rev_ind; intros u Hu.
  { by apply elem_of_nil in Hu. }
  rewrite run_events_snoc in *. set (st := run_events es (init t l)) in *.
  assert (uploads (step e st) = uploads (handle e st) ∧
          runs (step e st) = runs (handle e st)) as [Hus Hrs].
  { unfold step. by destruct (commit_sched (handle e st)) as (_ & -> & -> & _). }
  rewrite Hus in Hu. apply handle_requests in Hu as [Hu|(r & i & f & Hr & ->)].
  - destruct (IH u Hu) as (r & Hr & Hm).
    destruct (step_evolve e st _ _ Hr) as (r' & Hr' & _ & _ & Hm').
    exists r'. split; [done|]. congruence.
  - exists r. rewrite Hrs. by split.
Qed.

(** X13. Every upload in flight was sent in the engine mode its run
    captured when it started, whatever the mode selector shows by now, and
    it is for a position that run launched.  The text it carries was read
    when the task was launched, not when the run started: empty in auto
    mode, the reference text on screen at that moment in pro mode. *)
Theorem requests_follow_their_run (st : State) (e : Event) (u : Upload) :
  reachable st →
  (u ∈ uploads st →
   ∃ r, runs st !! up_run u = Some r ∧ req_mode (up_request u) = run_mode r ∧
        up_index u ∈ launched r) ∧
  (u ∈ uploads (step e st) →
   u ∈ uploads st ∨
   req_text (up_request u)
   = match req_mode (up_request u) with Pro => text st | Auto => "" end).
Proof.
  intros Hst. split.
  - intros Hu. destruct (reachable_request_mode st u Hst Hu) as (r & Hr & Hm).
    apply list_elem_of_lookup_1 in Hu as [k Hk].
    destruct (reachable_upload_run st k u Hst Hk) as (r' & Hr' & Hin & _).
    exists r. split_and!; [done..|]. congruence.
  - pose proof (reachable_SchedInv st Hst) as ((_ & Ht & _) & _).
    unfold step. destruct (commit_sched (handle e st)) as (_ & _ & -> & _).
    intros [?|(r & i & f & _ & ->)]%handle_requests; [by left|]. right.
    simpl. rewrite Ht. by destruct (run_mode r).
Qed.

Lemma requests_follow_their_run_witness :
  ∃ r, runs (step (SetEngineMode Auto) st_running)
         !! up_run (mkUpload 0 0 (uploadRequest Pro "" (audio "a"))) = Some r ∧
       req_mode (up_request (mkUpload 0 0 (uploadRequest Pro "" (audio "a"))))
       = run_mode r ∧
       up_index (mkUpload 0 0 (uploadRequest Pro "" (audio "a"))) ∈ launched r.
Proof.
  refine (proj1 (requests_follow_their_run (step (SetEngineMode Auto) st_running)
                   OpenModal (mkUpload 0 0 (uploadRequest Pro "" (audio "a"))) _) _).
  - apply reachable_step, reachable_from_init.
  - vm_compute. apply list_elem_of_here.
Defined.

(** ** How a handler changes the runs *)






(** ** The progress indicator *)






(** ** No task is dispatched twice *)





(** ** A run whose remaining entries are gone *)

Lemma step_stuck e st :
  SchedInv st → isGlobalLoading st = true → uploads st = [] →
  isGlobalLoading (step e st) = true ∧ uploads (step e st) = [] ∧
  runs (step e st) = runs st.
Proof.
  intros ((_ & _ & Hlr & _) & _) Hload Hups. unfold step.
  destruct (commit_sched (handle e st)) as (_ & -> & -> & _ & -> & _).
  pose proof (handle_quiet e st) as Hquiet.
  destruct e; try (destruct Hquiet as (-> & -> & ->); done); cbn [handle].
  - unfold runBatchLogic. by rewrite Hlr, Hload.
  - unfold timerFire. destruct (timer st); [|done].
    unfold autoRun_callback, runBatchLogic. simpl. by rewrite Hlr, Hload.
  - unfold uploadReply. by rewrite Hups.
Qed.

(** X16. A run resolves only from the callback of a returning upload that
    finds nothing left to launch.  If the dialog is loading and no upload is
    in flight (the entries the run had still to launch were removed from the
    queue, so the launch loop skipped them), nothing ever ends the run: the
    dialog stays loading, no upload is sent and no run starts, whatever
    happens next. *)
Theorem run_without_uploads_never_ends (st : State) (es : list Event) :
  reachable st → isGlobalLoading st = true → uploads st = [] →
  isGlobalLoading (run_events es st) = true ∧ uploads (run_events es st) = [] ∧
  runs (run_events es st) = runs st ∧ run_disabled (run_events es st) = true.
Proof.
  intros Hst Hload Hups.
  assert (isGlobalLoading (run_events es st) = true ∧ uploads (run_events es st) = [] ∧
          runs (run_events es st) = runs st) as (Hl & Hu & Hr).
  { induction es as [|e es IH] using rev_ind; [done|].
    rewrite run_events_snoc. destruct IH as (Hl & Hu & Hr).
    destruct (step_stuck e (run_events es st)) as (? & ? & ?); [|done..|].
    - by apply reachable_SchedInv, reachable_run_events.
    - split_and!; [done..|congruence]. }
  split_and!; [done..|]. unfold run_disabled. by rewrite Hl.
Qed.

Lemma run_without_uploads_never_ends_witness :
  isGlobalLoading (run_events [AddFiles [audio "z.mp3"]; TimerFire; RunBatch]
                              st_tail_removed) = true ∧
  uploads (run_events [AddFiles [audio "z.mp3"]; TimerFire; RunBatch]
                      st_tail_removed) = [] ∧
  runs (run_events [AddFiles [audio "z.mp3"]; TimerFire; RunBatch] st_tail_removed)
  = runs st_tail_removed ∧
  run_disabled (run_events [AddFiles [audio "z.mp3"]; TimerFire; RunBatch]
                           st_tail_removed) = true.
Proof.
  apply (run_without_uploads_never_ends st_tail_removed
           [AddFiles [audio "z.mp3"]; TimerFire; RunBatch]).
  - apply reachable_run_events, reachable_from_init.
  - vm_compute. reflexivity.
  - vm_compute. reflexivity.
Defined.

(** ** Records in progress and the operations in flight *)

Lemma mark_uploading_app new1 new2 (q : list QueueItem) :
  mark_uploading (new1 ++ new2) q = mark_uploading new2 (mark_uploading new1 q).
Proof. unfold mark_uploading. apply foldl_app. Qed.
















(** ** The name a record is listed under *)

Lemma display_name_split (a b : string) :
  lastIndexOf "." b = None →
  display_name (a +:+ String "." b)
  = if bool_decide (b ≠ "" ∧ lastIndexOf "/" b = None) then a
    else a +:+ String "." b.
Proof.
  intros Hb. unfold display_name. rewrite lastIndexOf_app. simpl. rewrite Hb. simpl.
  rewrite Nat.add_0_r, substring_to_app.
  replace (substring_from (S (String.length a)) (a +:+ String "." b)) with b; [done|].
  replace (a +:+ String "." b) with ((a +:+ ".") +:+ b)
    by (by rewrite sapp_assoc, sapp_cons, sapp_nil_l).
  replace (S (String.length a)) with (String.length (a +:+ "."))
    by (rewrite sapp_length; simpl; lia).
  by rewrite substring_from_app.
Qed.

(** X18. The list and the removal dialog show a record under its stem, the
    name up to its last dot, whenever something other than a slash follows
    that dot; a name without a dot, one ending in a dot and one with a slash
    after its last dot are shown whole.  So an upload that the resolver
    renamed is listed as stem, underscore, counter. *)
Theorem display_name_is_stem (fileName : string) :
  (display_name fileName = stem fileName ∨ display_name fileName = fileName) ∧
  (lastIndexOf "." fileName = None → display_name fileName = fileName) ∧
  (extension fileName = "." → display_name fileName = fileName) ∧
  (∀ e, extension fileName = String "." e → e ≠ "" → lastIndexOf "/" e = None →
     display_name fileName = stem fileName ∧
     ∀ existingNames currentQueue,
       display_name (getUniqueFileName existingNames fileName currentQueue)
       = stem (getUniqueFileName existingNames fileName currentQueue)).
Proof.
  assert (∀ s e, extension s = String "." e →
            ∃ a, s = a +:+ String "." e ∧ stem s = a ∧ lastIndexOf "." e = None)
    as Hsplit.
  { intros s e He. destruct (split_name_spec s) as [Hs Hext]. fold (stem s) in *.
    fold (extension s) in *. rewrite He in *.
    destruct Hext as [[? _]|(e' & [= <-] & Hno)]; [done|]. eauto. }
  assert (∀ s e, extension s = String "." e → e ≠ "" → lastIndexOf "/" e = None →
            display_name s = stem s) as Hstem.
  { intros s e He Hne Hsl. destruct (Hsplit s e He) as (a & -> & -> & Hno).
    rewrite display_name_split by done. by rewrite bool_decide_eq_true_2. }
  split_and!.
  - destruct (split_name_spec fileName) as [Hs Hext]. fold (stem fileName) in *.
    fold (extension fileName) in *.
    destruct Hext as [[He Hno]|(e & He & Hno)].
    + right. rewrite He, sapp_nil_r in Hs. unfold display_name. by rewrite Hs, Hno.
    + rewrite He in Hs. rewrite Hs at 1 3. rewrite display_name_split by done.
      case_bool_decide; [by left|by right].
  - intros Hno. unfold display_name. by rewrite Hno.
  - intros He. destruct (Hsplit fileName "" He) as (a & Hs & _ & _).
    rewrite Hs. by rewrite display_name_split.
  - intros e He Hne Hsl. split; [by eapply Hstem|].
    intros E q. apply (Hstem _ e); [|done..].
    destruct (resolved_name_free E fileName q) as (_ & _ & ->). done.
Qed.

Lemma display_name_is_stem_witness :
  display_name "essay.mp3" = stem "essay.mp3" ∧
  ∀ existingNames currentQueue,
    display_name (getUniqueFileName existingNames "essay.mp3" currentQueue)
    = stem (getUniqueFileName existingNames "essay.mp3" currentQueue).
Proof.
  refine (proj2 (proj2 (proj2 (display_name_is_stem "essay.mp3"))) "mp3" _ _ _).
  - reflexivity.
  - discriminate.
  - reflexivity.
Defined.

(** ** Messages of failures *)




(** ** Clear All *)

Lemma handle_pendingClears e st :
  e ≠ ClearDone → pendingClears st ≤ pendingClears (handle e st).
Proof.
  intros He. destruct e; try done; cbn [handle]; try (simpl; lia).
  - destruct (sched_frame_proj _ _ (runBatchLogic_frame (engineMode st) st))
      as (_&_&_&_&_&_&_&_&_&_&_&->). done.
  - unfold timerFire. destruct (timer st) as [m|]; [|done]. unfold autoRun_callback.
    simpl. destruct (sched_frame_proj _ _ (runBatchLogic_frame m (set_timer None st)))
      as (_&_&_&_&_&_&_&_&_&_&_&->). done.
  - destruct (sched_frame_proj _ _ (uploadReply_frame k resp st))
      as (_&_&_&_&_&_&_&_&_&_&_&->). done.
  - destruct (sched_frame_proj _ _ (poll_frame k resp st))
      as (_&_&_&_&_&_&_&_&_&_&_&->). done.
  - destruct (queue st !! index) as [item|] eqn:Hi; [|done].
    case_decide; [done|]. unfold removeFile. by rewrite Hi.
  - unfold clearClick. destruct (isGlobalLoading st); [done|].
    repeat case_decide; simpl; lia.
  - unfold reportsLoaded. destruct (reportFetches st !! k) as [[]|]; [| |done];
      destruct resp as [data|]; repeat case_decide; done.
Qed.

Lemma run_events_pendingClears es st :
  Forall (λ e, e ≠ ClearDone) es →
  pendingClears st ≤ pendingClears (run_events es st).
Proof.
  intros Hes. revert st. induction Hes as [|e es He _ IH]; intros st; [done|].
  simpl. etrans; [|apply IH]. unfold step.
  destruct (commit_sched (handle e st)) as (_&_&_&_&_&_&_&_&_&_&_&_&->).
  by apply handle_pendingClears.
Qed.

(** X20. "Clear All" does nothing while the dialog is loading or the queue
    is empty.  Otherwise, if no record has a job id the queue is emptied at
    once; if some have, the queue stays as it is until the delete request
    has returned and is emptied then, whether the request succeeded or not,
    together with whatever was appended in the meantime. *)
Theorem clear_all_waits_for_server (st : State) :
  (isGlobalLoading st = true ∨ queue st = [] → handle ClearClick st = st) ∧
  (isGlobalLoading st = false → omap jobId (queue st) = [] →
   queue (step ClearClick st) = []) ∧
  (isGlobalLoading st = false → omap jobId (queue st) ≠ [] →
   queue (step ClearClick st) = queue st ∧
   ∀ es, Forall (λ e, e ≠ ClearDone) es →
     queue (run_events (ClearClick :: es ++ [ClearDone]) st) = []).
Proof.
  assert (∀ s, queue (commit s) = queue s) as Hcq.
  { intros s. by destruct (commit_sched s) as (->&_). }
  assert (∀ s, pendingClears (commit s) = pendingClears s) as Hcp.
  { intros s. by destruct (commit_sched s) as (_&_&_&_&_&_&_&_&_&_&_&_&->). }
  split_and!.
  - intros [Hl|Hq]; cbn [handle]; unfold clearClick.
    + by rewrite Hl.
    + destruct (isGlobalLoading st); [done|]. by rewrite decide_True.
  - intros Hl Hj. unfold step. rewrite Hcq. cbn [handle]. unfold clearClick.
    rewrite Hl. case_decide; [done|]. by rewrite decide_True.
  - intros Hl Hj.
    assert (queue st ≠ []) as Hq by (intros Hq; by rewrite Hq in Hj).
    assert (handle ClearClick st = set_pendingClears (S (pendingClears st)) st) as Hh.
    { cbn [handle]. unfold clearClick. rewrite Hl.
      by rewrite decide_False, decide_False. }
    split.
    + unfold step. by rewrite Hcq, Hh.
    + intros es Hes.
      change (run_events (ClearClick :: es ++ [ClearDone]) st)
        with (run_events (es ++ [ClearDone]) (step ClearClick st)).
      rewrite run_events_snoc. unfold step at 1. rewrite Hcq. cbn [handle].
      pose proof (run_events_pendingClears es (step ClearClick st) Hes) as Hle.
      assert (pendingClears (step ClearClick st) = S (pendingClears st)) as Hpc.
      { unfold step. by rewrite Hcp, Hh. }
      rewrite Hpc in Hle.
      unfold clearDone.
      destruct (pendingClears (run_events es (step ClearClick st))); [lia|done].
Qed.

Lemma clear_all_waits_for_server_witness :
  queue (step ClearClick st_polling) = queue st_polling.
Proof.
  refine (proj1 (proj2 (proj2 (clear_all_waits_for_server st_polling)) _ _)).
  - vm_compute. reflexivity.
  - vm_compute. discriminate.
Defined.

(** ** Rendering *)


(** ** The mode a pending timer holds *)

Lemma step_timer_kept e m st :
  SchedInv st → timer st = Some m → e ≠ TimerFire → e ≠ RunBatch →
  timer (step e st) = Some m.
Proof.
  intros ((_ & _ & _ & Hdeps) & Hph & Htm) Ht He1 He2.
  destruct (proj1 Htm) as [Hs Hl]; [by rewrite Ht|].
  assert (uploads st = []) as Hups.
  { destruct Hph as [(_ & ? & _)|(? & _)]; [done|congruence]. }
  unfold step. rewrite commit_timer.
  assert (isGlobalLoading (handle e st) = false) as Hl'.
  { pose proof (handle_quiet e st) as Hquiet.
    destruct e; try done; try (by destruct Hquiet as (_ & _ & ->)).
    cbn [handle]. unfold uploadReply. by rewrite Hups. }
  pose proof (handle_keeps_request e st He1 Hs) as Hs'.
  destruct (handle_effect e st) as [Hd [Hsame|(_ & _ & Hoff)]]; [|congruence].
  rewrite Hs', Hl', Hd, Hdeps, Hs, Hl, Hsame. by rewrite decide_True.
Qed.

(** X22. The debounce timer is armed by the first append and keeps the
    engine mode of that render: further appends do not re-arm it, and a
    change of the mode selector, of the text or of the settings does not
    reach it.  When it fires, the run it starts works in the mode it held. *)
Theorem pending_timer_keeps_mode (st : State) (m : Mode) (es : list Event) :
  reachable st → timer st = Some m →
  Forall (λ e, e ≠ TimerFire ∧ e ≠ RunBatch) es →
  let st' := run_events es st in
  timer st' = Some m ∧
  (idle_indices (queue st') ≠ [] →
   ∃ r, active_run (step TimerFire st') (length (runs st')) r ∧ run_mode r = m).
Proof.
  intros Hst Ht Hes st'.
  assert (timer st' = Some m) as Ht'.
  { unfold st'. clear st'. revert st Hst Ht.
    induction Hes as [|e es [He1 He2] _ IH]; intros st Hst Ht; [done|].
    simpl. apply IH; [by apply reachable_step|].
    apply step_timer_kept; [by apply reachable_SchedInv|done..]. }
  split; [done|]. intros Hidle.
  assert (reachable st') as Hst' by by apply reachable_run_events.
  pose proof (reachable_SchedInv st' Hst') as (_ & _ & Htm).
  destruct (proj1 Htm) as [_ Hl]; [by rewrite Ht'|].
  destruct (step_started TimerFire m st' Hst' Hl Hidle)
    as (r & _ & Hact & _ & _ & Hm & _); [by right|]. eauto.
Qed.

Lemma pending_timer_keeps_mode_witness :
  timer (run_events [SetEngineMode Auto; AddFiles [audio "b"]]
                    (step (AddFiles [audio "a"]) (init None None))) = Some Pro.
Proof.
  refine (proj1 (pending_timer_keeps_mode
    (step (AddFiles [audio "a"]) (init None None)) Pro
    [SetEngineMode Auto; AddFiles [audio "b"]] _ _ _)).
  - apply reachable_step, (reachable_from_init []).
  - vm_compute. reflexivity.
  - repeat constructor; discriminate.
Defined.

(** ** A successful upload *)



(** ** Removing a record *)

(** X24. Removing a record renumbers the queue and nothing else: the
    records before it keep their positions, those after it move down by
    one, all unchanged, while the uploads in flight, the poll loops and the
    runs keep the positions they hold.  An index past the end and the record
    of a task that is processing (its button is not rendered) are left
    alone. *)
Theorem removeFile_renumbers (st : State) (index : nat) :
  let st' := step (RemoveFile index) st in
  (∀ i j, track (RemoveFile index) st i = Some j → queue st' !! j = queue st !! i) ∧
  (∀ j, is_Some (queue st' !! j) →
        ∃ i, track (RemoveFile index) st i = Some j) ∧
  (drops (RemoveFile index) st = true → S (length (queue st')) = length (queue st)) ∧
  (drops (RemoveFile index) st = false → queue st' = queue st) ∧
  uploads st' = uploads st ∧ polls st' = polls st ∧ runs st' = runs st.
Proof.
  intros st'.
  assert (queue st' = (if drops (RemoveFile index) st then delete index (queue st)
                       else queue st) ∧
          uploads st' = uploads st ∧ polls st' = polls st ∧ runs st' = runs st)
    as (Hq & Hu & Hp & Hr).
  { unfold st', step. destruct (commit_sched (handle (RemoveFile index) st))
      as (-> & -> & -> & -> & _). cbn [handle]. simpl.
    destruct (queue st !! index) as [item|] eqn:Hi; [|done].
    case_decide as Hs.
    - by rewrite bool_decide_eq_false_2 by (by intros ?).
    - rewrite bool_decide_eq_true_2 by done. unfold removeFile. by rewrite Hi. }
  split_and!; [| | | |done..].
  - intros i j Hij. unfold track in Hij. rewrite Hq.
    destruct (drops (RemoveFile index) st) eqn:Hd; [|by injection Hij as <-].
    repeat case_decide; simplify_eq.
    + by rewrite list_lookup_delete_lt.
    + rewrite list_lookup_delete_ge by lia. by replace (S (i - 1)) with i by lia.
  - intros j Hj. unfold track.
    destruct (drops (RemoveFile index) st) eqn:Hd; [|by exists j].
    destruct (decide (j < index)) as [Hlt|Hge].
    + exists j. by rewrite decide_True.
    + exists (S j). rewrite decide_False by lia. rewrite decide_False by lia.
      f_equal. lia.
  - intros Hd. rewrite Hq, Hd. simpl in Hd.
    destruct (queue st !! index) as [item|] eqn:Hi; [|done].
    rewrite length_delete by eauto. apply lookup_lt_Some in Hi. lia.
  - intros Hd. by rewrite Hq, Hd.
Qed.

Lemma removeFile_renumbers_witness :
  S (length (queue (step (RemoveFile 0) st_second_done)))
  = length (queue st_second_done).
Proof.
  refine (proj1 (proj2 (proj2 (removeFile_renumbers st_second_done 0))) _).
  vm_compute. reflexivity.
Defined.
